(** * VideoComposer: timeline, caption windows and frame composition

    A shallow embedding of [src/renderer/src/services/VideoComposer.ts].

    Conventions of the model.
    - A JavaScript [number] that comes in as data (a duration, a caption
      time, a pixel size) is the rational [Q] it denotes; the sign of zero
      is left out.
    - Sums and differences of times, the pixel geometry and the progress
      through a caption are computed exactly. Where the source divides or
      multiplies and then cuts to a whole number, or lays words out over a
      duration (the clock in seconds and the progress percentage, the
      word times of the fallback captions and of a transcription without
      words, the estimate of a scene's duration), every operation is done
      in binary64: it yields [round64] of its exact result, the double
      nearest to it, ties going to the even one.
    - A [number] that comes out of a division is a [number] in the sense of
      module [JsNum]: a rational, [+Infinity], [-Infinity] or [NaN], so that
      [x / 0] behaves as it does in the source.
    - A string is a sequence of one-byte characters; upper case and white
      space are those of ASCII text.
    - The canvas context is an explicit state ([Ctx]) threaded through the
      drawing code; the calls it receives are logged in order.
    - [composeVideo] is run against an environment that answers image loads
      and clock reads; its side effects are logged in order. *)

From Stdlib Require Import QArith Qround Qminmax Qpower ZArith List String Ascii Bool Lia Lqa.
From Stdlib Require Import Sorted.
Import ListNotations.

Local Open Scope Q_scope.

(** ** Boolean tests on rationals *)

Definition Qlt_bool (x y : Q) : bool := negb (Qle_bool y x).

(** ** Doubles *)

Definition pow2 (e : Z) : Q := 2 ^ e.

(** For a positive [q], the [e] with [2^e <= q < 2^(e+1)]. *)
Definition magnitude (q : Q) : Z :=
  let e := (Z.log2 (Qnum q) - Z.log2 (Zpos (Qden q)))%Z in
  if Qle_bool (pow2 e) q then e else (e - 1)%Z.

(** The nearest integer, a tie going to the even one. *)
Definition roundEven (x : Q) : Z :=
  let f := Qfloor x in
  match Qcompare (x - inject_Z f) (1 # 2) with
  | Lt => f
  | Gt => (f + 1)%Z
  | Eq => if Z.even f then f else (f + 1)%Z
  end.

(** The exponent of the last place of the doubles around a positive [q]:
    53 significant bits, and no exponent below that of the subnormals. *)
Definition ulpExponent (q : Q) : Z := Z.max (magnitude q - 52) (-1074).

Definition roundPos (q : Q) : Q :=
  let e := ulpExponent q in
  inject_Z (roundEven (q / pow2 e)) * pow2 e.

(** The double nearest to [q], as long as it is finite. *)
Definition round64 (q : Q) : Q :=
  match Qcompare 0 q with
  | Eq => 0
  | Lt => roundPos q
  | Gt => - roundPos (- q)
  end.

(** ** JavaScript numbers produced by division *)

Module JsNum.

Inductive number : Type :=
| Fin (q : Q)
| PInf
| NInf
| NaN.

Definition sgn (q : Q) : comparison := 0 ?= q.

Definition neg (x : number) : number :=
  match x with
  | Fin q => Fin (- q)
  | PInf => NInf
  | NInf => PInf
  | NaN => NaN
  end.

Definition add (x y : number) : number :=
  match x, y with
  | NaN, _ | _, NaN => NaN
  | Fin a, Fin b => Fin (a + b)
  | PInf, NInf | NInf, PInf => NaN
  | PInf, _ | _, PInf => PInf
  | NInf, _ | _, NInf => NInf
  end.

Definition sub (x y : number) : number := add x (neg y).

(** An infinity scaled by a finite factor. *)
Definition scaleInf (pos : bool) (q : Q) : number :=
  match sgn q with
  | Eq => NaN
  | Lt => if pos then PInf else NInf
  | Gt => if pos then NInf else PInf
  end.

Definition mul (x y : number) : number :=
  match x, y with
  | NaN, _ | _, NaN => NaN
  | Fin a, Fin b => Fin (a * b)
  | Fin a, PInf | PInf, Fin a => scaleInf true a
  | Fin a, NInf | NInf, Fin a => scaleInf false a
  | PInf, PInf | NInf, NInf => PInf
  | PInf, NInf | NInf, PInf => NInf
  end.

Definition div (x y : number) : number :=
  match x, y with
  | NaN, _ | _, NaN => NaN
  | Fin a, Fin b =>
      match sgn b with
      | Eq => scaleInf true a          (* a / 0 *)
      | _ => Fin (a / b)
      end
  | Fin _, PInf | Fin _, NInf => Fin 0
  | PInf, Fin b => match sgn b with Gt => NInf | _ => PInf end
  | NInf, Fin b => match sgn b with Gt => PInf | _ => NInf end
  | _, _ => NaN                          (* infinity / infinity *)
  end.

(** [x < y]; every comparison with [NaN] is false. *)
Definition lt (x y : number) : bool :=
  match x, y with
  | NaN, _ | _, NaN => false
  | Fin a, Fin b => Qlt_bool a b
  | NInf, NInf | PInf, _ => false
  | NInf, _ => true
  | Fin _, PInf => true
  | Fin _, NInf => false
  end.

Definition gt (x y : number) : bool := lt y x.

(** [Math.min] and [Math.max]: [NaN] if either argument is. *)
Definition min (x y : number) : number :=
  match x, y with
  | NaN, _ | _, NaN => NaN
  | _, _ => if lt y x then y else x
  end.

Definition max (x y : number) : number :=
  match x, y with
  | NaN, _ | _, NaN => NaN
  | _, _ => if lt x y then y else x
  end.

(** [Math.floor] and [Math.ceil]. *)
Definition floor (x : number) : number :=
  match x with
  | Fin q => Fin (inject_Z (Qfloor q))
  | _ => x
  end.

Definition ceil (x : number) : number :=
  match x with
  | Fin q => Fin (inject_Z (Qceiling q))
  | _ => x
  end.

Definition ofZ (z : Z) : number := Fin (inject_Z z).

(** The double that an exact result becomes: the nearest one, or an
    infinity beyond the largest. *)
Definition round (x : number) : number :=
  match x with
  | Fin q =>
      let r := round64 q in
      if Qle_bool (pow2 1024) r then PInf
      else if Qle_bool r (- pow2 1024) then NInf
      else Fin r
  | _ => x
  end.

(** [x / y] and [x * y] on doubles. *)
Definition fdiv (x y : number) : number := round (div x y).

Definition fmul (x y : number) : number := round (mul x y).

(** [ToIntegerOrInfinity] followed by the clamping that
    [Array.prototype.slice] applies to an index of a list of length [len]:
    [NaN] is 0, a negative index counts from the end. *)
Definition relIndex (len : Z) (x : number) : Z :=
  match x with
  | NaN => 0%Z
  | PInf => len
  | NInf => 0%Z
  | Fin q =>
      let k := Z.quot (Qnum q) (Zpos (Qden q)) in
      if (k <? 0)%Z then Z.max (len + k) 0 else Z.min k len
  end.

End JsNum.
Import JsNum.

(** ** Arrays *)

(** [arr[i]] for an integer [i]: [undefined] out of range. *)
Definition item {A : Type} (l : list A) (i : Z) : option A :=
  if (i <? 0)%Z then None else nth_error l (Z.to_nat i).

Definition lengthZ {A : Type} (l : list A) : Z := Z.of_nat (List.length l).

(** [arr.slice(s, e)] with the clamped bounds [s] and [e]. *)
Definition sliceFrom {A : Type} (l : list A) (s e : Z) : list A :=
  firstn (Z.to_nat (e - s)) (skipn (Z.to_nat s) l).

Definition slice {A : Type} (l : list A) (s e : number) : list A :=
  sliceFrom l (relIndex (lengthZ l) s) (relIndex (lengthZ l) e).

Definition sliceZ {A : Type} (l : list A) (s e : Z) : list A :=
  slice l (ofZ s) (ofZ e).

(** ** Data model ([types/index.ts]) *)

Inductive CaptionTemplate := karaoke | word_by_word | sentence | minimal.
Inductive CaptionPosition := top | center | bottom.
Inductive AspectRatio := ar_16_9 | ar_9_16 | ar_1_1.
Inductive FontSizeClass := small | medium | large.

Record CaptionSettings := {
  template : CaptionTemplate;
  position : CaptionPosition;
  fontSize : FontSizeClass;
  fontFamily : string;
  textColor : string;
  backgroundColor : string
}.

Definition DEFAULT_CAPTION_SETTINGS : CaptionSettings :=
  {| template := karaoke;
     position := bottom;
     fontSize := large;
     fontFamily := "Inter";
     textColor := "#ffffff";
     backgroundColor := "rgba(0, 0, 0, 0.8)" |}.

Record WordTiming := {
  word : string;
  w_start : Q;
  w_end : Q
}.

Record Scene := {
  scene_text : string;
  imagePrompt : string;
  duration : Q;
  imageUrl : option string
}.

Record Caption := {
  startTime : Q;
  endTime : Q;
  text : string;
  words : option (list WordTiming)
}.

Record Dims := { d_width : Q; d_height : Q }.

Definition ASPECT_RATIO_DIMS (a : AspectRatio) : Dims :=
  match a with
  | ar_16_9 => {| d_width := 1920; d_height := 1080 |}
  | ar_9_16 => {| d_width := 1080; d_height := 1920 |}
  | ar_1_1 => {| d_width := 1080; d_height := 1080 |}
  end.

(** What an [HTMLImageElement] shows, and its pixel size. *)
Inductive ImageContent :=
| Loaded (url : string)
| Placeholder (sceneNum : Z).

Record Image := {
  content : ImageContent;
  img_width : Q;
  img_height : Q
}.

(** ** Timeline (composeVideo, "Calculate scene timings") *)

Record SceneTiming := {
  start : Q;
  end_ : Q;
  image : option Image      (* [images[i]] *)
}.

Definition totalDuration (scenes : list Scene) : Q :=
  fold_left (fun acc s => acc + duration s) scenes 0.

(** The loop over [scenes], entered at index [i] with [currentTime]. *)
Fixpoint sceneTimingsFrom (images : list Image) (i : nat) (currentTime : Q)
    (scenes : list Scene) : list SceneTiming :=
  match scenes with
  | [] => []
  | s :: rest =>
      {| start := currentTime;
         end_ := currentTime + duration s;
         image := nth_error images i |}
      :: sceneTimingsFrom images (S i) (currentTime + duration s) rest
  end.

Definition sceneTimings (images : list Image) (scenes : list Scene)
  : list SceneTiming :=
  sceneTimingsFrom images 0 0 scenes.

(** [elapsed >= s.start && elapsed < s.end] *)
Definition activeAt (elapsed : Q) (s : SceneTiming) : bool :=
  Qle_bool (start s) elapsed && Qlt_bool elapsed (end_ s).

(** [sceneTimings.find(...) || sceneTimings[sceneTimings.length - 1]] *)
Definition currentScene (timings : list SceneTiming) (elapsed : Q)
  : option SceneTiming :=
  match find (activeAt elapsed) timings with
  | Some s => Some s
  | None => item timings (lengthZ timings - 1)
  end.

(** ** Strings *)

Definition nonEmpty (s : string) : bool :=
  match s with
  | EmptyString => false
  | String _ _ => true
  end.

Definition space : string := String " "%char EmptyString.

(** [s.split(' ')]: every single separator cuts. *)
Fixpoint split (sep : ascii) (s : string) : list string :=
  match s with
  | EmptyString => [EmptyString]
  | String c rest =>
      if Ascii.eqb c sep then EmptyString :: split sep rest
      else match split sep rest with
           | w :: ws => String c w :: ws
           | [] => [String c EmptyString]
           end
  end.

(** The characters [\s] matches, among those of one byte. *)
Definition isSpace (c : ascii) : bool :=
  let n := nat_of_ascii c in
  ((9 <=? n)%nat && (n <=? 13)%nat) || (n =? 32)%nat.

(** [s.split(/\s+/)]: a maximal run of white space cuts once; [inRun] says
    that the previous character belonged to such a run. *)
Fixpoint splitRuns (inRun : bool) (s : string) : list string :=
  match s with
  | EmptyString => [EmptyString]
  | String c rest =>
      if isSpace c then
        if inRun then splitRuns true rest
        else EmptyString :: splitRuns true rest
      else match splitRuns false rest with
           | w :: ws => String c w :: ws
           | [] => [String c EmptyString]
           end
  end.

Definition splitWhitespace (s : string) : list string := splitRuns false s.

(** [arr.join(sep)] *)
Definition join (sep : string) (l : list string) : string :=
  String.concat sep l.

Definition upperChar (c : ascii) : ascii :=
  let n := nat_of_ascii c in
  if (97 <=? n)%nat && (n <=? 122)%nat then ascii_of_nat (n - 32) else c.

(** [s.toUpperCase()], on the letters a-z. *)
Fixpoint toUpperCase (s : string) : string :=
  match s with
  | EmptyString => EmptyString
  | String c rest => String (upperChar c) (toUpperCase rest)
  end.

(** ** The canvas context *)

Record Font := {
  weight : string;
  sizePx : Q;
  family : string
}.

Inductive DrawOp :=
| FillRect (style : string) (x y w h : Q)
| DrawImage (img : Image) (x y w h : number)
| BeginPath
| RoundRect (x y w h r : Q)
| Fill (style : string)
| FillText (txt : string) (x y : Q) (style : string) (f : Font)
    (shadow : string) (blur offsetY : Q).

Record Ctx := {
  fillStyle : string;
  font : Font;
  textAlign : string;
  textBaseline : string;
  shadowColor : string;
  shadowBlur : Q;
  shadowOffsetY : Q;
  ops : list DrawOp          (* the calls received, oldest first *)
}.

Definition setFillStyle (v : string) (c : Ctx) : Ctx :=
  {| fillStyle := v; font := font c; textAlign := textAlign c;
     textBaseline := textBaseline c; shadowColor := shadowColor c;
     shadowBlur := shadowBlur c; shadowOffsetY := shadowOffsetY c;
     ops := ops c |}.

Definition setFont (v : Font) (c : Ctx) : Ctx :=
  {| fillStyle := fillStyle c; font := v; textAlign := textAlign c;
     textBaseline := textBaseline c; shadowColor := shadowColor c;
     shadowBlur := shadowBlur c; shadowOffsetY := shadowOffsetY c;
     ops := ops c |}.

Definition setTextAlign (v : string) (c : Ctx) : Ctx :=
  {| fillStyle := fillStyle c; font := font c; textAlign := v;
     textBaseline := textBaseline c; shadowColor := shadowColor c;
     shadowBlur := shadowBlur c; shadowOffsetY := shadowOffsetY c;
     ops := ops c |}.

Definition setTextBaseline (v : string) (c : Ctx) : Ctx :=
  {| fillStyle := fillStyle c; font := font c; textAlign := textAlign c;
     textBaseline := v; shadowColor := shadowColor c;
     shadowBlur := shadowBlur c; shadowOffsetY := shadowOffsetY c;
     ops := ops c |}.

Definition setShadowColor (v : string) (c : Ctx) : Ctx :=
  {| fillStyle := fillStyle c; font := font c; textAlign := textAlign c;
     textBaseline := textBaseline c; shadowColor := v;
     shadowBlur := shadowBlur c; shadowOffsetY := shadowOffsetY c;
     ops := ops c |}.

Definition setShadowBlur (v : Q) (c : Ctx) : Ctx :=
  {| fillStyle := fillStyle c; font := font c; textAlign := textAlign c;
     textBaseline := textBaseline c; shadowColor := shadowColor c;
     shadowBlur := v; shadowOffsetY := shadowOffsetY c;
     ops := ops c |}.

Definition setShadowOffsetY (v : Q) (c : Ctx) : Ctx :=
  {| fillStyle := fillStyle c; font := font c; textAlign := textAlign c;
     textBaseline := textBaseline c; shadowColor := shadowColor c;
     shadowBlur := shadowBlur c; shadowOffsetY := v;
     ops := ops c |}.

Definition call (op : DrawOp) (c : Ctx) : Ctx :=
  {| fillStyle := fillStyle c; font := font c; textAlign := textAlign c;
     textBaseline := textBaseline c; shadowColor := shadowColor c;
     shadowBlur := shadowBlur c; shadowOffsetY := shadowOffsetY c;
     ops := ops c ++ [op] |}.

Definition fillRect (x y w h : Q) (c : Ctx) : Ctx :=
  call (FillRect (fillStyle c) x y w h) c.

Definition drawImage (img : Image) (x y w h : number) (c : Ctx) : Ctx :=
  call (DrawImage img x y w h) c.

Definition beginPath (c : Ctx) : Ctx := call BeginPath c.

Definition roundRect (x y w h r : Q) (c : Ctx) : Ctx :=
  call (RoundRect x y w h r) c.

Definition fill (c : Ctx) : Ctx := call (Fill (fillStyle c)) c.

Definition fillText (txt : string) (x y : Q) (c : Ctx) : Ctx :=
  call (FillText txt x y (fillStyle c) (font c) (shadowColor c)
          (shadowBlur c) (shadowOffsetY c)) c.

(** The state of a context that [getContext('2d')] hands out. *)
Definition freshCtx : Ctx :=
  {| fillStyle := "#000000";
     font := {| weight := "normal"; sizePx := 10; family := "sans-serif" |};
     textAlign := "start";
     textBaseline := "alphabetic";
     shadowColor := "rgba(0, 0, 0, 0)";
     shadowBlur := 0;
     shadowOffsetY := 0;
     ops := [] |}.

(** Sequencing of context updates, in source order. *)
Notation "c |> f" := (f c) (at level 45, left associativity, only parsing).

(** The texts that were drawn, in order. *)
Definition textsOf (l : list DrawOp) : list string :=
  flat_map (fun op => match op with
                      | FillText txt _ _ _ _ _ _ _ => [txt]
                      | _ => []
                      end) l.

(** ** The composer *)

Record VideoComposer := {
  aspectRatio : AspectRatio;
  width : Q;
  height : Q
}.

(** [load]: the fields it sets. *)
Definition load (a : AspectRatio) : VideoComposer :=
  let dims := ASPECT_RATIO_DIMS a in
  {| aspectRatio := a; width := d_width dims; height := d_height dims |}.

Section Drawing.

(** [ctx.measureText(s).width] under the font that is set. *)
Variable measureText : Font -> string -> Q.

Variable this : VideoComposer.

Definition getFontSize (size : FontSizeClass) : Q :=
  let baseSize := Qmin (width this) (height this) / 18 in
  match size with
  | small => baseSize * 0.7
  | medium => baseSize
  | large => baseSize * 1.3
  end.

Definition getYPosition (p : CaptionPosition) : Q :=
  match p with
  | top => height this * 0.12
  | center => height this * 0.5
  | bottom => height this * 0.82
  end.

Definition boldFont (size : Q) (settings : CaptionSettings) : Font :=
  {| weight := "bold"; sizePx := size;
     family := (fontFamily settings ++ ", system-ui")%string |}.

(** *** drawImageCover *)

Record CoverRect := {
  drawX : number;
  drawY : number;
  drawWidth : number;
  drawHeight : number
}.

Definition coverRect (img : Image) : CoverRect :=
  let imgAspect := div (Fin (img_width img)) (Fin (img_height img)) in
  let canvasAspect := div (Fin (width this)) (Fin (height this)) in
  if gt imgAspect canvasAspect then
    let drawHeight := Fin (height this) in
    let drawWidth := mul (Fin (height this)) imgAspect in
    {| drawX := div (sub (Fin (width this)) drawWidth) (Fin 2);
       drawY := Fin 0;
       drawWidth := drawWidth;
       drawHeight := drawHeight |}
  else
    let drawWidth := Fin (width this) in
    let drawHeight := div (Fin (width this)) imgAspect in
    {| drawX := Fin 0;
       drawY := div (sub (Fin (height this)) drawHeight) (Fin 2);
       drawWidth := drawWidth;
       drawHeight := drawHeight |}.

Definition drawImageCover (img : Image) (ctx : Ctx) : Ctx :=
  let r := coverRect img in
  ctx |> drawImage img (drawX r) (drawY r) (drawWidth r) (drawHeight r).

(** *** Progress through a caption *)

(** [(currentTime - caption.startTime) / (caption.endTime - caption.startTime)] *)
Definition captionProgress (caption : Caption) (currentTime : Q) : number :=
  div (Fin (currentTime - startTime caption))
      (Fin (endTime caption - startTime caption)).

(** *** Sentence *)

(** [endWordIdx] and [startWordIdx]. *)
Definition sentenceWindow (len : Z) (progress : number) : number * number :=
  let endWordIdx := min (ofZ len) (add (ceil (mul progress (ofZ len))) (ofZ 4)) in
  let startWordIdx := max (ofZ 0) (sub endWordIdx (ofZ 8)) in
  (startWordIdx, endWordIdx).

(** The wrapping loop, entered with [lines] and [currentLine]; it leaves
    early once two lines are pushed. *)
Fixpoint wrapLoop (f : Font) (maxWidth : Q) (ws : list string)
    (lines : list string) (currentLine : string) : list string * string :=
  match ws with
  | [] => (lines, currentLine)
  | word :: rest =>
      let testLine :=
        (currentLine ++ (if nonEmpty currentLine then space else EmptyString)
           ++ word)%string in
      if Qlt_bool maxWidth (measureText f testLine) && nonEmpty currentLine
      then
        let lines' := lines ++ [currentLine] in
        if (2 <=? List.length lines')%nat then (lines', word)
        else wrapLoop f maxWidth rest lines' word
      else wrapLoop f maxWidth rest lines testLine
  end.

Definition wrapLines (f : Font) (maxWidth : Q) (visibleText : string)
  : list string :=
  let '(lines, currentLine) :=
    wrapLoop f maxWidth (split " " visibleText) [] EmptyString in
  if nonEmpty currentLine && (List.length lines <? 2)%nat
  then lines ++ [currentLine]
  else lines.

(** [lines.forEach((line, i) => ...)], entered at index [i]. *)
Fixpoint drawLines (n : Z) (y lineHeight : Q) (i : Z) (lines : list string)
    (ctx : Ctx) : Ctx :=
  match lines with
  | [] => ctx
  | line :: rest =>
      let lineY :=
        y - inject_Z (n - 1) * lineHeight / 2 + inject_Z i * lineHeight in
      ctx |> fillText line (width this / 2) lineY
          |> drawLines n y lineHeight (i + 1) rest
  end.

Definition sentenceText (caption : Caption) (currentTime : Q) : string :=
  let words := split " " (text caption) in
  let progress := captionProgress caption currentTime in
  let '(startWordIdx, endWordIdx) := sentenceWindow (lengthZ words) progress in
  join space (slice words startWordIdx endWordIdx).

Definition drawSentenceCaption (caption : Caption) (settings : CaptionSettings)
    (currentTime : Q) (ctx : Ctx) : Ctx :=
  let fontSize := getFontSize (fontSize settings) in
  let y := getYPosition (position settings) in
  let padding := 20 in
  let maxWidth := width this * 0.85 in
  let lineHeight := fontSize * 1.3 in
  let ctx := ctx |> setFont (boldFont fontSize settings)
                 |> setTextAlign "center"
                 |> setTextBaseline "middle" in
  let visibleText := sentenceText caption currentTime in
  let lines := wrapLines (font ctx) maxWidth visibleText in
  let bgHeight := inject_Z (lengthZ lines) * lineHeight + padding * 2 in
  ctx |> setFillStyle (backgroundColor settings)
      |> beginPath
      |> roundRect ((width this - maxWidth) / 2 - padding) (y - bgHeight / 2)
           (maxWidth + padding * 2) bgHeight 16
      |> fill
      |> setFillStyle (textColor settings)
      |> drawLines (lengthZ lines) y lineHeight 0 lines.

(** *** Minimal *)

Definition minimalWindow (len : Z) (progress : number) : number * number :=
  let endIdx := min (ofZ len) (add (ceil (mul progress (ofZ len))) (ofZ 3)) in
  let startIdx := max (ofZ 0) (sub endIdx (ofZ 6)) in
  (startIdx, endIdx).

Definition minimalText (caption : Caption) (currentTime : Q) : string :=
  let words := split " " (text caption) in
  let progress := captionProgress caption currentTime in
  let '(startIdx, endIdx) := minimalWindow (lengthZ words) progress in
  let text := join space (slice words startIdx endIdx) in
  String.substring 0 50 text.

Definition drawMinimalCaption (caption : Caption) (settings : CaptionSettings)
    (currentTime : Q) (ctx : Ctx) : Ctx :=
  let fontSize := getFontSize small in
  let y := height this - 80 in
  ctx |> setFont {| weight := "500"; sizePx := fontSize;
                    family := (fontFamily settings ++ ", system-ui")%string |}
      |> setTextAlign "center"
      |> setTextBaseline "middle"
      |> setFillStyle "rgba(255, 255, 255, 0.9)"
      |> setShadowColor "rgba(0, 0, 0, 0.8)"
      |> setShadowBlur 10
      |> fillText (minimalText caption currentTime) (width this / 2) y
      |> setShadowBlur 0.

(** *** Word by word *)

(** [currentTime >= w.start && currentTime < w.end] *)
Definition spoken (currentTime : Q) (w : WordTiming) : bool :=
  Qle_bool (w_start w) currentTime && Qlt_bool currentTime (w_end w).

(** [words[i] || ''] for a numeric [i]. *)
Definition wordAt (ws : list string) (i : number) : string :=
  match i with
  | Fin q =>
      if Qeq_bool q (inject_Z (Qfloor q)) then
        match item ws (Qfloor q) with
        | Some w => w
        | None => EmptyString
        end
      else EmptyString
  | _ => EmptyString
  end.

(** The index picked when the caption has no word timings. *)
Definition fallbackWordIdx (caption : Caption) (currentTime : Q) (len : Z)
  : number :=
  let progress := captionProgress caption currentTime in
  floor (mul progress (ofZ len)).

Definition currentWordOf (caption : Caption) (currentTime : Q) : string :=
  match words caption with
  | Some (w0 :: ws) =>
      match find (spoken currentTime) (w0 :: ws) with
      | Some w => toUpperCase (word w)
      | None => EmptyString
      end
  | _ =>
      let words := splitWhitespace (text caption) in
      let wordIdx := fallbackWordIdx caption currentTime (lengthZ words) in
      toUpperCase (wordAt words (min wordIdx (ofZ (lengthZ words - 1))))
  end.

Definition drawWordByWordCaption (caption : Caption)
    (settings : CaptionSettings) (currentTime : Q) (ctx : Ctx) : Ctx :=
  let fontSize := getFontSize (fontSize settings) * 2 in
  let y := getYPosition (position settings) in
  let ctx := ctx |> setFont (boldFont fontSize settings)
                 |> setTextAlign "center"
                 |> setTextBaseline "middle" in
  let currentWord := currentWordOf caption currentTime in
  if nonEmpty currentWord then
    ctx |> setFillStyle (textColor settings)
        |> setShadowColor "rgba(0, 0, 0, 0.9)"
        |> setShadowBlur 30
        |> setShadowOffsetY 5
        |> fillText currentWord (width this / 2) y
        |> setShadowBlur 0
  else ctx.

(** *** Karaoke *)

(** The upward loop: the first word being spoken, from index [i] on. *)
Fixpoint firstSpokenFrom (currentTime : Q) (i : Z) (ws : list WordTiming)
  : Z :=
  match ws with
  | [] => (-1)%Z
  | w :: rest =>
      if spoken currentTime w then i
      else firstSpokenFrom currentTime (i + 1) rest
  end.

(** The downward loop: [rws] holds [words[i]], [words[i-1]], ... *)
Fixpoint lastEndedFrom (currentTime : Q) (i : Z) (rws : list WordTiming)
  : Z :=
  match rws with
  | [] => (-1)%Z
  | w :: rest =>
      if Qle_bool (w_end w) currentTime then i
      else lastEndedFrom currentTime (i - 1) rest
  end.

Definition currentWordIdx (ws : list WordTiming) (currentTime : Q) : Z :=
  let idx := firstSpokenFrom currentTime 0 ws in
  if (idx =? -1)%Z
  then lastEndedFrom currentTime (lengthZ ws - 1) (rev ws)
  else idx.

Definition wordsPerLine : Z := 4.
Definition totalWordsToShow : Z := wordsPerLine * 2.

(** [startIdx] and [endIdx] of the visible words. *)
Definition karaokeWindow (len idx : Z) : Z * Z :=
  let startIdx := Z.max 0 (idx - wordsPerLine + 1) in
  let endIdx := Z.min len (startIdx + totalWordsToShow) in
  if (endIdx =? len)%Z && (endIdx - startIdx <? totalWordsToShow)%Z
  then (Z.max 0 (endIdx - totalWordsToShow), endIdx)
  else (startIdx, endIdx).

(** [Math.ceil(n / 2)] *)
Definition halfUp (n : Z) : Z := Qceiling (inject_Z n / 2).

Inductive WordStyle := CurrentWord | PastWord | FutureWord.

Definition styleOf (globalIdx idx : Z) : WordStyle :=
  if (globalIdx =? idx)%Z then CurrentWord
  else if (globalIdx <? idx)%Z then PastWord
  else FutureWord.

(** The body of [words.forEach] in [drawWordLine], entered at index [i]
    with the pen at [x]. *)
Fixpoint drawWordsFrom (y : Q) (idx lineStartIdx : Z)
    (settings : CaptionSettings) (fontSize : Q) (i : Z) (x : Q)
    (ws : list WordTiming) (ctx : Ctx) : Ctx :=
  match ws with
  | [] => ctx
  | w :: rest =>
      let globalIdx := (lineStartIdx + i)%Z in
      let wordText := word w in
      let wordWidth := measureText (font ctx) wordText in
      let ctx :=
        match styleOf globalIdx idx with
        | CurrentWord =>
            ctx |> setFillStyle "#FFD700"
                |> setShadowColor "#FFD700"
                |> setShadowBlur 15
                |> setFont (boldFont (fontSize * 1.1) settings)
        | PastWord =>
            ctx |> setFillStyle (textColor settings)
                |> setShadowBlur 0
                |> setFont (boldFont fontSize settings)
        | FutureWord =>
            ctx |> setFillStyle "rgba(255, 255, 255, 0.5)"
                |> setShadowBlur 0
                |> setFont (boldFont fontSize settings)
        end in
      let ctx := ctx |> fillText wordText (x + wordWidth / 2) y
                     |> setShadowBlur 0
                     |> setFont (boldFont fontSize settings) in
      let x := x + measureText (font ctx) (wordText ++ space)%string in
      drawWordsFrom y idx lineStartIdx settings fontSize (i + 1) x rest ctx
  end.

Definition drawWordLine (ws : list WordTiming) (y : Q)
    (idx lineStartIdx : Z) (settings : CaptionSettings) (fontSize : Q)
    (ctx : Ctx) : Ctx :=
  let lineText := join space (map word ws) in
  let textWidth := measureText (font ctx) lineText in
  let x := width this / 2 - textWidth / 2 in
  drawWordsFrom y idx lineStartIdx settings fontSize 0 x ws ctx.

Definition drawKaraokeCaption (caption : Caption)
    (settings : CaptionSettings) (currentTime : Q) (ctx : Ctx) : Ctx :=
  let fontSize := getFontSize (fontSize settings) in
  let y := getYPosition (position settings) in
  let padding := 20 in
  let lineHeight := fontSize * 1.3 in
  let maxWidth := width this * 0.85 in
  let ctx := ctx |> setFont (boldFont fontSize settings)
                 |> setTextAlign "center"
                 |> setTextBaseline "middle" in
  match words caption with
  | Some (w0 :: ws') =>
      let words := w0 :: ws' in
      let idx := currentWordIdx words currentTime in
      let '(startIdx, endIdx) := karaokeWindow (lengthZ words) idx in
      let visibleWords := sliceZ words startIdx endIdx in
      let half := halfUp (lengthZ visibleWords) in
      let line1Words := sliceZ visibleWords 0 half in
      let line2Words := slice visibleWords (ofZ half) PInf in
      let bgHeight := lineHeight * 2 + padding * 2 in
      let ctx :=
        ctx |> setFillStyle (backgroundColor settings)
            |> beginPath
            |> roundRect (width this / 2 - maxWidth / 2 - padding)
                 (y - bgHeight / 2) (maxWidth + padding * 2) bgHeight 16
            |> fill
            |> drawWordLine line1Words (y - lineHeight / 2) idx startIdx
                 settings fontSize in
      if (0 <? lengthZ line2Words)%Z then
        ctx |> drawWordLine line2Words (y + lineHeight / 2) idx
                 (startIdx + lengthZ line1Words) settings fontSize
      else ctx
  | _ => drawSentenceCaption caption settings currentTime ctx
  end.

(** *** drawFrame *)

(** [currentTime >= c.startTime && currentTime < c.endTime] *)
Definition shownAt (currentTime : Q) (c : Caption) : bool :=
  Qle_bool (startTime c) currentTime && Qlt_bool currentTime (endTime c).

Definition drawCaption (caption : Caption) (settings : CaptionSettings)
    (currentTime : Q) (ctx : Ctx) : Ctx :=
  match template settings with
  | karaoke => drawKaraokeCaption caption settings currentTime ctx
  | word_by_word => drawWordByWordCaption caption settings currentTime ctx
  | sentence => drawSentenceCaption caption settings currentTime ctx
  | minimal => drawMinimalCaption caption settings currentTime ctx
  end.

Inductive Error :=
| TypeError (what : string)
| DOMException (name : string)      (* thrown or rejected by the host *)
| JsError (message : string).

(** [drawFrame]; reading the size of an [undefined] image throws after
    the background is painted. *)
Definition drawFrame (image : option Image) (captions : list Caption)
    (settings : CaptionSettings) (currentTime : Q) (ctx : Ctx)
  : Ctx * option Error :=
  let ctx := ctx |> setFillStyle "#000000"
                 |> fillRect 0 0 (width this) (height this) in
  match image with
  | None => (ctx, Some (TypeError "image is undefined"))
  | Some img =>
      let ctx := ctx |> drawImageCover img in
      match find (shownAt currentTime) captions with
      | None => (ctx, None)
      | Some caption =>
          (drawCaption caption settings currentTime ctx, None)
      end
  end.

End Drawing.

(** ** composeVideo *)

(** The messages handed to [onProgress]. *)
Inductive Message :=
| LoadingImages
| LoadingImage (i n : Z)
| PreparingAudio
| SettingUpRecording
| RecordingVideo
| Recording (percent : number)
| FinalizingVideo
| VideoReady
| ErrorMessage (e : Error).

Inductive Effect :=
| OnProgress (m : Message)
| CreateObjectURL
| RecorderStart
| AudioPlay
| AudioPause
| RecorderStop
| AudioContextClose
| RevokeObjectURL
| ConsoleError (e : Error).

(** The host calls of the recording set-up that can throw, or reject. *)
Inductive HostStep :=
| captureStream
| newAudioContext
| createMediaElementSource
| newMediaRecorder
| recorderStart
| audioPlay.

(** The host: how image loads end, what [Date.now()] returns call after
    call (milliseconds, whole numbers that doubles hold), whether
    [getContext('2d')] hands out a context, which calls of the set-up throw
    and what, and the sizes of the chunks that the recorder hands over
    until it has stopped. The audio element is taken to report its
    metadata or an error, and onProgress not to throw. *)
Record Env := {
  loadImage : string -> option Image;
  clock : list Z;
  canvasContext : bool;
  throws : HostStep -> option Error;
  dataAvailable : list Z
}.

(** The artifact: the chunks of the recorder that were kept, by size. *)
Record VideoBlob := {
  mime : string;
  chunks : list Z
}.

Inductive Outcome :=
| Returned (blob : option VideoBlob)   (* the promise resolves *)
| Rejected (e : Error)                 (* thrown before the [try] *)
| NeverSettles                         (* a later tick threw: nothing resolves it *)
| Pending.                             (* still recording when [clock] ends *)

(** What the set-up does, in source order: a message, or a host call with
    the effects it has once it returns. *)
Inductive SetUpItem :=
| Tell (m : Message)
| Call (s : HostStep) (done : list Effect).

Definition recordingSetUp : list SetUpItem :=
  [Tell SettingUpRecording;
   Call captureStream []; Call newAudioContext [];
   Call createMediaElementSource []; Call newMediaRecorder [];
   Tell RecordingVideo;
   Call recorderStart [RecorderStart]; Call audioPlay [AudioPlay]].

(** The set-up up to the first call that throws: the effects so far and
    what was thrown. *)
Fixpoint setUp (env : Env) (items : list SetUpItem)
  : list Effect * option Error :=
  match items with
  | [] => ([], None)
  | Tell m :: rest =>
      let '(effects, thrown) := setUp env rest in
      (OnProgress m :: effects, thrown)
  | Call s done :: rest =>
      match throws env s with
      | Some e => ([], Some e)
      | None =>
          let '(effects, thrown) := setUp env rest in
          (done ++ effects, thrown)
      end
  end.

Definition createPlaceholder (this : VideoComposer) (sceneNum : Z) : Image :=
  {| content := Placeholder sceneNum;
     img_width := width this; img_height := height this |}.

(** The image loading loop, entered at index [i]; [n] is [scenes.length]. *)
Fixpoint loadImages (env : Env) (this : VideoComposer) (n i : Z)
    (scenes : list Scene) : list Image * list Effect :=
  match scenes with
  | [] => ([], [])
  | scene :: rest =>
      let '(img, eff) :=
        match imageUrl scene with
        | Some url =>
            if nonEmpty url then
              (match loadImage env url with
               | Some img => img
               | None => createPlaceholder this (i + 1)
               end, [OnProgress (LoadingImage (i + 1) n)])
            else (createPlaceholder this (i + 1), [])
        | None => (createPlaceholder this (i + 1), [])
        end in
      let '(imgs, effs) := loadImages env this n (i + 1) rest in
      (img :: imgs, eff ++ effs)
  end.

(** [(Date.now() - startTime) / 1000] *)
Definition elapsedAt (startTime now : Z) : Q :=
  round64 (round64 (inject_Z (now - startTime)) / 1000).

(** [Math.floor(Math.min(elapsed / totalDuration, 1) * 100)] *)
Definition progressPercent (elapsed total : Q) : number :=
  let progress := min (fdiv (Fin elapsed) (Fin total)) (Fin 1) in
  floor (fmul progress (Fin 100)).

(** The throttle on progress messages: the new [lastProgress] and the
    message, if one is sent. *)
Definition reportProgress (lastProgress percent : number)
  : number * list Effect :=
  if gt percent (add lastProgress (Fin 4))
  then (percent, [OnProgress (Recording percent)])
  else (lastProgress, []).

Inductive LoopEnd :=
| Stopped                       (* [mediaRecorder.stop()] was called *)
| Threw (tick : nat) (e : Error)
| ClockEnded.

Record LoopState := {
  l_ctx : Ctx;
  l_effects : list Effect;
  l_end : LoopEnd
}.

Section Compose.

Variable measureText : Font -> string -> Q.

(** [animate], rescheduled until [elapsed >= totalDuration]; one
    reading of [clock] per tick, [tick] counts the ticks done. *)
Fixpoint animate (this : VideoComposer) (timings : list SceneTiming)
    (total : Q) (captions : list Caption) (settings : CaptionSettings)
    (startTime : Z) (clock : list Z) (tick : nat) (lastProgress : number)
    (ctx : Ctx) : LoopState :=
  match clock with
  | [] => {| l_ctx := ctx; l_effects := []; l_end := ClockEnded |}
  | now :: later =>
      let elapsed := elapsedAt startTime now in
      let '(lastProgress, sent) :=
        reportProgress lastProgress (progressPercent elapsed total) in
      match currentScene timings elapsed with
      | None =>
          {| l_ctx := ctx; l_effects := sent;
             l_end := Threw tick (TypeError "currentScene is undefined") |}
      | Some scene =>
          match drawFrame measureText this (image scene) captions settings
                  elapsed ctx with
          | (ctx, Some e) =>
              {| l_ctx := ctx; l_effects := sent; l_end := Threw tick e |}
          | (ctx, None) =>
              if Qlt_bool elapsed total then
                let r := animate this timings total captions settings
                           startTime later (S tick) lastProgress ctx in
                {| l_ctx := l_ctx r; l_effects := sent ++ l_effects r;
                   l_end := l_end r |}
              else
                {| l_ctx := ctx;
                   l_effects := sent ++ [AudioPause; RecorderStop];
                   l_end := Stopped |}
          end
      end
  end.

(** The recording loop as composeVideo enters it once the set-up is
    through: the first reading of [clock] is [startTime]. *)
Definition recordingLoop (env : Env) (scenes : list Scene)
    (captions : list Caption) (captionSettings : CaptionSettings)
    (a : AspectRatio) : LoopState :=
  let this := load a in
  let images := fst (loadImages env this (lengthZ scenes) 0 scenes) in
  match clock env with
  | [] => {| l_ctx := freshCtx; l_effects := []; l_end := ClockEnded |}
  | startTime :: readings =>
      animate this (sceneTimings images scenes) (totalDuration scenes)
        captions captionSettings startTime readings 0 (Fin 0) freshCtx
  end.

Definition composeVideo (env : Env) (scenes : list Scene)
    (captions : list Caption) (captionSettings : CaptionSettings)
    (a : AspectRatio) : Outcome * list Effect :=
  if negb (canvasContext env)
  then (Rejected (JsError "Canvas not initialized"), [])
  else
    let this := load a in
    let loading := snd (loadImages env this (lengthZ scenes) 0 scenes) in
    let '(setup, thrown) := setUp env recordingSetUp in
    let before :=
      [OnProgress LoadingImages] ++ loading
        ++ [OnProgress PreparingAudio; CreateObjectURL] ++ setup in
    match thrown with
    | Some e =>
        (Returned None,
         before ++ [ConsoleError e; OnProgress (ErrorMessage e)])
    | None =>
        let r := recordingLoop env scenes captions captionSettings a in
        match l_end r with
        | Stopped =>
            (Returned (Some {| mime := "video/webm";
                               chunks := filter (Z.ltb 0)
                                           (dataAvailable env) |}),
             before ++ l_effects r
               ++ [OnProgress FinalizingVideo; AudioContextClose;
                   RevokeObjectURL; OnProgress VideoReady])
        | Threw O e =>
            (* thrown inside the promise executor: caught by [catch] *)
            (Returned None,
             before ++ l_effects r
               ++ [ConsoleError e; OnProgress (ErrorMessage e)])
        | Threw (S _) e => (NeverSettles, before ++ l_effects r)
        | ClockEnded => (Pending, before ++ l_effects r)
        end
    end.

End Compose.

(** The percentages carried by the [Recording] messages, in order. *)
Definition recordingPercents (l : list Effect) : list number :=
  flat_map (fun e => match e with
                     | OnProgress (Recording p) => [p]
                     | _ => []
                     end) l.

(** ** Captions built by the editor ([pages/VideoEditor.tsx]) *)

(** The [while] loop of [createCaptionsFromTranscription]: [ws] holds the
    words from [wordIndex] on; it returns [sceneWords], [captionText] and
    the words left. *)
Fixpoint collectWords (sceneEndTime : Q) (ws : list WordTiming)
    (sceneWords : list WordTiming) (captionText : string)
  : list WordTiming * string * list WordTiming :=
  match ws with
  | [] => (sceneWords, captionText, [])
  | w :: rest =>
      if Qlt_bool (w_start w) sceneEndTime then
        collectWords sceneEndTime rest (sceneWords ++ [w])
          (captionText ++ (if nonEmpty captionText then space else EmptyString)
             ++ word w)%string
      else (sceneWords, captionText, ws)
  end.

(** The loop over the scenes, entered at scene [i] with [sceneStartTime];
    a caption comes with the number [i] of its id. *)
Fixpoint captionsFrom (i : Z) (sceneStartTime : Q) (ws : list WordTiming)
    (scenes : list Scene) : list (Z * Caption) :=
  match scenes with
  | [] => []
  | scene :: rest =>
      let sceneEndTime := sceneStartTime + duration scene in
      let '(sceneWords, captionText, remaining) :=
        collectWords sceneEndTime ws [] EmptyString in
      let later := captionsFrom (i + 1) sceneEndTime remaining rest in
      match sceneWords with
      | [] => later
      | _ :: _ =>
          (i, {| startTime := sceneStartTime; endTime := sceneEndTime;
                 text := captionText; words := Some sceneWords |}) :: later
      end
  end.

Definition createCaptionsFromTranscription (ws : list WordTiming)
    (scenes : list Scene) : list (Z * Caption) :=
  captionsFrom 0 0 ws scenes.

(** [words.map((word, wi) => ...)] of the fallback, entered at index [wi]. *)
Fixpoint wordTimingsFrom (currentTime wordDuration : Q) (wi : Z)
    (ws : list string) : list WordTiming :=
  match ws with
  | [] => []
  | w :: rest =>
      {| word := w;
         w_start := round64 (currentTime + round64 (inject_Z wi * wordDuration));
         w_end :=
           round64 (currentTime + round64 (inject_Z (wi + 1) * wordDuration)) |}
      :: wordTimingsFrom currentTime wordDuration (wi + 1) rest
  end.

(** [text.split(/\s+/).filter(Boolean)] *)
Definition spokenWords (s : string) : list string :=
  filter nonEmpty (splitWhitespace s).

(** The fallback of the pipeline: captions from the scene texts. The
    quotient [wordDuration] is read only when there is a word. *)
Fixpoint fallbackCaptionsFrom (i : Z) (currentTime : Q) (scenes : list Scene)
  : list (Z * Caption) :=
  match scenes with
  | [] => []
  | scene :: rest =>
      let ws := spokenWords (scene_text scene) in
      let wordDuration := round64 (duration scene / inject_Z (lengthZ ws)) in
      let wordTimings := wordTimingsFrom currentTime wordDuration 0 ws in
      (i, {| startTime := currentTime;
             endTime := currentTime + duration scene;
             text := scene_text scene;
             words := Some wordTimings |})
      :: fallbackCaptionsFrom (i + 1) (currentTime + duration scene) rest
  end.

Definition fallbackCaptions (scenes : list Scene) : list (Z * Caption) :=
  fallbackCaptionsFrom 0 0 scenes.

(** ** Image sizes and transcription ([services/CloudflareService.ts]) *)

(** The literal of an aspect ratio. *)
Definition ratioName (a : AspectRatio) : string :=
  match a with
  | ar_16_9 => "16:9"
  | ar_9_16 => "9:16"
  | ar_1_1 => "1:1"
  end.

Definition getImageDimensions (aspectRatio : string) : Dims :=
  if String.eqb aspectRatio "16:9" then {| d_width := 1024; d_height := 576 |}
  else if String.eqb aspectRatio "9:16" then {| d_width := 576; d_height := 1024 |}
  else if String.eqb aspectRatio "1:1" then {| d_width := 1024; d_height := 1024 |}
  else {| d_width := 576; d_height := 1024 |}.

(** What Whisper answers, as far as [parseWhisperResult] reads it; a field
    that is absent is [None]. *)
Record RawWord := {
  rw_word : option string;
  rw_text : option string;
  rw_start : option Q;
  rw_end : option Q
}.

Record WhisperResult := {
  r_text : option string;
  r_words : option (list RawWord);
  r_duration : option Q
}.

Record TranscriptionResult := {
  t_text : string;
  t_words : list WordTiming;
  t_duration : Q
}.

(** [a || b] on strings and on numbers: the empty string and 0 are falsy. *)
Definition orString (a : option string) (b : string) : string :=
  match a with
  | Some s => if nonEmpty s then s else b
  | None => b
  end.

Definition orNumber (a : option Q) (b : Q) : Q :=
  match a with
  | Some q => if Qeq_bool q 0 then b else q
  | None => b
  end.

(** The loop that spreads the words evenly, entered at [time]. *)
Fixpoint spreadWords (avgDuration time : Q) (ws : list string)
  : list WordTiming :=
  match ws with
  | [] => []
  | w :: rest =>
      {| word := w; w_start := time; w_end := round64 (time + avgDuration) |}
      :: spreadWords avgDuration (round64 (time + avgDuration)) rest
  end.

Definition parseWhisperResult (result : WhisperResult) : TranscriptionResult :=
  let text := orString (r_text result) EmptyString in
  let ws :=
    match r_words result with
    | Some raw =>
        map (fun w =>
               {| word := orString (rw_word w)
                            (orString (rw_text w) EmptyString);
                  w_start := orNumber (rw_start w) 0;
                  w_end := orNumber (rw_end w) 0 |}) raw
    | None =>
        let wordsArray := spokenWords text in
        let totalDuration := orNumber (r_duration result) 10 in
        let avgDuration :=
          round64 (totalDuration / inject_Z (Z.max (lengthZ wordsArray) 1)) in
        spreadWords avgDuration 0 wordsArray
    end in
  {| t_text := text;
     t_words := ws;
     t_duration :=
       orNumber (r_duration result)
         (if (0 <? lengthZ ws)%Z
          then match item ws (lengthZ ws - 1) with
               | Some w => w_end w
               | None => 0
               end
          else 0) |}.

(** ** Scene durations ([services/GeminiService.ts]) *)

(** [Math.max(10, Math.ceil((text.split(/\s+/).length / 150) * 60))], the
    duration both [parseScriptToScenes] and [analyzeScript] give a scene. *)
Definition estimateDuration (narration : string) : Z :=
  let wordCount := lengthZ (splitWhitespace narration) in
  Z.max 10 (Qceiling (round64 (round64 (inject_Z wordCount / 150) * 60))).

(** A scene as the model answers it in [analyzeScript]. *)
Record AnalyzedScene := {
  sceneNumber : Z;
  visualDescription : string;
  narration : string
}.

(** [result.scenes.map((scene, index) => ...)] of [analyzeScript]. *)
Definition analyzedScenes (raw : list AnalyzedScene) : list Scene :=
  map (fun scene =>
         {| scene_text := narration scene;
            imagePrompt := visualDescription scene;
            duration := inject_Z (estimateDuration (narration scene));
            imageUrl := None |}) raw.

(** ** Chunks of text to speak ([services/TTSService.ts]) *)

Definition isTerminator (c : ascii) : bool :=
  Ascii.eqb c "." || Ascii.eqb c "!" || Ascii.eqb c "?".

Definition charString (c : ascii) : string := String c EmptyString.

(** [text.match(/[^.!?]+[.!?]+/g)], read from left to right: [body] holds
    the characters other than marks of the sentence being read and [marks]
    the marks that follow them. Marks before any body start no sentence,
    and a body that no mark ends is not matched. *)
Fixpoint sentencesFrom (body marks : string) (s : string) : list string :=
  match s with
  | EmptyString => if nonEmpty marks then [(body ++ marks)%string] else []
  | String c rest =>
      if isTerminator c then
        if nonEmpty body
        then sentencesFrom body (marks ++ charString c)%string rest
        else sentencesFrom body marks rest
      else
        if nonEmpty marks
        then (body ++ marks)%string
             :: sentencesFrom (charString c) EmptyString rest
        else sentencesFrom (body ++ charString c)%string EmptyString rest
  end.

Definition matchSentences (text : string) : list string :=
  sentencesFrom EmptyString EmptyString text.

Fixpoint trimStart (s : string) : string :=
  match s with
  | EmptyString => EmptyString
  | String c rest => if isSpace c then trimStart rest else s
  end.

Fixpoint trimEnd (s : string) : string :=
  match s with
  | EmptyString => EmptyString
  | String c rest =>
      match trimEnd rest with
      | EmptyString => if isSpace c then EmptyString else charString c
      | kept => String c kept
      end
  end.

(** [s.trim()] *)
Definition trim (s : string) : string := trimEnd (trimStart s).

Definition maxChunkLength : nat := 4000.

(** The loop of [splitText] over the sentences. *)
Fixpoint chunkLoop (sentences : list string) (chunks : list string)
    (currentChunk : string) : list string * string :=
  match sentences with
  | [] => (chunks, currentChunk)
  | sentence_ :: rest =>
      if (maxChunkLength <? String.length (currentChunk ++ sentence_))%nat then
        chunkLoop rest
          (if nonEmpty currentChunk then chunks ++ [trim currentChunk]
           else chunks)
          sentence_
      else chunkLoop rest chunks (currentChunk ++ sentence_)%string
  end.

Definition splitText (text : string) : list string :=
  let sentences :=
    match matchSentences text with
    | [] => [text]
    | found => found
    end in
  let '(chunks, currentChunk) := chunkLoop sentences [] EmptyString in
  let chunks :=
    if nonEmpty (trim currentChunk) then chunks ++ [trim currentChunk]
    else chunks in
  match chunks with
  | [] => [text]
  | _ => chunks
  end.

(** ** Notions used by the statements *)

(** [q] is a double: rounding leaves it as it is. *)
Definition isDouble (q : Q) : Prop := round64 q == q.

(** Every character of [s] is an ASCII character. *)
Fixpoint isAscii (s : string) : bool :=
  match s with
  | EmptyString => true
  | String c rest => (nat_of_ascii c <? 128)%nat && isAscii rest
  end.

Definition intervalLength (s : SceneTiming) : Q := end_ s - start s.

Definition Qsum (l : list Q) : Q := fold_right Qplus 0 l.

(** [t] lies in the interval of [s]. *)
Definition within (t : Q) (s : SceneTiming) : Prop :=
  start s <= t /\ t < end_ s.

(** The elements of [l] with their indices, counted from [i]. *)
Fixpoint indexed {A : Type} (i : Z) (l : list A) : list (Z * A) :=
  match l with
  | [] => []
  | x :: rest => (i, x) :: indexed (i + 1) rest
  end.

(** What is seen of a drawn text: the text, its colour, its font size. *)
Definition drawnTexts (l : list DrawOp) : list (string * string * Q) :=
  flat_map (fun op => match op with
                      | FillText txt _ _ style f _ _ _ => [(txt, style, sizePx f)]
                      | _ => []
                      end) l.

(** How karaoke shows the word of index [g] when the current word is [idx]:
    enlarged and gold, in the foreground colour, or dimmed. *)
Definition karaokeLook (settings : CaptionSettings) (fontSize : Q) (idx : Z)
    (gw : Z * WordTiming) : string * string * Q :=
  let '(g, w) := gw in
  if (g =? idx)%Z then (word w, "#FFD700"%string, fontSize * 1.1)
  else if (g <? idx)%Z then (word w, textColor settings, fontSize)
  else (word w, "rgba(255, 255, 255, 0.5)"%string, fontSize).

(** Greedy wrapping with no limit on the number of lines: the loop of
    [drawSentenceCaption] without its early exit, and the lines it ends
    with. *)
Fixpoint greedyLoop (measureText : Font -> string -> Q) (f : Font)
    (maxWidth : Q) (ws : list string) (lines : list string)
    (currentLine : string) : list string :=
  match ws with
  | [] => if nonEmpty currentLine then lines ++ [currentLine] else lines
  | word :: rest =>
      let testLine :=
        (currentLine ++ (if nonEmpty currentLine then space else EmptyString)
           ++ word)%string in
      if Qlt_bool maxWidth (measureText f testLine) && nonEmpty currentLine
      then greedyLoop measureText f maxWidth rest (lines ++ [currentLine]) word
      else greedyLoop measureText f maxWidth rest lines testLine
  end.

Definition greedyWrap (measureText : Font -> string -> Q) (f : Font)
    (maxWidth : Q) (visibleText : string) : list string :=
  greedyLoop measureText f maxWidth (split " " visibleText) [] EmptyString.

(** The percentages [ps] climb from [last] in steps of at least [gap] and
    stay integers up to 100. *)
Fixpoint spaced (gap last : Z) (ps : list number) : Prop :=
  match ps with
  | [] => True
  | p :: rest =>
      exists z, p = ofZ z /\ (last + gap <= z)%Z /\ (z <= 100)%Z
                /\ spaced gap z rest
  end.

(** The effects of composeVideo up to the first tick. *)
Definition effectsBeforeRecording (loading : list Effect) : list Effect :=
  [OnProgress LoadingImages] ++ loading
    ++ [OnProgress PreparingAudio; CreateObjectURL;
        OnProgress SettingUpRecording; OnProgress RecordingVideo;
        RecorderStart; AudioPlay].

(** The images drawn, in order: one per frame. *)
Definition imagesDrawn (l : list DrawOp) : list Image :=
  flat_map (fun op => match op with
                      | DrawImage img _ _ _ _ => [img]
                      | _ => []
                      end) l.

(** A call that belongs to a caption: anything but painting the background
    or the image. *)
Definition isOverlay (op : DrawOp) : bool :=
  match op with
  | FillRect _ _ _ _ _ | DrawImage _ _ _ _ _ => false
  | _ => true
  end.

(** A drawing step that only adds overlay calls to the log. *)
Definition addsOverlay (before after : Ctx) : Prop :=
  exists more, ops after = ops before ++ more
               /\ Forall (fun op => isOverlay op = true) more.

(** The rounded rectangles drawn: left, top, width, height. *)
Definition backdrops (l : list DrawOp) : list (Q * Q * Q * Q) :=
  flat_map (fun op => match op with
                      | RoundRect x y w h _ => [(x, y, w, h)]
                      | _ => []
                      end) l.

(** The texts drawn with the height they are drawn at. *)
Definition drawnLines (l : list DrawOp) : list (string * Q) :=
  flat_map (fun op => match op with
                      | FillText txt _ y _ _ _ _ _ => [(txt, y)]
                      | _ => []
                      end) l.

(** The rectangle [x, y, w, h] lies within a surface of [W] by [H]. *)
Definition insideCanvas (W H : Q) (r : Q * Q * Q * Q) : Prop :=
  let '(x, y, w, h) := r in
  0 <= x /\ x + w <= W /\ 0 <= y /\ y + h <= H.

(** The clock readings up to the first one at which the loop stops, that
    one included; [None] when none stops it. *)
Fixpoint ticksUntilDone (total : Q) (startTime : Z) (readings : list Z)
  : option (list Z) :=
  match readings with
  | [] => None
  | now :: later =>
      if Qlt_bool (elapsedAt startTime now) total
      then option_map (cons now) (ticksUntilDone total startTime later)
      else Some [now]
  end.

(** The effects of composeVideo once the recorder has stopped. *)
Definition effectsAfterRecording : list Effect :=
  [OnProgress FinalizingVideo; AudioContextClose; RevokeObjectURL;
   OnProgress VideoReady].

Definition isRecordingMessage (e : Effect) : bool :=
  match e with
  | OnProgress (Recording _) => true
  | _ => false
  end.

(** The image of the scene that is current at [elapsed]. *)
Definition sceneImageAt (timings : list SceneTiming) (elapsed : Q)
  : option Image :=
  match currentScene timings elapsed with
  | Some s => image s
  | None => None
  end.

(** A karaoke word already spoken, and one still to come. *)
Definition pastLook (settings : CaptionSettings) (fs : Q) (w : WordTiming)
  : string * string * Q :=
  (word w, textColor settings, fs).

Definition dimLook (fs : Q) (w : WordTiming) : string * string * Q :=
  (word w, "rgba(255, 255, 255, 0.5)"%string, fs).

(** The karaoke word being spoken. *)
Definition goldLook (fs : Q) (w : WordTiming) : string * string * Q :=
  (word w, "#FFD700"%string, fs * 1.1).

(** The word timings of a caption, none when it has no list. *)
Definition captionWords (c : Caption) : list WordTiming :=
  match words c with
  | Some l => l
  | None => []
  end.

(** The text of a caption and its words are ASCII. *)
Definition asciiCaption (c : Caption) : Prop :=
  isAscii (text c) = true
  /\ Forall (fun w => isAscii (word w) = true) (captionWords c).

(** Earlier words do not start later. *)
Definition startsAscend (ws : list WordTiming) : Prop :=
  StronglySorted (fun a b => w_start a <= w_start b) ws.

(** Each word starts where the one before it ends. *)
Definition chained (ws : list WordTiming) : Prop :=
  forall j a b,
    nth_error ws j = Some a -> nth_error ws (S j) = Some b ->
    w_start b = w_end a.

(** A caption numbered [i + k] spans the interval of scene [k] of the
    timeline entered at [c], and holds at least one word, every word
    starting before the span ends. *)
Definition captionOfScene (images : list Image) (i : Z) (j : nat) (c : Q) (scenes : list Scene)
    (ic : Z * Caption) : Prop :=
  exists k s l,
    fst ic = (i + Z.of_nat k)%Z
    /\ nth_error (sceneTimingsFrom images j c scenes) k = Some s
    /\ startTime (snd ic) = start s /\ endTime (snd ic) = end_ s
    /\ words (snd ic) = Some l /\ l <> []
    /\ Forall (fun w => w_start w < endTime (snd ic)) l.

(** The strings of [g] one after the other. *)
Definition glue (g : list string) : string :=
  fold_right String.append EmptyString g.

(** A group of sentences that makes one chunk: within the limit, or one
    sentence alone. *)
Definition fitsChunk (g : list string) : Prop :=
  g <> [] /\ ((String.length (glue g) <= maxChunkLength)%nat
              \/ exists s, g = [s]).

(** Some character of [s] is not white space. *)
Fixpoint hasInk (s : string) : bool :=
  match s with
  | EmptyString => false
  | String c rest => negb (isSpace c) || hasInk rest
  end.

(** ** Sample inputs *)

(** A host where no image loads and the set-up goes through, with the
    clock readings [readings]; the recorder hands over two chunks, one of
    them empty. *)
Definition hostWith (readings : list Z) : Env :=
  {| loadImage := fun _ => None; clock := readings; canvasContext := true;
     throws := fun _ => None; dataAvailable := [4096; 0]%Z |}.

(** A host without support for the recorder's format. *)
Definition hostWithoutRecorder (readings : list Z) : Env :=
  {| loadImage := fun _ => None; clock := readings; canvasContext := true;
     throws := fun s => match s with
                        | newMediaRecorder =>
                            Some (DOMException "NotSupportedError")
                        | _ => None
                        end;
     dataAvailable := [] |}.

Definition withTemplate (tpl : CaptionTemplate) (s : CaptionSettings)
  : CaptionSettings :=
  {| template := tpl; position := position s; fontSize := fontSize s;
     fontFamily := fontFamily s; textColor := textColor s;
     backgroundColor := backgroundColor s |}.

(** A text measure for the samples: ten pixels a character. *)
Definition tenPerChar (f : Font) (s : string) : Q :=
  inject_Z (Z.of_nat (String.length s)) * 10.

(** Hello [0, 0.5), world [0.5, 1.2). *)
Definition helloWorld : Caption :=
  {| startTime := 0; endTime := 1.2; text := "Hello world";
     words := Some [ {| word := "Hello"; w_start := 0; w_end := 0.5 |};
                     {| word := "world"; w_start := 0.5; w_end := 1.2 |} ] |}.

(** Hello [0, 0.5), a silence, world [1, 2). *)
Definition helloGapWorld : Caption :=
  {| startTime := 0; endTime := 2; text := "Hello world";
     words := Some [ {| word := "Hello"; w_start := 0; w_end := 0.5 |};
                     {| word := "world"; w_start := 1; w_end := 2 |} ] |}.

(** The same text without word timings. *)
Definition helloPlain : Caption :=
  {| startTime := 0; endTime := 2; text := "Hello world"; words := None |}.

Definition sceneOf (d : Q) : Scene :=
  {| scene_text := "narration"; imagePrompt := "prompt"; duration := d;
     imageUrl := None |}.

(** Three scenes of ten seconds. *)
Definition threeScenes : list Scene := [sceneOf 10; sceneOf 10; sceneOf 10].

(** A loaded image of 1000 by 1000 pixels. *)
Definition squareImage : Image :=
  {| content := Loaded "blob:scene"; img_width := 1000; img_height := 1000 |}.

(** Two words as a transcription gives them. *)
Definition helloWords : list WordTiming :=
  [ {| word := "Hello"; w_start := 0; w_end := 0.5 |};
    {| word := "world"; w_start := 0.5; w_end := 1.2 |} ].

(** Two narrated scenes of ten seconds. *)
Definition narratedScenes : list Scene :=
  [ {| scene_text := "Hello world"; imagePrompt := "a globe";
       duration := 10; imageUrl := None |};
    {| scene_text := "Good bye now"; imagePrompt := "a door";
       duration := 10; imageUrl := None |} ].

Definition goodByeScene : Scene :=
  {| scene_text := "Good bye now"; imagePrompt := "a door";
     duration := 10; imageUrl := None |}.

(** The fallback caption of the second of them. *)
Definition goodBye : Z * Caption :=
  (1%Z,
   {| startTime := 0 + 10; endTime := 0 + 10 + 10; text := "Good bye now";
      words :=
        Some (wordTimingsFrom (0 + 10)
                (round64 (10 / inject_Z (lengthZ (spokenWords "Good bye now"))))
                0 (spokenWords "Good bye now")) |}).

(** An answer of Whisper without a word list. *)
Definition plainAnswer : WhisperResult :=
  {| r_text := Some "Hello world"%string; r_words := None;
     r_duration := Some 2 |}.

Definition analyzedHello : AnalyzedScene :=
  {| sceneNumber := 1; visualDescription := "a globe";
     narration := "Hello world" |}.

(** * Properties *)

(** ** Rationals and numbers *)

Lemma Qlt_bool_iff (x y : Q) : Qlt_bool x y = true <-> x < y.
Proof.
  unfold Qlt_bool. rewrite negb_true_iff.
  split; intro H.
  - apply Qnot_le_lt. intro Hle. apply Qle_bool_iff in Hle. congruence.
  - destruct (Qle_bool y x) eqn:E; [|reflexivity].
    apply Qle_bool_iff in E. exfalso. apply (Qlt_not_le _ _ H E).
Qed.

Lemma Qlt_bool_false (x y : Q) : Qlt_bool x y = false <-> y <= x.
Proof.
  unfold Qlt_bool. rewrite negb_false_iff. apply Qle_bool_iff.
Qed.

Lemma Qle_bool_false (x y : Q) : Qle_bool x y = false <-> y < x.
Proof.
  rewrite <- Qlt_bool_iff. unfold Qlt_bool.
  destruct (Qle_bool x y); simpl; split; congruence.
Qed.

Lemma div_pos (a b : Q) : 0 < b -> div (Fin a) (Fin b) = Fin (a / b).
Proof.
  intro H. assert (E : (0 ?= b) = Lt) by (apply Qlt_alt; exact H).
  unfold div, sgn. rewrite E. reflexivity.
Qed.

(** ** Rounding to a double *)

Lemma pow2_pos (e : Z) : 0 < pow2 e.
Proof. apply Qpower_0_lt. reflexivity. Qed.

Lemma pow2_add (a b : Z) : pow2 (a + b) == pow2 a * pow2 b.
Proof. apply Qpower_plus. discriminate. Qed.

Lemma pow2_le (a b : Z) : (a <= b)%Z -> pow2 a <= pow2 b.
Proof. intro H. apply Qpower_le_compat_l; [exact H | discriminate]. Qed.

Lemma pow2_lt (a b : Z) : (a < b)%Z -> pow2 a < pow2 b.
Proof. intro H. apply Qpower_lt_compat_l; [exact H | reflexivity]. Qed.

Lemma pow2_lt_inv (a b : Z) : pow2 a < pow2 b -> (a < b)%Z.
Proof. intro H. apply (Qpower_lt_compat_l_inv 2); [exact H | reflexivity]. Qed.

Lemma pow2_Z (n : Z) : (0 <= n)%Z -> pow2 n == inject_Z (2 ^ n).
Proof. intro H. unfold pow2. now rewrite (Zpower_Qpower 2 n H). Qed.

Lemma pow2_0 : pow2 0 == 1.
Proof. reflexivity. Qed.

(** [pow2 a / pow2 b] is a whole number when [b <= a]. *)
Lemma pow2_quot (a b : Z) :
  (b <= a)%Z -> pow2 a / pow2 b == inject_Z (2 ^ (a - b)).
Proof.
  intro H. rewrite <- (pow2_Z (a - b)) by lia.
  replace a with ((a - b) + b)%Z at 1 by ring.
  rewrite pow2_add. field. pose proof (pow2_pos b). lra.
Qed.

Lemma log2_bounds (n : Z) :
  (0 < n)%Z ->
  pow2 (Z.log2 n) <= inject_Z n /\ inject_Z n < pow2 (Z.log2 n + 1).
Proof.
  intro H. destruct (Z.log2_spec n H) as [Hl Hu].
  pose proof (Z.log2_nonneg n) as Hn.
  rewrite !pow2_Z by lia. rewrite <- Zle_Qle, <- Zlt_Qlt.
  replace (Z.log2 n + 1)%Z with (Z.succ (Z.log2 n)) by lia. now split.
Qed.

Lemma magnitude_spec (q : Q) :
  0 < q -> pow2 (magnitude q) <= q /\ q < pow2 (magnitude q + 1).
Proof.
  intro Hq. destruct q as [n d]. 
  assert (Hn : (0 < n)%Z).
  { unfold Qlt in Hq. simpl in Hq. lia. }
  unfold magnitude. cbn [Qnum Qden].
  set (ln := Z.log2 n). set (ld := Z.log2 (Zpos d)).
  destruct (log2_bounds n Hn) as [Hn1 Hn2]. fold ln in Hn1, Hn2.
  destruct (log2_bounds (Zpos d) ltac:(lia)) as [Hd1 Hd2]. fold ld in Hd1, Hd2.
  assert (Hnd : inject_Z n == (n # d) * inject_Z (Zpos d)).
  { rewrite (Qmake_Qdiv n d). field. discriminate. }
  assert (Hup : (n # d) < pow2 (ln - ld + 1)).
  { assert (E : pow2 (ln - ld + 1) * pow2 ld == pow2 (ln + 1)).
    { rewrite <- pow2_add. now replace (ln - ld + 1 + ld)%Z with (ln + 1)%Z by ring. }
    pose proof (pow2_pos ld). pose proof (pow2_pos (ln - ld + 1)).
    apply Qnot_le_lt. intro Hc.
    assert ((n # d) * pow2 ld <= (n # d) * inject_Z (Zpos d))
      by (apply Qmult_le_l; [exact Hq | exact Hd1]).
    assert (pow2 (ln - ld + 1) * pow2 ld <= (n # d) * pow2 ld)
      by (apply Qmult_le_r; [assumption | exact Hc]).
    lra. }
  assert (Hlow : pow2 (ln - ld - 1) < (n # d)).
  { assert (E : pow2 (ln - ld - 1) * pow2 (ld + 1) == pow2 ln).
    { rewrite <- pow2_add. now replace (ln - ld - 1 + (ld + 1))%Z with ln by ring. }
    pose proof (pow2_pos (ld + 1)). pose proof (pow2_pos (ln - ld - 1)).
    apply Qnot_le_lt. intro Hc.
    assert ((n # d) * inject_Z (Zpos d) < (n # d) * pow2 (ld + 1))
      by (apply Qmult_lt_l; [exact Hq | exact Hd2]).
    assert ((n # d) * pow2 (ld + 1) <= pow2 (ln - ld - 1) * pow2 (ld + 1))
      by (apply Qmult_le_r; [assumption | exact Hc]).
    lra. }
  destruct (Qle_bool (pow2 (ln - ld)) (n # d)) eqn:E.
  - apply Qle_bool_iff in E. split; [exact E | exact Hup].
  - split; [apply Qlt_le_weak; exact Hlow|].
    replace (ln - ld - 1 + 1)%Z with (ln - ld)%Z by ring.
    apply Qnot_le_lt. intro Hc. apply Qle_bool_iff in Hc. congruence.
Qed.

Lemma magnitude_unique (q : Q) (a : Z) :
  pow2 a <= q -> q < pow2 (a + 1) -> magnitude q = a.
Proof.
  intros H1 H2.
  assert (Hq : 0 < q) by (pose proof (pow2_pos a); lra).
  destruct (magnitude_spec q Hq) as [M1 M2].
  assert (magnitude q < a + 1)%Z by (apply pow2_lt_inv; lra).
  assert (a < magnitude q + 1)%Z by (apply pow2_lt_inv; lra).
  lia.
Qed.

Lemma magnitude_compat (x y : Q) : 0 < x -> x == y -> magnitude x = magnitude y.
Proof.
  intros Hx E. destruct (magnitude_spec x Hx) as [M1 M2].
  symmetry. apply magnitude_unique; rewrite <- E; assumption.
Qed.

Lemma magnitude_mono (x y : Q) :
  0 < x -> x <= y -> (magnitude x <= magnitude y)%Z.
Proof.
  intros Hx Hxy.
  destruct (magnitude_spec x Hx) as [M1 _].
  destruct (magnitude_spec y ltac:(lra)) as [_ N2].
  assert (magnitude x < magnitude y + 1)%Z by (apply pow2_lt_inv; lra).
  lia.
Qed.

(** Rounding to an integer. *)

Ltac compared :=
  repeat match goal with
  | H : Qcompare _ _ = Eq |- _ => apply (proj2 (Qeq_alt _ _)) in H
  | H : Qcompare _ _ = Lt |- _ => apply (proj2 (Qlt_alt _ _)) in H
  | H : Qcompare _ _ = Gt |- _ => apply (proj2 (Qgt_alt _ _)) in H
  end.

Lemma roundEven_compat (x y : Q) : x == y -> roundEven x = roundEven y.
Proof.
  intro E. unfold roundEven. rewrite (Qfloor_comp x y E).
  now rewrite (Qcompare_comp (x - inject_Z (Qfloor y)) (y - inject_Z (Qfloor y))
                 ltac:(now rewrite E) (1 # 2) (1 # 2) ltac:(reflexivity)).
Qed.

Lemma roundEven_Z (n : Z) : roundEven (inject_Z n) = n.
Proof.
  unfold roundEven. rewrite Qfloor_Z.
  assert (E : Qcompare (inject_Z n - inject_Z n) (1 # 2) = Lt).
  { apply (proj1 (Qlt_alt _ _)). generalize (inject_Z n). intro q. lra. }
  now rewrite E.
Qed.

Lemma roundEven_bounds (x : Q) :
  (Qfloor x <= roundEven x <= Qfloor x + 1)%Z.
Proof.
  unfold roundEven.
  destruct (Qcompare (x - inject_Z (Qfloor x)) (1 # 2));
    [destruct (Z.even (Qfloor x))| |]; lia.
Qed.

Lemma roundEven_mono (x y : Q) : x <= y -> (roundEven x <= roundEven y)%Z.
Proof.
  intro H. pose proof (Qfloor_resp_le x y H) as Hf.
  pose proof (roundEven_bounds x). pose proof (roundEven_bounds y).
  destruct (Z.eq_dec (Qfloor x) (Qfloor y)) as [E | NE]; [|lia].
  unfold roundEven. rewrite E.
  destruct (Qcompare (x - inject_Z (Qfloor y)) (1 # 2)) eqn:Cx;
    destruct (Qcompare (y - inject_Z (Qfloor y)) (1 # 2)) eqn:Cy;
    try (destruct (Z.even (Qfloor y))); try lia;
    compared; exfalso; lra.
Qed.

Lemma roundEven_error (x : Q) :
  x - (1 # 2) <= inject_Z (roundEven x) /\ inject_Z (roundEven x) <= x + (1 # 2).
Proof.
  pose proof (Qfloor_le x) as Hl. pose proof (Qlt_floor x) as Hu.
  rewrite inject_Z_plus in Hu.
  unfold roundEven.
  destruct (Qcompare (x - inject_Z (Qfloor x)) (1 # 2)) eqn:C;
    compared; [destruct (Z.even (Qfloor x))| |];
    rewrite ?inject_Z_plus; change (inject_Z 1) with 1 in *; split; lra.
Qed.

Lemma ulpExponent_compat (x y : Q) :
  0 < x -> x == y -> ulpExponent x = ulpExponent y.
Proof. intros H E. unfold ulpExponent. now rewrite (magnitude_compat x y H E). Qed.

Lemma ulpExponent_mono (x y : Q) :
  0 < x -> x <= y -> (ulpExponent x <= ulpExponent y)%Z.
Proof.
  intros H E. unfold ulpExponent. pose proof (magnitude_mono x y H E). lia.
Qed.

Lemma Qdiv_pow2_le (x y : Q) (e : Z) : x <= y -> x / pow2 e <= y / pow2 e.
Proof.
  intro H. pose proof (pow2_pos e) as Hp.
  apply Qmult_le_r with (z := / pow2 e) in H; [exact H|].
  now apply Qinv_lt_0_compat.
Qed.

Lemma Qdiv_pow2_mul (x : Q) (e : Z) : x / pow2 e * pow2 e == x.
Proof. field. pose proof (pow2_pos e). lra. Qed.

Lemma roundPos_compat (x y : Q) : 0 < x -> x == y -> roundPos x == roundPos y.
Proof.
  intros H E. unfold roundPos. rewrite (ulpExponent_compat x y H E).
  rewrite (roundEven_compat (x / pow2 (ulpExponent y)) (y / pow2 (ulpExponent y)));
    [reflexivity | now rewrite E].
Qed.

Lemma roundPos_nonneg (x : Q) : 0 < x -> 0 <= roundPos x.
Proof.
  intro H. unfold roundPos. set (e := ulpExponent x).
  pose proof (pow2_pos e) as Hp.
  assert (0 <= x / pow2 e).
  { apply Qle_shift_div_l; [exact Hp | lra]. }
  assert (0 <= roundEven (x / pow2 e))%Z.
  { rewrite <- (roundEven_Z 0). now apply roundEven_mono. }
  apply Qmult_le_0_compat; [|lra].
  now rewrite <- (Zle_Qle 0).
Qed.

(** A power of two on the grid of [x] that bounds [x] bounds its rounding. *)
Lemma roundPos_le_grid (x : Q) (a : Z) :
  x <= pow2 a -> (ulpExponent x <= a)%Z -> roundPos x <= pow2 a.
Proof.
  intros H Hu. unfold roundPos. set (e := ulpExponent x) in *.
  pose proof (pow2_pos e) as Hp.
  assert (Hr : (roundEven (x / pow2 e) <= 2 ^ (a - e))%Z).
  { rewrite <- (roundEven_Z (2 ^ (a - e))). apply roundEven_mono.
    rewrite <- (pow2_quot a e Hu). now apply Qdiv_pow2_le. }
  rewrite Zle_Qle in Hr. rewrite <- (pow2_quot a e Hu) in Hr.
  apply Qmult_le_r with (z := pow2 e) in Hr; [|exact Hp].
  now rewrite Qdiv_pow2_mul in Hr.
Qed.

Lemma roundPos_ge_grid (x : Q) (a : Z) :
  pow2 a <= x -> (ulpExponent x <= a)%Z -> pow2 a <= roundPos x.
Proof.
  intros H Hu. unfold roundPos. set (e := ulpExponent x) in *.
  pose proof (pow2_pos e) as Hp.
  assert (Hr : (2 ^ (a - e) <= roundEven (x / pow2 e))%Z).
  { rewrite <- (roundEven_Z (2 ^ (a - e))) at 1. apply roundEven_mono.
    rewrite <- (pow2_quot a e Hu). now apply Qdiv_pow2_le. }
  rewrite Zle_Qle in Hr. rewrite <- (pow2_quot a e Hu) in Hr.
  apply Qmult_le_r with (z := pow2 e) in Hr; [|exact Hp].
  now rewrite Qdiv_pow2_mul in Hr.
Qed.

Lemma roundPos_mono (x y : Q) : 0 < x -> x <= y -> roundPos x <= roundPos y.
Proof.
  intros Hx Hxy. assert (Hy : 0 < y) by lra.
  pose proof (ulpExponent_mono x y Hx Hxy) as Hu.
  destruct (Z.eq_dec (ulpExponent x) (ulpExponent y)) as [E | NE].
  - unfold roundPos. rewrite E. set (e := ulpExponent y).
    pose proof (pow2_pos e) as Hp.
    apply Qmult_le_r; [exact Hp|]. rewrite <- Zle_Qle.
    apply roundEven_mono. now apply Qdiv_pow2_le.
  - destruct (magnitude_spec x Hx) as [_ X2].
    destruct (magnitude_spec y Hy) as [Y1 _].
    assert (Hm : (magnitude x + 1 <= magnitude y)%Z)
      by (unfold ulpExponent in *; lia).
    assert (Hb : x <= pow2 (magnitude y)).
    { pose proof (pow2_le _ _ Hm). lra. }
    apply Qle_trans with (pow2 (magnitude y)).
    + apply roundPos_le_grid; [exact Hb | unfold ulpExponent in *; lia].
    + apply roundPos_ge_grid; [exact Y1 | unfold ulpExponent in *; lia].
Qed.

(** Rounding a rational. *)

Lemma round64_pos (q : Q) : 0 < q -> round64 q = roundPos q.
Proof.
  intro H. unfold round64. now rewrite (proj1 (Qlt_alt 0 q) H).
Qed.

Lemma round64_neg (q : Q) : q < 0 -> round64 q = - roundPos (- q).
Proof.
  intro H. unfold round64. now rewrite (proj1 (Qgt_alt 0 q) H).
Qed.

Lemma round64_zero (q : Q) : q == 0 -> round64 q = 0.
Proof.
  intro H. unfold round64.
  now rewrite (proj1 (Qeq_alt 0 q) ltac:(now symmetry)).
Qed.

Lemma Qsign_cases (q : Q) : q < 0 \/ q == 0 \/ 0 < q.
Proof.
  destruct (Q_dec q 0) as [[H | H] | H]; auto.
Qed.

#[global] Instance round64_compat : Proper (Qeq ==> Qeq) round64.
Proof.
  intros x y E. destruct (Qsign_cases x) as [H | [H | H]].
  - rewrite (round64_neg x H), (round64_neg y ltac:(lra)).
    apply Qopp_comp. apply roundPos_compat; lra.
  - rewrite (round64_zero x H), (round64_zero y ltac:(lra)). reflexivity.
  - rewrite (round64_pos x H), (round64_pos y ltac:(lra)).
    now apply roundPos_compat.
Qed.

Lemma round64_nonneg (q : Q) : 0 <= q -> 0 <= round64 q.
Proof.
  intro H. destruct (Qsign_cases q) as [H' | [H' | H']]; [lra | |].
  - rewrite (round64_zero q H'). lra.
  - rewrite (round64_pos q H'). now apply roundPos_nonneg.
Qed.

Lemma round64_nonpos (q : Q) : q <= 0 -> round64 q <= 0.
Proof.
  intro H. destruct (Qsign_cases q) as [H' | [H' | H']]; [| |lra].
  - rewrite (round64_neg q H').
    pose proof (roundPos_nonneg (- q) ltac:(lra)). lra.
  - rewrite (round64_zero q H'). lra.
Qed.

Lemma round64_mono (x y : Q) : x <= y -> round64 x <= round64 y.
Proof.
  intro H. destruct (Qsign_cases x) as [Hx | [Hx | Hx]].
  - destruct (Qsign_cases y) as [Hy | [Hy | Hy]].
    + rewrite (round64_neg x Hx), (round64_neg y Hy).
      pose proof (roundPos_mono (- y) (- x) ltac:(lra) ltac:(lra)). lra.
    + pose proof (round64_nonpos x ltac:(lra)).
      rewrite (round64_zero y Hy). exact H0.
    + pose proof (round64_nonpos x ltac:(lra)).
      pose proof (round64_nonneg y ltac:(lra)). lra.
  - rewrite (round64_zero x Hx). apply round64_nonneg. lra.
  - rewrite (round64_pos x Hx), (round64_pos y ltac:(lra)).
    now apply roundPos_mono.
Qed.

Lemma round64_opp (q : Q) : round64 (- q) == - round64 q.
Proof.
  destruct (Qsign_cases q) as [H | [H | H]].
  - rewrite (round64_neg q H), (round64_pos (- q) ltac:(lra)). lra.
  - rewrite (round64_zero q H), (round64_zero (- q) ltac:(lra)). lra.
  - rewrite (round64_pos q H), (round64_neg (- q) ltac:(lra)).
    apply Qopp_comp. apply roundPos_compat; lra.
Qed.

(** The numbers [m * 2^e] with [|m| <= 2^53] and [e >= -1074] are doubles:
    rounding leaves them as they are. *)
Lemma roundPos_grid (m e : Z) :
  (0 < m <= 2 ^ 53)%Z -> (-1074 <= e)%Z ->
  roundPos (inject_Z m * pow2 e) == inject_Z m * pow2 e.
Proof.
  intros Hm He. set (q := inject_Z m * pow2 e).
  pose proof (pow2_pos e) as Hpe.
  assert (Hq : 0 < q).
  { unfold q. apply Qmult_lt_0_compat; [|exact Hpe].
    rewrite <- (Zlt_Qlt 0). lia. }
  assert (Hk : exists k, q / pow2 (ulpExponent q) == inject_Z k).
  { pose proof (pow2_pos (ulpExponent q)) as Hpu.
    destruct (Z_le_gt_dec (ulpExponent q) e) as [Hu | Hu].
    - exists (m * 2 ^ (e - ulpExponent q))%Z.
      rewrite inject_Z_mult, <- (pow2_quot e _ Hu).
      generalize dependent (ulpExponent q). intros u Hpu Hu.
      unfold q. field. lra.
    - exists (2 ^ 52)%Z.
      destruct (magnitude_spec q Hq) as [M1 M2].
      assert (Hu' : ulpExponent q = (magnitude q - 52)%Z)
        by (unfold ulpExponent in *; lia).
      assert (Hle : q <= pow2 (e + 53)).
      { rewrite pow2_add. unfold q. rewrite (Qmult_comm (pow2 e)).
        apply Qmult_le_r; [exact Hpe|].
        rewrite pow2_Z by lia. rewrite <- Zle_Qle. lia. }
      assert (Hmag : magnitude q = (e + 53)%Z).
      { pose proof (pow2_lt (e + 53) (e + 53 + 1) ltac:(lia)).
        assert (magnitude q < e + 53 + 1)%Z by (apply pow2_lt_inv; lra). lia. }
      assert (Eq : q == pow2 (e + 53)) by (rewrite Hmag in M1; lra).
      rewrite Hu', Hmag, Eq.
      replace (e + 53 - 52)%Z with (e + 1)%Z by ring.
      rewrite (pow2_quot (e + 53) (e + 1)) by lia.
      now replace (e + 53 - (e + 1))%Z with 52%Z by ring. }
  destruct Hk as (k & Hk). unfold roundPos.
  rewrite (roundEven_compat _ _ Hk), roundEven_Z, <- Hk.
  apply Qdiv_pow2_mul.
Qed.

Lemma round64_grid (m e : Z) :
  (Z.abs m <= 2 ^ 53)%Z -> (-1074 <= e)%Z ->
  round64 (inject_Z m * pow2 e) == inject_Z m * pow2 e.
Proof.
  intros Hm He. pose proof (pow2_pos e) as Hpe.
  destruct (Z.lt_trichotomy m 0) as [H | [H | H]].
  - assert (E : inject_Z m * pow2 e == - (inject_Z (- m) * pow2 e))
      by (rewrite inject_Z_opp; ring).
    rewrite E, round64_opp.
    assert (Hq : 0 < inject_Z (- m) * pow2 e).
    { apply Qmult_lt_0_compat; [|exact Hpe]. rewrite <- (Zlt_Qlt 0). lia. }
    rewrite (round64_pos _ Hq). apply Qopp_comp.
    apply roundPos_grid; lia.
  - subst m. rewrite round64_zero; ring.
  - assert (Hq : 0 < inject_Z m * pow2 e).
    { apply Qmult_lt_0_compat; [|exact Hpe]. rewrite <- (Zlt_Qlt 0). lia. }
    rewrite (round64_pos _ Hq). apply roundPos_grid; lia.
Qed.

Lemma round64_Z (n : Z) :
  (Z.abs n <= 2 ^ 53)%Z -> round64 (inject_Z n) == inject_Z n.
Proof.
  intro H. pose proof (round64_grid n 0 H ltac:(lia)) as E.
  rewrite pow2_0, Qmult_1_r in E. exact E.
Qed.

(** What rounding yields is a double. *)
Lemma roundPos_on_grid (q : Q) :
  0 < q ->
  exists m e, (0 <= m <= 2 ^ 53)%Z /\ (-1074 <= e)%Z
              /\ roundPos q == inject_Z m * pow2 e.
Proof.
  intro Hq. exists (roundEven (q / pow2 (ulpExponent q))), (ulpExponent q).
  set (u := ulpExponent q). pose proof (pow2_pos u) as Hpu.
  destruct (magnitude_spec q Hq) as [_ M2].
  split; [split|split].
  - rewrite <- (roundEven_Z 0). apply roundEven_mono.
    change (inject_Z 0) with 0.
    apply Qle_shift_div_l; [exact Hpu | lra].
  - rewrite <- (roundEven_Z (2 ^ 53)). apply roundEven_mono.
    rewrite <- (pow2_Z 53) by lia.
    apply Qle_shift_div_r; [exact Hpu|].
    rewrite <- pow2_add.
    assert (magnitude q + 1 <= 53 + u)%Z by (unfold u, ulpExponent; lia).
    pose proof (pow2_le _ _ H). lra.
  - unfold u, ulpExponent. lia.
  - reflexivity.
Qed.

Lemma round64_idem (q : Q) : round64 (round64 q) == round64 q.
Proof.
  destruct (Qsign_cases q) as [H | [H | H]].
  - rewrite (round64_neg q H).
    destruct (roundPos_on_grid (- q) ltac:(lra)) as (m & e & Hm & He & E).
    rewrite round64_opp. apply Qopp_comp.
    rewrite E. apply round64_grid; lia.
  - rewrite (round64_zero q H). reflexivity.
  - rewrite (round64_pos q H).
    destruct (roundPos_on_grid q H) as (m & e & Hm & He & E).
    rewrite E. apply round64_grid; lia.
Qed.

(** The relative error of rounding a number in the normal range. *)
Lemma round64_error (q : Q) :
  pow2 (-1022) <= q ->
  q - q * pow2 (-53) <= round64 q /\ round64 q <= q + q * pow2 (-53).
Proof.
  intro H. pose proof (pow2_pos (-1022)) as Hp.
  assert (Hq : 0 < q) by lra.
  rewrite (round64_pos q Hq). unfold roundPos.
  destruct (magnitude_spec q Hq) as [M1 M2].
  assert (Hmag : (-1022 <= magnitude q)%Z).
  { assert (-1022 < magnitude q + 1)%Z by (apply pow2_lt_inv; lra). lia. }
  assert (Hu : ulpExponent q = (magnitude q - 52)%Z)
    by (unfold ulpExponent; lia).
  rewrite Hu. set (u := (magnitude q - 52)%Z).
  pose proof (pow2_pos u) as Hpu.
  destruct (roundEven_error (q / pow2 u)) as [E1 E2].
  apply Qmult_le_r with (z := pow2 u) in E1; [|exact Hpu].
  apply Qmult_le_r with (z := pow2 u) in E2; [|exact Hpu].
  rewrite Qmult_plus_distr_l, Qdiv_pow2_mul in E2.
  assert (E1' : q - (1 # 2) * pow2 u
                <= inject_Z (roundEven (q / pow2 u)) * pow2 u).
  { apply Qle_trans with ((q / pow2 u - (1 # 2)) * pow2 u); [|exact E1].
    assert (E : (q / pow2 u - (1 # 2)) * pow2 u == q - (1 # 2) * pow2 u)
      by (field; lra).
    rewrite E. apply Qle_refl. }
  assert (Hhalf : (1 # 2) * pow2 u <= q * pow2 (-53)).
  { assert (E : (1 # 2) * pow2 u == pow2 (magnitude q) * pow2 (-53)).
    { rewrite <- pow2_add. unfold u.
      replace (magnitude q + -53)%Z with (-1 + (magnitude q - 52))%Z by ring.
      rewrite pow2_add. reflexivity. }
    rewrite E. apply Qmult_le_r; [apply pow2_pos | exact M1]. }
  split; lra.
Qed.

(** ** The helpers on small inputs *)

Example div_by_zero :
  div (Fin 1) (Fin 0) = PInf /\ div (Fin (-1)) (Fin 0) = NInf
  /\ div (Fin 0) (Fin 0) = NaN.
Proof. repeat split. Qed.

Example min_of_NaN : min NaN (Fin 1) = NaN /\ min PInf (Fin 1) = Fin 1.
Proof. split; reflexivity. Qed.

Example split_on_spaces :
  split " " "a  b" = ["a"; EmptyString; "b"]%string
  /\ split " " EmptyString = [EmptyString].
Proof. split; reflexivity. Qed.

Example splitWhitespace_runs :
  splitWhitespace "a  b " = ["a"; "b"; EmptyString]%string
  /\ splitWhitespace " a" = [EmptyString; "a"]%string
  /\ splitWhitespace EmptyString = [EmptyString].
Proof. repeat split. Qed.

Example slice_from_the_end :
  slice [1; 2; 3; 4]%Z (ofZ (-2)) PInf = [3; 4]%Z
  /\ slice [1; 2; 3; 4]%Z NaN (ofZ 9) = [1; 2; 3; 4]%Z
  /\ sliceZ [1; 2; 3; 4]%Z 1 3 = [2; 3]%Z.
Proof. repeat split. Qed.

Example toUpperCase_hello : toUpperCase "Hello, world" = "HELLO, WORLD"%string.
Proof. reflexivity. Qed.

Example karaokeWindow_samples :
  karaokeWindow 20 10 = (7, 15)%Z /\ karaokeWindow 20 19 = (12, 20)%Z
  /\ karaokeWindow 5 (-1) = (0, 5)%Z /\ karaokeWindow 20 (-1) = (0, 8)%Z.
Proof. repeat split. Qed.

(** Three scenes of ten seconds: at 29.9 the third scene is active, and it
    still is at 30.5, past the end. *)
Example third_scene_active :
  option_map start (currentScene (sceneTimings [] threeScenes) 29.9)
  = Some (0 + 10 + 10)
  /\ option_map start (currentScene (sceneTimings [] threeScenes) 30.5)
     = Some (0 + 10 + 10).
Proof. split; reflexivity. Qed.

(** The sentence template on "Hello world" without timings: one line. *)
Example sentence_hello :
  textsOf (ops (drawSentenceCaption tenPerChar (load ar_9_16) helloPlain
                  (withTemplate sentence DEFAULT_CAPTION_SETTINGS) 0.7
                  freshCtx))
  = ["Hello world"%string].
Proof. vm_compute. reflexivity. Qed.

Lemma find_nth_error {A : Type} (f : A -> bool) (l : list A) (x : A) :
  find f l = Some x ->
  exists i, nth_error l i = Some x /\ f x = true
            /\ forall j y, (j < i)%nat -> nth_error l j = Some y -> f y = false.
Proof.
  induction l as [|a l IH]; simpl; [discriminate|].
  destruct (f a) eqn:Fa; intro H.
  - injection H as ->. exists 0%nat. repeat split; auto. intros j y Hj. lia.
  - destruct (IH H) as (i & Hi & Hx & Hmin).
    exists (S i). repeat split; auto.
    intros [|j] y Hj; simpl; intro Hy.
    + injection Hy as <-. exact Fa.
    + apply (Hmin j); [lia | exact Hy].
Qed.

Lemma find_none_nth_error {A : Type} (f : A -> bool) (l : list A) :
  find f l = None -> forall i x, nth_error l i = Some x -> f x = false.
Proof.
  intros H i x Hx. apply (find_none f l H). eapply nth_error_In; eauto.
Qed.

Lemma last_cons_default {A : Type} (x : A) (l : list A) (d d' : A) :
  last (x :: l) d = last (x :: l) d'.
Proof.
  revert x. induction l as [|y l IH]; intro x; [reflexivity|].
  change (last (y :: l) d = last (y :: l) d'). apply IH.
Qed.

(** ** The timeline *)

Section Timeline.

Variable images : list Image.

Lemma sceneTimingsFrom_length (scenes : list Scene) :
  forall i c, List.length (sceneTimingsFrom images i c scenes) = List.length scenes.
Proof.
  induction scenes as [|s rest IH]; intros i c; simpl; [reflexivity|].
  now rewrite IH.
Qed.

(** Every interval is [duration] long, Leibniz-equally: its end is the
    very sum that the loop stores. *)
Lemma sceneTimingsFrom_end (scenes : list Scene) :
  forall i c k s sc,
    nth_error (sceneTimingsFrom images i c scenes) k = Some s ->
    nth_error scenes k = Some sc ->
    end_ s = start s + duration sc.
Proof.
  induction scenes as [|s0 rest IH]; intros i c k s sc Hs Hsc.
  - destruct k; discriminate.
  - destruct k as [|k]; simpl in *.
    + injection Hs as <-. injection Hsc as <-. reflexivity.
    + eapply IH; eauto.
Qed.

Lemma sceneTimingsFrom_head (scenes : list Scene) (i : nat) (c : Q) (s : SceneTiming) :
  nth_error (sceneTimingsFrom images i c scenes) 0 = Some s -> start s = c.
Proof.
  destruct scenes; simpl; [discriminate|]. intro H. injection H as <-. reflexivity.
Qed.

Lemma sceneTimingsFrom_chain (scenes : list Scene) :
  forall i c k a b,
    nth_error (sceneTimingsFrom images i c scenes) k = Some a ->
    nth_error (sceneTimingsFrom images i c scenes) (S k) = Some b ->
    start b = end_ a.
Proof.
  induction scenes as [|s0 rest IH]; intros i c k a b Ha Hb.
  - destruct k; discriminate.
  - destruct k as [|k]; simpl in Ha, Hb.
    + injection Ha as <-. simpl.
      eapply sceneTimingsFrom_head. exact Hb.
    + eapply IH; eauto.
Qed.

Lemma sceneTimingsFrom_last (scenes : list Scene) :
  forall i c,
    last (map end_ (sceneTimingsFrom images i c scenes)) c
    = fold_left (fun acc s => acc + duration s) scenes c.
Proof.
  induction scenes as [|s0 rest IH]; intros i c; simpl; [reflexivity|].
  rewrite <- (IH (S i)).
  destruct (sceneTimingsFrom images (S i) (c + duration s0) rest) as [|s l];
    [reflexivity|].
  apply (last_cons_default (end_ s) (map end_ l)).
Qed.

Lemma sceneTimingsFrom_lengths (scenes : list Scene) :
  forall i c,
    Qsum (map intervalLength (sceneTimingsFrom images i c scenes))
    == Qsum (map duration scenes).
Proof.
  induction scenes as [|s0 rest IH]; intros i c; simpl; [reflexivity|].
  rewrite IH. unfold intervalLength; simpl. ring.
Qed.

Lemma fold_left_durations (scenes : list Scene) :
  forall c, fold_left (fun acc s => acc + duration s) scenes c
            == c + Qsum (map duration scenes).
Proof.
  induction scenes as [|s0 rest IH]; intro c; simpl; [ring|].
  rewrite IH. ring.
Qed.

Lemma fold_left_durations_le (scenes : list Scene) :
  Forall (fun sc => 0 <= duration sc) scenes ->
  forall c, c <= fold_left (fun acc s => acc + duration s) scenes c.
Proof.
  induction 1 as [|s0 rest H0 _ IH]; intro c; simpl; [lra|].
  specialize (IH (c + duration s0)). lra.
Qed.

(** With durations that are not negative, every interval of the loop
    entered at [c] lies between [c] and the final sum. *)
Lemma sceneTimingsFrom_bounds (scenes : list Scene) :
  Forall (fun sc => 0 <= duration sc) scenes ->
  forall i c k s,
    nth_error (sceneTimingsFrom images i c scenes) k = Some s ->
    c <= start s /\ start s <= end_ s
    /\ end_ s <= fold_left (fun acc s => acc + duration s) scenes c.
Proof.
  induction 1 as [|s0 rest H0 Hrest IH]; intros i c k s Hs.
  - destruct k; discriminate.
  - destruct k as [|k]; simpl in Hs.
    + injection Hs as <-. simpl.
      pose proof (fold_left_durations_le rest Hrest (c + duration s0)). lra.
    + simpl. destruct (IH _ _ _ _ Hs) as (H1 & H2 & H3). lra.
Qed.

Lemma sceneTimingsFrom_ordered (scenes : list Scene) :
  Forall (fun sc => 0 <= duration sc) scenes ->
  forall i c j k a b,
    (j < k)%nat ->
    nth_error (sceneTimingsFrom images i c scenes) j = Some a ->
    nth_error (sceneTimingsFrom images i c scenes) k = Some b ->
    end_ a <= start b.
Proof.
  induction 1 as [|s0 rest H0 Hrest IH]; intros i c j k a b Hjk Ha Hb.
  - destruct j; discriminate.
  - destruct k as [|k]; [lia|]. destruct j as [|j]; simpl in Ha, Hb.
    + injection Ha as <-. simpl.
      apply (sceneTimingsFrom_bounds rest Hrest) in Hb.
      destruct Hb as (Hb & _ & _). exact Hb.
    + apply (IH (S i) (c + duration s0) j k a b); [lia | exact Ha | exact Hb].
Qed.

(** C1. For every scene list, the intervals that composeVideo builds are as
    many as the scenes; the first starts at 0 and each one starts where the
    one before ends; interval [i] is as long as scene [i] lasts, so that the
    lengths add up to the sum of the durations, which is [totalDuration],
    the end of the last interval; and, durations being not negative (the
    data model has them positive), an earlier interval ends before a later
    one starts: no instant lies in two of them. *)
Theorem timeline_contiguous (scenes : list Scene) :
  let T := sceneTimings images scenes in
  List.length T = List.length scenes
  /\ (forall s, nth_error T 0 = Some s -> start s = 0)
  /\ (forall i a b, nth_error T i = Some a -> nth_error T (S i) = Some b ->
        start b = end_ a)
  /\ (forall i s sc, nth_error T i = Some s -> nth_error scenes i = Some sc ->
        intervalLength s == duration sc)
  /\ Qsum (map intervalLength T) == Qsum (map duration scenes)
  /\ Qsum (map duration scenes) == totalDuration scenes
  /\ last (map end_ T) 0 = totalDuration scenes
  /\ (Forall (fun sc => 0 <= duration sc) scenes ->
      forall i j a b, (i < j)%nat ->
        nth_error T i = Some a -> nth_error T j = Some b ->
        end_ a <= start b /\ forall t, ~ (within t a /\ within t b)).
Proof.
  unfold sceneTimings, totalDuration. cbv zeta.
  split; [apply sceneTimingsFrom_length|].
  split; [intros s; apply sceneTimingsFrom_head|].
  split; [intros i a b; apply sceneTimingsFrom_chain|].
  split.
  { intros i s sc Hs Hsc. unfold intervalLength.
    rewrite (sceneTimingsFrom_end _ _ _ _ _ _ Hs Hsc). ring. }
  split; [apply sceneTimingsFrom_lengths|].
  split; [rewrite fold_left_durations; ring|].
  split; [apply sceneTimingsFrom_last|].
  intros Hpos i j a b Hij Ha Hb.
  pose proof (sceneTimingsFrom_ordered scenes Hpos _ _ _ _ _ _ Hij Ha Hb) as Hle.
  split; [exact Hle|].
  unfold within. intros t [[_ H1] [H2 _]]. lra.
Qed.

End Timeline.

(** ** The active scene *)

Lemma activeAt_within (t : Q) (s : SceneTiming) :
  activeAt t s = true <-> within t s.
Proof.
  unfold activeAt, within. rewrite andb_true_iff, Qle_bool_iff, Qlt_bool_iff.
  tauto.
Qed.

Lemma Forall_pos_nonneg (scenes : list Scene) :
  Forall (fun sc => 0 < duration sc) scenes ->
  Forall (fun sc => 0 <= duration sc) scenes.
Proof.
  intro H. eapply Forall_impl; [|exact H]. intros sc Hsc. simpl in Hsc. lra.
Qed.

Lemma item_last {A : Type} (l : list A) :
  item l (lengthZ l - 1) = nth_error l (List.length l - 1).
Proof.
  unfold item, lengthZ. destruct l as [|a l]; [reflexivity|].
  simpl List.length.
  replace (Z.of_nat (S (List.length l)) - 1)%Z with (Z.of_nat (List.length l)) by lia.
  destruct (Z.ltb_spec (Z.of_nat (List.length l)) 0); [lia|].
  rewrite Nat2Z.id. f_equal. lia.
Qed.

Section ActiveScene.

Variable images : list Image.

(** Before the end of the timeline the search succeeds. *)
Lemma find_active_some (t : Q) (scenes : list Scene) :
  forall i c,
    c <= t -> t < fold_left (fun acc s => acc + duration s) scenes c ->
    exists s, find (activeAt t) (sceneTimingsFrom images i c scenes) = Some s.
Proof.
  induction scenes as [|s0 rest IH]; intros i c Hc Ht; simpl in *.
  - lra.
  - unfold activeAt at 1; simpl.
    rewrite (proj2 (Qle_bool_iff c t) Hc). simpl.
    destruct (Qlt_bool t (c + duration s0)) eqn:E; [eauto|].
    apply Qlt_bool_false in E. apply IH; assumption.
Qed.

(** From the end of the timeline on it fails. *)
Lemma find_active_none (t : Q) (scenes : list Scene) :
  Forall (fun sc => 0 <= duration sc) scenes ->
  totalDuration scenes <= t ->
  find (activeAt t) (sceneTimings images scenes) = None.
Proof.
  intros Hpos Ht.
  destruct (find (activeAt t) (sceneTimings images scenes)) as [s|] eqn:E;
    [|reflexivity].
  apply find_nth_error in E. destruct E as (i & Hi & Hact & _).
  apply activeAt_within in Hact. destruct Hact as [_ Hlt].
  apply (sceneTimingsFrom_bounds images scenes Hpos) in Hi.
  unfold totalDuration in Ht. lra.
Qed.

(** C2. For a non-empty scene list with positive durations and [t >= 0],
    the lookup of the capture loop returns an interval: before
    [totalDuration] it is the one interval that contains [t], no other index
    has [t] in its interval; from [totalDuration] on, no interval contains
    [t] and the lookup returns the last one. *)
Theorem currentScene_defined (scenes : list Scene) (t : Q) :
  scenes <> [] ->
  Forall (fun sc => 0 < duration sc) scenes ->
  0 <= t ->
  let T := sceneTimings images scenes in
  exists s,
    currentScene T t = Some s
    /\ (t < totalDuration scenes ->
        exists i, nth_error T i = Some s /\ within t s
                  /\ forall j s', nth_error T j = Some s' -> within t s' -> j = i)
    /\ (totalDuration scenes <= t ->
        nth_error T (List.length T - 1) = Some s
        /\ forall j s', nth_error T j = Some s' -> ~ within t s').
Proof.
  intros Hne Hpos Ht T.
  pose proof (Forall_pos_nonneg scenes Hpos) as Hnn.
  destruct (Qlt_le_dec t (totalDuration scenes)) as [Hin | Hout].
  - destruct (find_active_some t scenes 0%nat 0 Ht Hin) as [s Hs].
    exists s. unfold currentScene. fold (sceneTimings images scenes) in Hs.
    fold T in Hs. rewrite Hs. split; [reflexivity|]. split; [|intro; lra].
    intros _. destruct (find_nth_error _ _ _ Hs) as (i & Hi & Hact & _).
    apply activeAt_within in Hact.
    exists i. repeat split; try assumption; try apply Hact.
    intros j s' Hj Hw.
    destruct (Nat.lt_trichotomy j i) as [Hlt | [Heq | Hgt]]; [|exact Heq|].
    + pose proof (sceneTimingsFrom_ordered images scenes Hnn _ _ _ _ _ _ Hlt Hj Hi).
      unfold within in *. lra.
    + pose proof (sceneTimingsFrom_ordered images scenes Hnn _ _ _ _ _ _ Hgt Hi Hj).
      unfold within in *. lra.
  - pose proof (find_active_none t scenes Hnn Hout) as Hnone. fold T in Hnone.
    assert (Hlen : List.length T = List.length scenes)
      by apply sceneTimingsFrom_length.
    destruct (nth_error T (List.length T - 1)) as [s|] eqn:E.
    + exists s. unfold currentScene. rewrite Hnone, item_last.
      split; [exact E|]. split; [intro; lra|]. intros _. split; [reflexivity|].
      intros j s' Hj Hw. apply activeAt_within in Hw.
      rewrite (find_none_nth_error _ _ Hnone j s' Hj) in Hw. discriminate.
    + apply nth_error_None in E. rewrite Hlen in E.
      destruct scenes; [congruence|]. simpl in E. lia.
Qed.

End ActiveScene.

(** ** Slices *)

Lemma relIndex_ofZ (len z : Z) :
  (0 <= z <= len)%Z -> relIndex len (ofZ z) = z.
Proof.
  intro H. unfold relIndex, ofZ, inject_Z. simpl.
  rewrite Z.quot_1_r. destruct (Z.ltb_spec z 0); lia.
Qed.

Lemma sliceZ_spec {A : Type} (l : list A) (s e : Z) :
  (0 <= s <= e)%Z -> (e <= lengthZ l)%Z ->
  sliceZ l s e = firstn (Z.to_nat (e - s)) (skipn (Z.to_nat s) l).
Proof.
  intros H1 H2. unfold sliceZ, slice, sliceFrom.
  rewrite !relIndex_ofZ by lia. reflexivity.
Qed.

Lemma sliceZ_length {A : Type} (l : list A) (s e : Z) :
  (0 <= s <= e)%Z -> (e <= lengthZ l)%Z ->
  lengthZ (sliceZ l s e) = (e - s)%Z.
Proof.
  intros H1 H2. rewrite sliceZ_spec by assumption.
  unfold lengthZ in *. rewrite length_firstn, length_skipn. lia.
Qed.

Lemma slice_to_end {A : Type} (l : list A) (s : Z) :
  (0 <= s <= lengthZ l)%Z ->
  slice l (ofZ s) PInf = skipn (Z.to_nat s) l.
Proof.
  intro H. unfold slice, sliceFrom. rewrite relIndex_ofZ by lia. simpl.
  apply firstn_all2. unfold lengthZ in *. rewrite length_skipn. lia.
Qed.

Lemma indexed_app {A : Type} (l1 l2 : list A) :
  forall i, indexed i (l1 ++ l2) = indexed i l1 ++ indexed (i + lengthZ l1) l2.
Proof.
  induction l1 as [|x l1 IH]; intro i; simpl.
  - unfold lengthZ. simpl. now rewrite Z.add_0_r.
  - rewrite IH. do 3 f_equal. unfold lengthZ. simpl List.length. lia.
Qed.

Lemma indexed_In {A : Type} (l : list A) :
  forall i g x, In (g, x) (indexed i l) ->
    (i <= g < i + lengthZ l)%Z /\ nth_error l (Z.to_nat (g - i)) = Some x.
Proof.
  unfold lengthZ.
  induction l as [|y l IH]; intros i g x Hin; simpl in Hin; [contradiction|].
  destruct Hin as [Heq | Hin].
  - injection Heq as <- <-. simpl List.length. split; [lia|].
    now rewrite Z.sub_diag.
  - apply IH in Hin. destruct Hin as [Hr Hn]. simpl List.length.
    split; [lia|].
    replace (Z.to_nat (g - i)) with (S (Z.to_nat (g - (i + 1)))) by lia.
    exact Hn.
Qed.

Lemma halfUp_bounds (n : Z) : (0 <= n)%Z -> (0 <= halfUp n <= n)%Z.
Proof.
  intro Hn. unfold halfUp.
  pose proof (Qle_ceiling (inject_Z n / 2)) as Hup.
  pose proof (Qceiling_lt (inject_Z n / 2)) as Hlo.
  set (h := Qceiling (inject_Z n / 2)) in *.
  unfold Qle, Qlt, Qdiv, Qmult, Qinv, inject_Z in Hup, Hlo. simpl in Hup, Hlo.
  lia.
Qed.

(** ** What the canvas has drawn *)

Lemma drawnTexts_app (l1 l2 : list DrawOp) :
  drawnTexts (l1 ++ l2) = drawnTexts l1 ++ drawnTexts l2.
Proof. unfold drawnTexts. apply flat_map_app. Qed.

Lemma textsOf_app (l1 l2 : list DrawOp) :
  textsOf (l1 ++ l2) = textsOf l1 ++ textsOf l2.
Proof. unfold textsOf. apply flat_map_app. Qed.

(** ** Karaoke: the words drawn *)

Section KaraokeDrawn.

Variable measureText : Font -> string -> Q.
Variable this : VideoComposer.

Lemma drawWordsFrom_drawn (settings : CaptionSettings) (fs : Q) (idx ls : Z)
    (y : Q) (ws : list WordTiming) :
  forall i x ctx,
    drawnTexts (ops (drawWordsFrom measureText y idx ls settings fs i x ws ctx))
    = drawnTexts (ops ctx)
        ++ map (karaokeLook settings fs idx) (indexed (ls + i) ws).
Proof.
  induction ws as [|w rest IH]; intros i x ctx; simpl.
  - now rewrite app_nil_r.
  - rewrite IH. replace (ls + (i + 1))%Z with (ls + i + 1)%Z by lia.
    unfold styleOf.
    destruct (ls + i =? idx)%Z; [|destruct (ls + i <? idx)%Z];
      simpl; rewrite drawnTexts_app, <- app_assoc; reflexivity.
Qed.

Lemma drawWordLine_drawn (settings : CaptionSettings) (fs : Q) (idx ls : Z)
    (y : Q) (ws : list WordTiming) (ctx : Ctx) :
  drawnTexts (ops (drawWordLine measureText this ws y idx ls settings fs ctx))
  = drawnTexts (ops ctx) ++ map (karaokeLook settings fs idx) (indexed ls ws).
Proof.
  unfold drawWordLine. rewrite drawWordsFrom_drawn.
  now rewrite Z.add_0_r.
Qed.

Lemma karaokeWindow_bounds (len idx : Z) :
  (0 <= len)%Z ->
  let s0 := Z.max 0 (idx - 3) in
  let e := Z.min len (s0 + 8) in
  let s := if (e <? s0 + 8)%Z then Z.max 0 (e - 8) else s0 in
  karaokeWindow len idx = (s, e)
  /\ (0 <= s <= e)%Z /\ (e <= len)%Z /\ (e - s <= 8)%Z.
Proof.
  intros Hlen s0 e s.
  unfold karaokeWindow, totalWordsToShow, wordsPerLine.
  replace (idx - 4 + 1)%Z with (idx - 3)%Z by lia.
  change (4 * 2)%Z with 8%Z. fold s0. fold e. subst s.
  destruct (Z.eqb_spec e len) as [He | He];
    destruct (Z.ltb_spec (e - s0) 8) as [Hl | Hl];
    destruct (Z.ltb_spec e (s0 + 8)) as [Hl' | Hl']; simpl;
    subst e s0; try (split; [reflexivity | lia]); lia.
Qed.

Lemma drawKaraokeCaption_drawn (caption : Caption) (settings : CaptionSettings)
    (t : Q) (ctx : Ctx) (ws : list WordTiming) (s e : Z) :
  words caption = Some ws -> ws <> [] ->
  karaokeWindow (lengthZ ws) (currentWordIdx ws t) = (s, e) ->
  drawnTexts (ops (drawKaraokeCaption measureText this caption settings t ctx))
  = drawnTexts (ops ctx)
      ++ map (karaokeLook settings (getFontSize this (fontSize settings))
                (currentWordIdx ws t))
           (indexed s (sliceZ ws s e)).
Proof.
  intros Hws Hne Hwin. unfold drawKaraokeCaption. rewrite Hws.
  destruct ws as [|w0 ws']; [congruence|].
  set (full := w0 :: ws') in *. rewrite Hwin.
  assert (Hlen : (0 <= lengthZ full)%Z) by (unfold lengthZ; lia).
  destruct (karaokeWindow_bounds (lengthZ full) (currentWordIdx full t) Hlen)
    as (Hw & Hs & He & _).
  rewrite Hwin in Hw. injection Hw as Hs' He'.
  set (visible := sliceZ full s e).
  assert (Hvis : (0 <= lengthZ visible)%Z) by (unfold lengthZ; lia).
  pose proof (halfUp_bounds _ Hvis) as Hh.
  set (h := halfUp (lengthZ visible)) in *.
  assert (H1 : sliceZ visible 0 h = firstn (Z.to_nat h) visible).
  { rewrite sliceZ_spec by lia. simpl. now rewrite Z.sub_0_r. }
  assert (H2 : slice visible (ofZ h) PInf = skipn (Z.to_nat h) visible)
    by (apply slice_to_end; lia).
  rewrite H1, H2.
  assert (Hsplit : indexed s visible
                   = indexed s (firstn (Z.to_nat h) visible)
                       ++ indexed (s + lengthZ (firstn (Z.to_nat h) visible))
                            (skipn (Z.to_nat h) visible)).
  { rewrite <- indexed_app. now rewrite firstn_skipn. }
  rewrite Hsplit, map_app.
  destruct (0 <? lengthZ (skipn (Z.to_nat h) visible))%Z eqn:E2.
  - rewrite !drawWordLine_drawn. simpl. rewrite !drawnTexts_app. simpl.
    rewrite !app_nil_r, <- app_assoc. reflexivity.
  - assert (Hnil : skipn (Z.to_nat h) visible = []).
    { apply Z.ltb_ge in E2. unfold lengthZ in E2.
      destruct (skipn (Z.to_nat h) visible); [reflexivity | simpl in E2; lia]. }
    rewrite Hnil. simpl. rewrite app_nil_r.
    rewrite drawWordLine_drawn. simpl. rewrite !drawnTexts_app. simpl.
    rewrite !app_nil_r. reflexivity.
Qed.

End KaraokeDrawn.

(** ** Karaoke: the current word *)

Lemma spoken_iff (t : Q) (w : WordTiming) :
  spoken t w = true <-> w_start w <= t < w_end w.
Proof.
  unfold spoken. rewrite andb_true_iff, Qle_bool_iff, Qlt_bool_iff. tauto.
Qed.

Lemma spoken_false (t : Q) (w : WordTiming) :
  ~ (w_start w <= t < w_end w) -> spoken t w = false.
Proof.
  intro H. destruct (spoken t w) eqn:E; [|reflexivity].
  apply spoken_iff in E. contradiction.
Qed.

Section CurrentWord.

Variable t : Q.

Lemma firstSpokenFrom_range (ws : list WordTiming) :
  forall i, firstSpokenFrom t i ws = (-1)%Z
            \/ (i <= firstSpokenFrom t i ws < i + lengthZ ws)%Z.
Proof.
  unfold lengthZ.
  induction ws as [|w rest IH]; intro i; simpl; [now left|].
  destruct (spoken t w); [right; lia|].
  destruct (IH (i + 1)%Z) as [H | H]; [now left | right; lia].
Qed.

Lemma firstSpokenFrom_first (ws : list WordTiming) :
  forall i k w,
    nth_error ws k = Some w -> spoken t w = true ->
    (forall j w', (j < k)%nat -> nth_error ws j = Some w' -> spoken t w' = false) ->
    firstSpokenFrom t i ws = (i + Z.of_nat k)%Z.
Proof.
  induction ws as [|w0 rest IH]; intros i k w Hk Hw Hbefore.
  - destruct k; discriminate.
  - destruct k as [|k]; simpl in *.
    + injection Hk as ->. rewrite Hw. lia.
    + rewrite (Hbefore 0%nat w0) by (reflexivity || lia).
      rewrite (IH (i + 1)%Z k w Hk Hw); [lia|].
      intros j w' Hj Hw'. apply (Hbefore (S j)); [lia | exact Hw'].
Qed.

Lemma firstSpokenFrom_none (ws : list WordTiming) :
  (forall k w, nth_error ws k = Some w -> spoken t w = false) ->
  forall i, firstSpokenFrom t i ws = (-1)%Z.
Proof.
  induction ws as [|w0 rest IH]; intros Hnone i; simpl; [reflexivity|].
  rewrite (Hnone 0%nat w0 eq_refl). apply IH.
  intros k w Hk. apply (Hnone (S k)). exact Hk.
Qed.

Lemma lastEndedFrom_range (rws : list WordTiming) :
  forall i, lastEndedFrom t i rws = (-1)%Z
            \/ (i - lengthZ rws < lastEndedFrom t i rws <= i)%Z.
Proof.
  unfold lengthZ.
  induction rws as [|w rest IH]; intro i; simpl; [now left|].
  destruct (Qle_bool (w_end w) t); [right; lia|].
  destruct (IH (i - 1)%Z) as [H | H]; [now left | right; lia].
Qed.

Lemma lastEndedFrom_first (rws : list WordTiming) :
  forall i m w,
    nth_error rws m = Some w -> w_end w <= t ->
    (forall j w', (j < m)%nat -> nth_error rws j = Some w' -> t < w_end w') ->
    lastEndedFrom t i rws = (i - Z.of_nat m)%Z.
Proof.
  induction rws as [|w0 rest IH]; intros i m w Hm Hw Hbefore.
  - destruct m; discriminate.
  - destruct m as [|m]; simpl in *.
    + injection Hm as ->. rewrite (proj2 (Qle_bool_iff _ _) Hw). lia.
    + rewrite (proj2 (Qle_bool_false _ _) (Hbefore 0%nat w0 ltac:(lia) eq_refl)).
      rewrite (IH (i - 1)%Z m w Hm Hw); [lia|].
      intros j w' Hj Hw'. apply (Hbefore (S j)); [lia | exact Hw'].
Qed.

Lemma lastEndedFrom_none (rws : list WordTiming) :
  (forall k w, nth_error rws k = Some w -> t < w_end w) ->
  forall i, lastEndedFrom t i rws = (-1)%Z.
Proof.
  induction rws as [|w0 rest IH]; intros Hnone i; simpl; [reflexivity|].
  rewrite (proj2 (Qle_bool_false _ _) (Hnone 0%nat w0 eq_refl)). apply IH.
  intros k w Hk. apply (Hnone (S k)). exact Hk.
Qed.

Lemma currentWordIdx_range (ws : list WordTiming) :
  (-1 <= currentWordIdx ws t < Z.max 1 (lengthZ ws))%Z
  /\ (ws <> [] -> (currentWordIdx ws t < lengthZ ws)%Z).
Proof.
  unfold currentWordIdx.
  pose proof (firstSpokenFrom_range ws 0) as H1.
  pose proof (lastEndedFrom_range (rev ws) (lengthZ ws - 1)) as H2.
  assert (Hrev : lengthZ (rev ws) = lengthZ ws)
    by (unfold lengthZ; now rewrite length_rev).
  rewrite Hrev in H2.
  assert (Hlen : ws <> [] -> (0 < lengthZ ws)%Z).
  { destruct ws; [congruence|]. unfold lengthZ. simpl List.length. lia. }
  assert (Hlen0 : (0 <= lengthZ ws)%Z) by (unfold lengthZ; lia).
  destruct (Z.eqb_spec (firstSpokenFrom t 0 ws) (-1)); split; try intro Hne;
    try specialize (Hlen Hne); lia.
Qed.

(** The first word being spoken is the current one. *)
Lemma currentWordIdx_spoken (ws : list WordTiming) (k : nat) (w : WordTiming) :
  nth_error ws k = Some w -> spoken t w = true ->
  (forall j w', (j < k)%nat -> nth_error ws j = Some w' -> spoken t w' = false) ->
  currentWordIdx ws t = Z.of_nat k.
Proof.
  intros Hk Hw Hbefore. unfold currentWordIdx.
  rewrite (firstSpokenFrom_first ws 0 k w Hk Hw Hbefore). simpl.
  destruct (Z.eqb_spec (Z.of_nat k) (-1)); [lia | reflexivity].
Qed.

(** In a gap, the last word that has ended is the current one. *)
Lemma currentWordIdx_gap (ws : list WordTiming) (k : nat) (w : WordTiming) :
  (forall j w', nth_error ws j = Some w' -> spoken t w' = false) ->
  nth_error ws k = Some w -> w_end w <= t ->
  (forall j w', (k < j)%nat -> nth_error ws j = Some w' -> t < w_end w') ->
  currentWordIdx ws t = Z.of_nat k.
Proof.
  intros Hnone Hk Hw Hafter. unfold currentWordIdx.
  rewrite (firstSpokenFrom_none ws Hnone). simpl.
  assert (Hlt : (k < List.length ws)%nat)
    by (apply nth_error_Some; congruence).
  rewrite (lastEndedFrom_first (rev ws) (lengthZ ws - 1)
             (List.length ws - 1 - k) w).
  - unfold lengthZ. lia.
  - rewrite nth_error_rev.
    destruct (Nat.ltb_spec (List.length ws - 1 - k) (List.length ws)); [|lia].
    replace (List.length ws - S (List.length ws - 1 - k))%nat with k by lia.
    exact Hk.
  - exact Hw.
  - intros j w' Hj Hw'. rewrite nth_error_rev in Hw'.
    destruct (Nat.ltb_spec j (List.length ws)); [|discriminate].
    apply (Hafter (List.length ws - S j)%nat w'); [lia | exact Hw'].
Qed.

(** Before every word, no word is current. *)
Lemma currentWordIdx_before (ws : list WordTiming) :
  (forall j w', nth_error ws j = Some w' -> spoken t w' = false) ->
  (forall j w', nth_error ws j = Some w' -> t < w_end w') ->
  currentWordIdx ws t = (-1)%Z.
Proof.
  intros Hnone Hnot. unfold currentWordIdx.
  rewrite (firstSpokenFrom_none ws Hnone). simpl.
  apply lastEndedFrom_none.
  intros k w Hk. rewrite nth_error_rev in Hk.
  destruct (Nat.ltb_spec k (List.length ws)); [|discriminate].
  eapply Hnot; eauto.
Qed.

End CurrentWord.

Lemma indexed_slice_item {A : Type} (l : list A) (s e g : Z) (x : A) :
  (0 <= s <= e)%Z -> (e <= lengthZ l)%Z ->
  In (g, x) (indexed s (sliceZ l s e)) ->
  (s <= g < e)%Z /\ item l g = Some x.
Proof.
  intros Hs He Hin. apply indexed_In in Hin. destruct Hin as [Hr Hn].
  rewrite sliceZ_length in Hr by assumption.
  split; [lia|].
  rewrite sliceZ_spec in Hn by assumption.
  rewrite nth_error_firstn in Hn.
  destruct (Nat.ltb_spec (Z.to_nat (g - s)) (Z.to_nat (e - s))); [|discriminate].
  rewrite nth_error_skipn in Hn. unfold item.
  destruct (Z.ltb_spec g 0); [lia|].
  replace (Z.to_nat g) with (Z.to_nat s + Z.to_nat (g - s))%nat by lia.
  exact Hn.
Qed.

Section Karaoke.

Variable measureText : Font -> string -> Q.
Variable this : VideoComposer.

(** C4. For a caption with word timings [ws] and any time [t], with [i] the
    current word index that the selection step yields (-1 when nothing
    matches), the visible window is [s, e) with
    [e = min(len, max(0, i-3) + 8)] and [s = max(0, i-3)], moved back to
    [max(0, e-8)] when the end of the list cut the window short. It lies
    within [0, len], holds at most 8 words, and the words drawn are exactly
    the words of indices [s .. e-1]: every index used is within [0, len). *)
Theorem karaoke_window_bounded (caption : Caption) (settings : CaptionSettings)
    (t : Q) (ctx : Ctx) (ws : list WordTiming) :
  words caption = Some ws -> ws <> [] ->
  let len := lengthZ ws in
  let i := currentWordIdx ws t in
  let s0 := Z.max 0 (i - 3) in
  let e := Z.min len (s0 + 8) in
  let s := if (e <? s0 + 8)%Z then Z.max 0 (e - 8) else s0 in
  let visible := sliceZ ws s e in
  (-1 <= i < len)%Z
  /\ karaokeWindow len i = (s, e)
  /\ (0 <= s <= e)%Z /\ (e <= len)%Z /\ (e - s <= 8)%Z
  /\ lengthZ visible = (e - s)%Z
  /\ (forall g w, In (g, w) (indexed s visible) ->
        (0 <= g < len)%Z /\ (s <= g < e)%Z /\ item ws g = Some w)
  /\ drawnTexts (ops (drawKaraokeCaption measureText this caption settings t ctx))
     = drawnTexts (ops ctx)
         ++ map (karaokeLook settings (getFontSize this (fontSize settings)) i)
              (indexed s visible)
  /\ (List.length (indexed s visible) <= 8)%nat.
Proof.
  intros Hws Hne len i s0 e s visible.
  assert (Hlen : (0 <= len)%Z) by (unfold len, lengthZ; lia).
  destruct (karaokeWindow_bounds len i Hlen) as (Hwin & Hs & He & H8).
  fold s0 in Hwin, Hs, He, H8. fold e in Hwin, Hs, He, H8.
  fold s in Hwin, Hs, H8.
  pose proof (currentWordIdx_range t ws) as [Hi Hi'].
  specialize (Hi' Hne). fold i in Hi, Hi'. fold len in Hi'.
  assert (Hvis : lengthZ visible = (e - s)%Z)
    by (apply sliceZ_length; assumption).
  split; [lia|]. split; [exact Hwin|]. split; [exact Hs|].
  split; [exact He|]. split; [exact H8|]. split; [exact Hvis|].
  split.
  { intros g w Hin.
    destruct (indexed_slice_item ws s e g w Hs He Hin) as [Hg Hit].
    repeat split; try lia. exact Hit. }
  split.
  { apply drawKaraokeCaption_drawn; assumption. }
  assert (Hil : forall (l : list WordTiming) k,
             List.length (indexed k l) = List.length l).
  { induction l as [|x l IH]; intro k; simpl; [reflexivity | now rewrite IH]. }
  rewrite Hil. unfold lengthZ in Hvis. lia.
Qed.

(** C5. In the karaoke template at time [t], the current word index is the
    index of the word whose [start, end) contains [t]: the one such word
    when there is exactly one, the first in general; with no such word it
    is the greatest index of a word that ended by [t]. The words of the
    window are drawn with the word of that index enlarged in the highlight
    colour, those before it in the foreground colour, those after it
    dimmed. For the words Hello [0, 0.5) and world [0.5, 1.2) at t = 0.3
    the index is 0: Hello is highlighted and world is dimmed. *)
Theorem karaoke_current_word (caption : Caption) (settings : CaptionSettings)
    (t : Q) (ctx : Ctx) (ws : list WordTiming) :
  words caption = Some ws -> ws <> [] ->
  let i := currentWordIdx ws t in
  let fs := getFontSize this (fontSize settings) in
  (forall k w, nth_error ws k = Some w -> w_start w <= t < w_end w ->
     (forall j w', nth_error ws j = Some w' -> w_start w' <= t < w_end w' ->
        j = k) ->
     i = Z.of_nat k)
  /\ (forall k w, nth_error ws k = Some w -> w_start w <= t < w_end w ->
        (forall j w', (j < k)%nat -> nth_error ws j = Some w' ->
           ~ (w_start w' <= t < w_end w')) ->
        i = Z.of_nat k)
  /\ (forall k w,
        (forall j w', nth_error ws j = Some w' ->
           ~ (w_start w' <= t < w_end w')) ->
        nth_error ws k = Some w -> w_end w <= t ->
        (forall j w', (k < j)%nat -> nth_error ws j = Some w' -> t < w_end w') ->
        i = Z.of_nat k)
  /\ (exists s e,
        karaokeWindow (lengthZ ws) i = (s, e)
        /\ drawnTexts
             (ops (drawKaraokeCaption measureText this caption settings t ctx))
           = drawnTexts (ops ctx)
               ++ map (karaokeLook settings fs i) (indexed s (sliceZ ws s e))
        /\ forall g w, In (g, w) (indexed s (sliceZ ws s e)) ->
             karaokeLook settings fs i (g, w)
             = if (g =? i)%Z then (word w, "#FFD700"%string, fs * 1.1)
               else if (g <? i)%Z then (word w, textColor settings, fs)
               else (word w, "rgba(255, 255, 255, 0.5)"%string, fs))
  /\ (map word ws = ["Hello"%string; "world"%string] ->
      map w_start ws = [0; 0.5] -> map w_end ws = [0.5; 1.2] -> t = 0.3 ->
      i = 0%Z
      /\ drawnTexts
           (ops (drawKaraokeCaption measureText this caption settings t ctx))
         = drawnTexts (ops ctx)
             ++ [("Hello"%string, "#FFD700"%string, fs * 1.1);
                 ("world"%string, "rgba(255, 255, 255, 0.5)"%string, fs)]).
Proof.
  intros Hws Hne i fs.
  pose proof (spoken_iff t) as Hsp. pose proof (spoken_false t) as Hnsp.
  split.
  { intros k w Hk Hw Huniq. apply (currentWordIdx_spoken t ws k w Hk).
    - now apply Hsp.
    - intros j w' Hj Hw'. apply Hnsp. intro Hc.
      specialize (Huniq j w' Hw' Hc). lia. }
  split.
  { intros k w Hk Hw Hfirst. apply (currentWordIdx_spoken t ws k w Hk).
    - now apply Hsp.
    - intros j w' Hj Hw'. apply Hnsp. now apply (Hfirst j). }
  split.
  { intros k w Hnone Hk Hw Hafter. apply (currentWordIdx_gap t ws k w); auto.
    intros j w' Hj. apply Hnsp. now apply (Hnone j). }
  split.
  { destruct (karaokeWindow (lengthZ ws) i) as [s e] eqn:Hwin.
    exists s, e. split; [reflexivity|]. split.
    - now apply drawKaraokeCaption_drawn.
    - intros g w _. reflexivity. }
  intros Hwords Hstarts Hends Ht.
  destruct ws as [|[w1 s1 e1] [|[w2 s2 e2] [|w3 rest]]]; try discriminate.
  simpl in Hwords, Hstarts, Hends.
  injection Hwords as -> ->. injection Hstarts as -> ->.
  injection Hends as -> ->.
  assert (Hi : i = 0%Z) by (unfold i; rewrite Ht; reflexivity).
  split; [exact Hi|].
  rewrite (drawKaraokeCaption_drawn measureText this caption settings t ctx
             _ 0%Z 2%Z Hws Hne).
  - fold i. rewrite Hi. reflexivity.
  - fold i. rewrite Hi. reflexivity.
Qed.

End Karaoke.

(** ** Arithmetic of numbers that are integers *)

Lemma add_ofZ (a b : Z) : add (ofZ a) (ofZ b) = ofZ (a + b).
Proof.
  unfold add, ofZ, inject_Z, Qplus. simpl. do 2 f_equal. lia.
Qed.

Lemma sub_ofZ (a b : Z) : sub (ofZ a) (ofZ b) = ofZ (a - b).
Proof.
  unfold sub, neg, add, ofZ, inject_Z, Qplus, Qopp. simpl. do 2 f_equal. lia.
Qed.

Lemma lt_ofZ (a b : Z) : lt (ofZ a) (ofZ b) = (a <? b)%Z.
Proof.
  unfold lt, ofZ.
  destruct (Z.ltb_spec a b) as [H | H].
  - apply Qlt_bool_iff. now rewrite <- Zlt_Qlt.
  - apply Qlt_bool_false. now rewrite <- Zle_Qle.
Qed.

Lemma min_ofZ (a b : Z) : min (ofZ a) (ofZ b) = ofZ (Z.min a b).
Proof.
  unfold min. change (Fin (inject_Z ?x)) with (ofZ x).
  unfold ofZ at 1 2. fold (ofZ a). fold (ofZ b). rewrite lt_ofZ.
  destruct (Z.ltb_spec b a); f_equal; lia.
Qed.

Lemma max_ofZ (a b : Z) : max (ofZ a) (ofZ b) = ofZ (Z.max a b).
Proof.
  unfold max. unfold ofZ at 1 2. fold (ofZ a). fold (ofZ b). rewrite lt_ofZ.
  destruct (Z.ltb_spec a b); f_equal; lia.
Qed.

Lemma Qfloor_range (x : Q) (n : Z) :
  0 <= x -> x < inject_Z n -> (0 <= Qfloor x < n)%Z.
Proof.
  intros H0 Hn. split.
  - change 0%Z with (Qfloor 0). now apply Qfloor_resp_le.
  - rewrite Zlt_Qlt. eapply Qle_lt_trans; [apply Qfloor_le | exact Hn].
Qed.

Lemma Qceiling_range (x : Q) (n : Z) :
  0 <= x -> x <= inject_Z n -> (0 <= Qceiling x <= n)%Z.
Proof.
  intros H0 Hn. split.
  - change 0%Z with (Qceiling 0). now apply Qceiling_resp_le.
  - rewrite <- (Qceiling_Z n). now apply Qceiling_resp_le.
Qed.

(** ** Progress through the caption that is shown *)

Lemma shownAt_span (t : Q) (c : Caption) :
  shownAt t c = true <-> startTime c <= t < endTime c.
Proof.
  unfold shownAt. rewrite andb_true_iff, Qle_bool_iff, Qlt_bool_iff. tauto.
Qed.

Lemma Qdiv_unit_range (a b : Q) : 0 <= a -> a < b -> 0 <= a / b /\ a / b < 1.
Proof.
  intros Ha Hb. assert (Hpos : 0 < b) by lra. split.
  - apply Qle_shift_div_l; [exact Hpos | lra].
  - apply Qlt_shift_div_r; [exact Hpos | lra].
Qed.

Lemma captionProgress_span (c : Caption) (t : Q) :
  startTime c <= t < endTime c ->
  let p := (t - startTime c) / (endTime c - startTime c) in
  captionProgress c t = Fin p /\ 0 <= p /\ p < 1.
Proof.
  intros [H1 H2] p. split.
  - unfold captionProgress. apply div_pos. lra.
  - apply Qdiv_unit_range; lra.
Qed.

Lemma scaled_progress_range (p : Q) (n : Z) :
  0 <= p -> p < 1 -> (0 < n)%Z ->
  0 <= p * inject_Z n /\ p * inject_Z n < inject_Z n.
Proof.
  intros H0 H1 Hn.
  assert (Hq : 0 < inject_Z n)
    by (change 0 with (inject_Z 0); now rewrite <- Zlt_Qlt).
  split; nra.
Qed.

(** ** Word by word *)

Lemma find_first {A : Type} (f : A -> bool) (l : list A) :
  forall k x,
    nth_error l k = Some x -> f x = true ->
    (forall j y, (j < k)%nat -> nth_error l j = Some y -> f y = false) ->
    find f l = Some x.
Proof.
  induction l as [|a l IH]; intros k x Hk Hx Hbefore.
  - destruct k; discriminate.
  - destruct k as [|k]; simpl in *.
    + injection Hk as ->. now rewrite Hx.
    + rewrite (Hbefore 0%nat a) by (reflexivity || lia).
      apply (IH k x Hk Hx). intros j y Hj Hy. apply (Hbefore (S j)); [lia|exact Hy].
Qed.

Lemma find_all_false {A : Type} (f : A -> bool) (l : list A) :
  (forall j y, nth_error l j = Some y -> f y = false) -> find f l = None.
Proof.
  induction l as [|a l IH]; intro H; simpl; [reflexivity|].
  rewrite (H 0%nat a eq_refl). apply IH. intros j y Hj. now apply (H (S j)).
Qed.

Lemma splitRuns_length (s : string) :
  forall inRun, (0 < lengthZ (splitRuns inRun s))%Z.
Proof.
  unfold lengthZ.
  induction s as [|c rest IH]; intro inRun; simpl; [lia|].
  destruct (isSpace c).
  - destruct inRun; [apply IH | simpl List.length; lia].
  - specialize (IH false). destruct (splitRuns false rest); simpl in *; lia.
Qed.

Lemma split_length (sep : ascii) (s : string) : (0 < lengthZ (split sep s))%Z.
Proof.
  unfold lengthZ.
  induction s as [|c rest IH]; simpl; [lia|].
  destruct (Ascii.eqb c sep); [simpl List.length; lia|].
  destruct (split sep rest); simpl in *; lia.
Qed.

Lemma nonEmpty_toUpperCase (s : string) :
  nonEmpty (toUpperCase s) = nonEmpty s.
Proof. destruct s; reflexivity. Qed.

Lemma item_Some {A : Type} (l : list A) (k : Z) :
  (0 <= k < lengthZ l)%Z -> exists x, item l k = Some x.
Proof.
  intro H. unfold item, lengthZ in *. destruct (Z.ltb_spec k 0); [lia|].
  destruct (nth_error l (Z.to_nat k)) eqn:E; [eauto|].
  apply nth_error_None in E. lia.
Qed.

Lemma wordAt_ofZ (ws : list string) (k : Z) (w : string) :
  item ws k = Some w -> wordAt ws (ofZ k) = w.
Proof.
  intro H. unfold wordAt, ofZ. rewrite Qfloor_Z.
  rewrite (proj2 (Qeq_bool_iff _ _) (Qeq_refl _)). now rewrite H.
Qed.

Section WordByWord.

Variable this : VideoComposer.

Lemma drawWordByWordCaption_drawn (caption : Caption)
    (settings : CaptionSettings) (t : Q) (ctx : Ctx) :
  drawnTexts (ops (drawWordByWordCaption this caption settings t ctx))
  = drawnTexts (ops ctx)
      ++ (if nonEmpty (currentWordOf caption t)
          then [(currentWordOf caption t, textColor settings,
                 getFontSize this (fontSize settings) * 2)]
          else []).
Proof.
  unfold drawWordByWordCaption.
  destruct (nonEmpty (currentWordOf caption t)); simpl.
  - now rewrite drawnTexts_app.
  - now rewrite app_nil_r.
Qed.

(** The index that the fallback picks lies in the word list. *)
Lemma fallbackWordIdx_span (caption : Caption) (t : Q) (n : Z) :
  startTime caption <= t < endTime caption -> (0 < n)%Z ->
  let p := (t - startTime caption) / (endTime caption - startTime caption) in
  let k := Qfloor (p * inject_Z n) in
  fallbackWordIdx caption t n = ofZ k /\ (0 <= k < n)%Z
  /\ min (ofZ k) (ofZ (n - 1)) = ofZ k.
Proof.
  intros Hspan Hn p k.
  destruct (captionProgress_span caption t Hspan) as (Hp & H0 & H1).
  fold p in Hp, H0, H1.
  destruct (scaled_progress_range p n H0 H1 Hn) as [Ha Hb].
  pose proof (Qfloor_range _ _ Ha Hb) as Hk. fold k in Hk.
  split; [|split; [exact Hk|]].
  - unfold fallbackWordIdx. rewrite Hp. reflexivity.
  - rewrite min_ofZ. f_equal. lia.
Qed.

End WordByWord.

Section WordByWordClaims.

Variable this : VideoComposer.


End WordByWordClaims.


(** ** Sentence and minimal *)

Lemma substring_length (m : nat) :
  forall s, (String.length (String.substring 0 m s) <= m)%nat.
Proof.
  induction m as [|m IH]; intros [|c s]; simpl; try lia.
  specialize (IH s). lia.
Qed.

Section Wrapping.

Variable measureText : Font -> string -> Q.
Variable f : Font.
Variable maxWidth : Q.

Lemma greedyLoop_prefix (ws : list string) :
  forall lines cur, exists more,
    greedyLoop measureText f maxWidth ws lines cur = lines ++ more.
Proof.
  induction ws as [|word rest IH]; intros lines cur; simpl.
  - destruct (nonEmpty cur); [eauto | exists []; now rewrite app_nil_r].
  - match goal with |- context [if ?b then _ else _] => destruct b end.
    + destruct (IH (lines ++ [cur]) word) as [more Hm].
      exists (cur :: more). rewrite Hm, <- app_assoc. reflexivity.
    + apply IH.
Qed.

(** The loop of the source, then its last push, keep the first two lines
    of the greedy wrapping. *)
Lemma wrapLoop_greedy (ws : list string) :
  forall lines cur, (List.length lines < 2)%nat ->
    (let '(L, c) := wrapLoop measureText f maxWidth ws lines cur in
     if nonEmpty c && (List.length L <? 2)%nat then L ++ [c] else L)
    = firstn 2 (greedyLoop measureText f maxWidth ws lines cur).
Proof.
  induction ws as [|word rest IH]; intros lines cur Hlen;
    cbn [wrapLoop greedyLoop].
  - apply Nat.ltb_lt in Hlen as Hb. rewrite Hb, andb_true_r.
    destruct (nonEmpty cur); symmetry; apply firstn_all2;
      rewrite ?length_app; simpl; lia.
  - match goal with |- context [if ?b then _ else _] => destruct b end.
    + destruct (Nat.leb_spec 2 (List.length (lines ++ [cur]))) as [H2 | H2].
      * assert (Hl : List.length (lines ++ [cur]) = 2%nat)
          by (rewrite length_app in *; simpl in *; lia).
        rewrite Hl. simpl Nat.ltb. rewrite andb_false_r.
        destruct (greedyLoop_prefix rest (lines ++ [cur]) word) as [more Hm].
        rewrite Hm, <- Hl, firstn_app, firstn_all, Nat.sub_diag. simpl.
        now rewrite app_nil_r.
      * apply IH. exact H2.
    + apply IH. exact Hlen.
Qed.

Lemma wrapLines_greedy (visibleText : string) :
  wrapLines measureText f maxWidth visibleText
  = firstn 2 (greedyWrap measureText f maxWidth visibleText).
Proof.
  unfold wrapLines, greedyWrap.
  pose proof (wrapLoop_greedy (split " " visibleText) [] EmptyString) as H.
  simpl List.length in H. specialize (H ltac:(lia)).
  destruct (wrapLoop measureText f maxWidth (split " " visibleText) []
              EmptyString) as [L c].
  exact H.
Qed.

End Wrapping.

Section SentenceMinimal.

Variable measureText : Font -> string -> Q.
Variable this : VideoComposer.

Lemma drawLines_texts (n : Z) (y lineHeight : Q) (lines : list string) :
  forall i ctx,
    textsOf (ops (drawLines this n y lineHeight i lines ctx))
    = textsOf (ops ctx) ++ lines.
Proof.
  induction lines as [|line rest IH]; intros i ctx; simpl.
  - now rewrite app_nil_r.
  - rewrite IH. simpl. rewrite textsOf_app, <- app_assoc. reflexivity.
Qed.

(** C7. For every caption, settings and time, the sentence template draws
    the first two lines of the greedy wrapping of the visible text, hence at
    most two lines, the words of any further line being left out; the
    minimal template draws one text, of at most 50 characters. *)
Theorem sentence_two_lines_minimal_fifty (caption : Caption)
    (settings : CaptionSettings) (t : Q) (ctx : Ctx) :
  let font := boldFont (getFontSize this (fontSize settings)) settings in
  let maxWidth := width this * 0.85 in
  let lines := wrapLines measureText font maxWidth (sentenceText caption t) in
  textsOf (ops (drawSentenceCaption measureText this caption settings t ctx))
  = textsOf (ops ctx) ++ lines
  /\ lines = firstn 2 (greedyWrap measureText font maxWidth
                         (sentenceText caption t))
  /\ (List.length lines <= 2)%nat
  /\ textsOf (ops (drawMinimalCaption this caption settings t ctx))
     = textsOf (ops ctx) ++ [minimalText caption t]
  /\ (String.length (minimalText caption t) <= 50)%nat.
Proof.
  intros font maxWidth lines.
  assert (Hg : lines = firstn 2 (greedyWrap measureText font maxWidth
                                   (sentenceText caption t)))
    by apply wrapLines_greedy.
  split.
  { unfold drawSentenceCaption. rewrite drawLines_texts. simpl.
    rewrite !textsOf_app. simpl. rewrite !app_nil_r. reflexivity. }
  split; [exact Hg|]. split; [rewrite Hg; apply firstn_le_length|].
  split.
  { unfold drawMinimalCaption. simpl. rewrite textsOf_app. reflexivity. }
  unfold minimalText.
  destruct (minimalWindow _ _) as [s e]. apply substring_length.
Qed.

End SentenceMinimal.

(** ** Indices derived from the progress *)

Lemma sentenceWindow_finite (n : Z) (p : Q) :
  let e := Z.min n (Qceiling (p * inject_Z n) + 4) in
  sentenceWindow n (Fin p) = (ofZ (Z.max 0 (e - 8)), ofZ e).
Proof.
  intro e. unfold sentenceWindow.
  change (ceil (mul (Fin p) (ofZ n))) with (ofZ (Qceiling (p * inject_Z n))).
  rewrite add_ofZ, min_ofZ. fold e. now rewrite sub_ofZ, max_ofZ.
Qed.

Lemma minimalWindow_finite (n : Z) (p : Q) :
  let e := Z.min n (Qceiling (p * inject_Z n) + 3) in
  minimalWindow n (Fin p) = (ofZ (Z.max 0 (e - 6)), ofZ e).
Proof.
  intro e. unfold minimalWindow.
  change (ceil (mul (Fin p) (ofZ n))) with (ofZ (Qceiling (p * inject_Z n))).
  rewrite add_ofZ, min_ofZ. fold e. now rewrite sub_ofZ, max_ofZ.
Qed.

Lemma window_in_bounds (n c back : Z) :
  (0 < n)%Z -> (0 <= c)%Z -> (0 <= back)%Z ->
  let e := Z.min n c in
  let s := Z.max 0 (e - back) in
  (0 <= s <= e)%Z /\ (e <= n)%Z.
Proof. intros Hn Hc Hb e s. subst s e. lia. Qed.

Section SelectedCaption.

Variable measureText : Font -> string -> Q.
Variable this : VideoComposer.

(** C10. The caption that drawFrame selects at time [t] has
    [startTime <= t < endTime], so [endTime - startTime] is positive: the
    progress that the sentence, minimal and word-by-word fallback paths
    compute is the quotient by that positive length and lies in [0, 1); the
    sentence and minimal windows are integers with
    [0 <= start <= end <= length], so that the slice is the words from
    [start] to [end - 1], and the fallback word index lies in
    [0, length). *)
Theorem selected_caption_progress (captions : list Caption) (t : Q)
    (caption : Caption) :
  find (shownAt t) captions = Some caption ->
  let d := endTime caption - startTime caption in
  let p := (t - startTime caption) / d in
  (forall img settings ctx,
      drawFrame measureText this (Some img) captions settings t ctx
      = (drawCaption measureText this caption settings t
           (drawImageCover this img
              (fillRect 0 0 (width this) (height this)
                 (setFillStyle "#000000" ctx))), None))
  /\ startTime caption <= t < endTime caption
  /\ 0 < d
  /\ captionProgress caption t = Fin p /\ 0 <= p /\ p < 1
  /\ (let ws := split " " (text caption) in
      exists s e,
        sentenceWindow (lengthZ ws) (captionProgress caption t) = (ofZ s, ofZ e)
        /\ (0 <= s <= e)%Z /\ (e <= lengthZ ws)%Z
        /\ slice ws (ofZ s) (ofZ e)
           = firstn (Z.to_nat (e - s)) (skipn (Z.to_nat s) ws))
  /\ (let ws := split " " (text caption) in
      exists s e,
        minimalWindow (lengthZ ws) (captionProgress caption t) = (ofZ s, ofZ e)
        /\ (0 <= s <= e)%Z /\ (e <= lengthZ ws)%Z
        /\ slice ws (ofZ s) (ofZ e)
           = firstn (Z.to_nat (e - s)) (skipn (Z.to_nat s) ws))
  /\ (let ws := splitWhitespace (text caption) in
      exists k,
        fallbackWordIdx caption t (lengthZ ws) = ofZ k
        /\ (0 <= k < lengthZ ws)%Z
        /\ min (ofZ k) (ofZ (lengthZ ws - 1)) = ofZ k
        /\ exists w, item ws k = Some w).
Proof.
  intros Hfind d p.
  assert (Hspan : startTime caption <= t < endTime caption).
  { apply find_some in Hfind. apply shownAt_span. apply Hfind. }
  destruct (captionProgress_span caption t Hspan) as (Hp & H0 & H1).
  fold d in Hp, H0, H1. fold p in Hp, H0, H1.
  split.
  { intros img settings ctx. unfold drawFrame. now rewrite Hfind. }
  split; [exact Hspan|]. split; [unfold d; lra|].
  split; [exact Hp|]. split; [exact H0|]. split; [exact H1|].
  assert (Hceil : forall n, (0 < n)%Z -> (0 <= Qceiling (p * inject_Z n))%Z).
  { intros n Hn. destruct (scaled_progress_range p n H0 H1 Hn) as [Ha Hb].
    apply (Qceiling_range _ n Ha). lra. }
  split; [|split].
  - intro ws. pose proof (split_length " " (text caption)) as Hn. fold ws in Hn.
    rewrite Hp, sentenceWindow_finite.
    destruct (window_in_bounds (lengthZ ws)
                (Qceiling (p * inject_Z (lengthZ ws)) + 4) 8 Hn)
      as [Hs He]; [specialize (Hceil _ Hn); lia | lia |].
    eexists _, _. split; [reflexivity|]. split; [exact Hs|]. split; [exact He|].
    apply (sliceZ_spec ws); assumption.
  - intro ws. pose proof (split_length " " (text caption)) as Hn. fold ws in Hn.
    rewrite Hp, minimalWindow_finite.
    destruct (window_in_bounds (lengthZ ws)
                (Qceiling (p * inject_Z (lengthZ ws)) + 3) 6 Hn)
      as [Hs He]; [specialize (Hceil _ Hn); lia | lia |].
    eexists _, _. split; [reflexivity|]. split; [exact Hs|]. split; [exact He|].
    apply (sliceZ_spec ws); assumption.
  - intro ws. pose proof (splitRuns_length (text caption) false) as Hn.
    fold (splitWhitespace (text caption)) in Hn. fold ws in Hn.
    destruct (fallbackWordIdx_span caption t (lengthZ ws) Hspan Hn)
      as (Hidx & Hk & Hmin).
    eexists. split; [exact Hidx|]. split; [exact Hk|]. split; [exact Hmin|].
    apply item_Some. exact Hk.
Qed.

End SelectedCaption.

(** ** Cover scaling *)

Lemma Qdiv_pos (a b : Q) : 0 < a -> 0 < b -> 0 < a / b.
Proof.
  intros Ha Hb. apply Qlt_shift_div_l; [exact Hb | lra].
Qed.

Lemma Qhalf (x : Q) : x / 2 == x * (1 # 2).
Proof. field. Qed.

Lemma div_two (a : Q) : div (Fin a) (Fin 2) = Fin (a / 2).
Proof. apply div_pos. reflexivity. Qed.

Section Cover.

Variable this : VideoComposer.
Hypothesis width_pos : 0 < width this.
Hypothesis height_pos : 0 < height this.

Variable img : Image.
Hypothesis img_width_pos : 0 < img_width img.
Hypothesis img_height_pos : 0 < img_height img.

Let W := width this.
Let H := height this.
Let A := img_width img / img_height img.

Lemma coverRect_wide :
  W / H < A ->
  coverRect this img
  = {| drawX := Fin ((W + - (H * A)) / 2); drawY := Fin 0;
       drawWidth := Fin (H * A); drawHeight := Fin H |}.
Proof.
  intro Hw. unfold coverRect.
  rewrite (div_pos _ _ img_height_pos), (div_pos _ _ height_pos).
  fold W H A. unfold gt, lt. rewrite (proj2 (Qlt_bool_iff _ _) Hw).
  cbn [mul sub add neg]. now rewrite div_two.
Qed.

Lemma coverRect_tall :
  A <= W / H ->
  coverRect this img
  = {| drawX := Fin 0; drawY := Fin ((H + - (W / A)) / 2);
       drawWidth := Fin W; drawHeight := Fin (W / A) |}.
Proof.
  intro Hw. unfold coverRect.
  rewrite (div_pos _ _ img_height_pos), (div_pos _ _ height_pos).
  fold W H A. unfold gt, lt. rewrite (proj2 (Qlt_bool_false _ _) Hw).
  assert (HA : 0 < A) by (apply Qdiv_pos; assumption).
  rewrite (div_pos _ _ HA). cbn [sub add neg]. now rewrite div_two.
Qed.

Lemma cover_facts :
  exists x y w h : Q,
    coverRect this img
    = {| drawX := Fin x; drawY := Fin y;
         drawWidth := Fin w; drawHeight := Fin h |}
    /\ (W / H < A -> h == H /\ y == 0 /\ x + w / 2 == W / 2)
    /\ (A <= W / H -> w == W /\ x == 0 /\ y + h / 2 == H / 2)
    /\ x <= 0 /\ y <= 0 /\ W <= x + w /\ H <= y + h
    /\ 0 < w /\ 0 < h
    /\ w * img_height img == h * img_width img.
Proof.
  assert (HA : 0 < A) by (apply Qdiv_pos; assumption).
  pose proof width_pos as HW0. fold W in HW0.
  pose proof height_pos as HH0. fold H in HH0.
  assert (HWH : H * (W / H) == W) by (apply Qmult_div_r; lra).
  assert (HAI : img_height img * A == img_width img)
    by (apply Qmult_div_r; lra).
  assert (HWA : A * (W / A) == W) by (apply Qmult_div_r; lra).
  set (q := W / H) in *. set (r := W / A) in *.
  destruct (Qlt_le_dec q A) as [Hw | Ht].
  - exists ((W + - (H * A)) / 2), 0, (H * A), H.
    split; [apply coverRect_wide; exact Hw|].
    split; [intros _; repeat split; try reflexivity; field|].
    split; [intro Hc; exfalso; lra|].
    assert (Hlt : W < H * A) by nra.
    rewrite !Qhalf. repeat split; try lra; try nra.
  - exists 0, ((H + - r) / 2), W, r.
    split; [apply coverRect_tall; exact Ht|].
    split; [intro Hc; exfalso; lra|].
    split; [intros _; repeat split; try reflexivity; field|].
    assert (Hle : H * A <= W) by nra.
    assert (Hr : H <= r) by nra.
    assert (Hr0 : 0 < r) by lra.
    rewrite !Qhalf. repeat split; try lra; try nra.
Qed.

End Cover.

Lemma load_dims_pos (a : AspectRatio) :
  0 < width (load a) /\ 0 < height (load a).
Proof. destruct a; split; reflexivity. Qed.

(** C8. For an image of positive width and height, drawImageCover draws it
    in a rectangle [x, y, w, h] of finite numbers such that: if the image is
    wider in aspect than the output, [h] is the output height, [y] is 0 and
    the rectangle is centred horizontally; otherwise [w] is the output
    width, [x] is 0 and the rectangle is centred vertically; either way the
    rectangle covers the whole output and [w / h] is the aspect ratio of the
    image. *)
Theorem cover_scaling (a : AspectRatio) (img : Image) (ctx : Ctx) :
  0 < img_width img -> 0 < img_height img ->
  let this := load a in
  let W := width this in
  let H := height this in
  let A := img_width img / img_height img in
  exists x y w h : Q,
    ops (drawImageCover this img ctx)
    = ops ctx ++ [DrawImage img (Fin x) (Fin y) (Fin w) (Fin h)]
    /\ (W / H < A -> h == H /\ y == 0 /\ x + w / 2 == W / 2)
    /\ (A <= W / H -> w == W /\ x == 0 /\ y + h / 2 == H / 2)
    /\ (x <= 0 /\ y <= 0 /\ W <= x + w /\ H <= y + h)
    /\ w / h == A.
Proof.
  intros Hiw Hih this W H A.
  destruct (load_dims_pos a) as [HW HH].
  destruct (cover_facts this HW HH img Hiw Hih)
    as (x & y & w & h & Hrect & Hwide & Htall & Hx & Hy & Hxw & Hyh
        & Hw0 & Hh0 & Hasp).
  exists x, y, w, h.
  split; [unfold drawImageCover; rewrite Hrect; reflexivity|].
  split; [exact Hwide|]. split; [exact Htall|].
  split; [auto|].
  unfold A.
  assert (E : w == h * img_width img / img_height img)
    by (rewrite <- Hasp; field; lra).
  rewrite E. field. split; lra.
Qed.

(** ** The throttle on progress messages *)

Lemma reportProgress_ofZ (l z : Z) :
  reportProgress (ofZ l) (ofZ z)
  = if (l + 5 <=? z)%Z then (ofZ z, [OnProgress (Recording (ofZ z))])
    else (ofZ l, []).
Proof.
  unfold reportProgress, gt.
  change (Fin 4) with (ofZ 4). rewrite add_ofZ, lt_ofZ.
  destruct (Z.ltb_spec (l + 4) z); destruct (Z.leb_spec (l + 5) z);
    try reflexivity; lia.
Qed.

Lemma hundred_is_double : round64 100 == 100.
Proof. apply (round64_Z 100). vm_compute. discriminate. Qed.

Lemma hundred_is_small : 100 < pow2 1024.
Proof. vm_compute. reflexivity. Qed.

Lemma round_finite (q : Q) :
  - pow2 1024 < round64 q -> round64 q < pow2 1024 ->
  round (Fin q) = Fin (round64 q).
Proof.
  intros Hlo Hhi. unfold round.
  destruct (Qle_bool (pow2 1024) (round64 q)) eqn:E1.
  - apply Qle_bool_iff in E1. lra.
  - destruct (Qle_bool (round64 q) (- pow2 1024)) eqn:E2; [|reflexivity].
    apply Qle_bool_iff in E2. lra.
Qed.

Lemma round_Fin (q : Q) :
  round (Fin q) = PInf \/ round (Fin q) = NInf
  \/ round (Fin q) = Fin (round64 q).
Proof.
  unfold round. destruct (Qle_bool (pow2 1024) (round64 q)); [now left|].
  destruct (Qle_bool (round64 q) (- pow2 1024)); auto.
Qed.

Lemma round_nonneg (q : Q) :
  0 <= q ->
  (round (Fin q) = PInf /\ pow2 1024 <= round64 q)
  \/ (round (Fin q) = Fin (round64 q) /\ round64 q < pow2 1024).
Proof.
  intro Hq. pose proof (round64_nonneg q Hq) as Hr.
  pose proof (pow2_pos 1024) as Hp. unfold round.
  destruct (Qle_bool (pow2 1024) (round64 q)) eqn:E1.
  - left. split; [reflexivity | now apply Qle_bool_iff].
  - right. apply Qle_bool_false in E1.
    destruct (Qle_bool (round64 q) (- pow2 1024)) eqn:E2.
    + apply Qle_bool_iff in E2. lra.
    + split; [reflexivity | exact E1].
Qed.

(** A share of at most 1, as a percentage: an integer up to 100, or
    [-Infinity]. *)
Lemma percent_of_share (m : Q) :
  m <= 1 ->
  floor (fmul (Fin m) (Fin 100)) = NInf
  \/ floor (fmul (Fin m) (Fin 100))
     = ofZ (Qfloor (round64 (m * 100)))
     /\ (Qfloor (round64 (m * 100)) <= 100)%Z.
Proof.
  intro Hm. unfold fmul. cbn [mul].
  assert (Hr : round64 (m * 100) <= 100).
  { apply Qle_trans with (round64 100); [apply round64_mono; lra|].
    rewrite hundred_is_double. apply Qle_refl. }
  pose proof hundred_is_small as Hs.
  destruct (round_Fin (m * 100)) as [E | [E | E]]; rewrite E.
  - exfalso. unfold round in E.
    destruct (Qle_bool (pow2 1024) (round64 (m * 100))) eqn:E1.
    + apply Qle_bool_iff in E1. lra.
    + destruct (Qle_bool (round64 (m * 100)) (- pow2 1024)); discriminate.
  - now left.
  - right. split; [reflexivity|].
    apply (Z.le_trans _ (Qfloor 100)); [|vm_compute; discriminate].
    now apply Qfloor_resp_le.
Qed.

Lemma percent_of_share_nonneg (m : Q) :
  0 <= m -> m <= 1 ->
  floor (fmul (Fin m) (Fin 100)) = ofZ (Qfloor (round64 (m * 100))).
Proof.
  intros H0 H1. unfold fmul. cbn [mul].
  assert (Hr : round64 (m * 100) <= 100).
  { apply Qle_trans with (round64 100); [apply round64_mono; lra|].
    rewrite hundred_is_double. apply Qle_refl. }
  pose proof hundred_is_small as Hs.
  pose proof (round64_nonneg (m * 100) ltac:(lra)) as Hn.
  pose proof (pow2_pos 1024) as Hp.
  rewrite round_finite by lra. reflexivity.
Qed.

Lemma min_one (q : Q) :
  exists m, min (Fin q) (Fin 1) = Fin m /\ m == Qmin q 1 /\ m <= 1.
Proof.
  unfold min, lt. destruct (Qlt_bool 1 q) eqn:E.
  - apply Qlt_bool_iff in E. exists 1.
    split; [reflexivity|]. split; [|lra].
    rewrite Q.min_r; [reflexivity | lra].
  - apply Qlt_bool_false in E. exists q.
    split; [reflexivity|]. split; [|exact E].
    rewrite Q.min_l; [reflexivity | exact E].
Qed.

Lemma progressPercent_pos (elapsed total : Q) :
  0 < total -> 0 <= elapsed ->
  progressPercent elapsed total
  = ofZ (Qfloor (round64 (Qmin (round64 (elapsed / total)) 1 * 100))).
Proof.
  intros Ht He. unfold progressPercent, fdiv. rewrite (div_pos _ _ Ht).
  assert (Hq : 0 <= elapsed / total) by (apply Qle_shift_div_l; lra).
  pose proof (round64_nonneg _ Hq) as Hr.
  assert (Hone : 1 < pow2 1024) by (vm_compute; reflexivity).
  destruct (round_nonneg _ Hq) as [[E Hbig] | [E _]]; rewrite E.
  - change (min PInf (Fin 1)) with (Fin 1).
    rewrite (percent_of_share_nonneg 1) by lra.
    unfold ofZ. do 2 f_equal. apply Qfloor_comp. apply round64_compat.
    rewrite Q.min_r by lra. reflexivity.
  - destruct (min_one (round64 (elapsed / total))) as (m & Em & Hm & Hm1).
    rewrite Em.
    assert (Hm0 : 0 <= m).
    { rewrite Hm. apply Q.min_glb; lra. }
    rewrite (percent_of_share_nonneg m Hm0 Hm1).
    unfold ofZ. do 2 f_equal. apply Qfloor_comp. apply round64_compat.
    now rewrite Hm.
Qed.

(** Whatever the clock and the total, the percentage is [NaN], [-Infinity]
    or an integer up to 100. *)
Lemma progressPercent_cases (elapsed total : Q) :
  progressPercent elapsed total = NaN
  \/ progressPercent elapsed total = NInf
  \/ exists z, progressPercent elapsed total = ofZ z /\ (z <= 100)%Z.
Proof.
  unfold progressPercent.
  assert (Hshare : forall m, m <= 1 ->
             floor (fmul (Fin m) (Fin 100)) = NaN
             \/ floor (fmul (Fin m) (Fin 100)) = NInf
             \/ exists z, floor (fmul (Fin m) (Fin 100)) = ofZ z
                          /\ (z <= 100)%Z).
  { intros m Hm. destruct (percent_of_share m Hm) as [E | [E Hz]];
      [now right; left | right; right; eauto]. }
  assert (Hfin : forall q,
             floor (fmul (min (Fin q) (Fin 1)) (Fin 100)) = NaN
             \/ floor (fmul (min (Fin q) (Fin 1)) (Fin 100)) = NInf
             \/ exists z, floor (fmul (min (Fin q) (Fin 1)) (Fin 100)) = ofZ z
                          /\ (z <= 100)%Z).
  { intro q. destruct (min_one q) as (m & Em & _ & Hm1). rewrite Em.
    now apply Hshare. }
  assert (Hnum : forall x,
             floor (fmul (min (round x) (Fin 1)) (Fin 100)) = NaN
             \/ floor (fmul (min (round x) (Fin 1)) (Fin 100)) = NInf
             \/ exists z, floor (fmul (min (round x) (Fin 1)) (Fin 100)) = ofZ z
                          /\ (z <= 100)%Z).
  { assert (Hp : floor (fmul (min PInf (Fin 1)) (Fin 100)) = NaN
                 \/ floor (fmul (min PInf (Fin 1)) (Fin 100)) = NInf
                 \/ exists z, floor (fmul (min PInf (Fin 1)) (Fin 100)) = ofZ z
                              /\ (z <= 100)%Z).
    { change (min PInf (Fin 1)) with (Fin 1). apply Hshare. lra. }
    assert (Hn : floor (fmul (min NInf (Fin 1)) (Fin 100)) = NInf)
      by reflexivity.
    intros [q| | |].
    - destruct (round_Fin q) as [E | [E | E]]; rewrite E;
        [exact Hp | now right; left | apply Hfin].
    - exact Hp.
    - now right; left.
    - now left. }
  unfold fdiv. apply Hnum.
Qed.

Lemma reportProgress_step (l : Z) (p : number) :
  p = NaN \/ p = NInf \/ (exists z, p = ofZ z /\ (z <= 100)%Z) ->
  (reportProgress (ofZ l) p = (ofZ l, []))
  \/ exists z, (l + 5 <= z)%Z /\ (z <= 100)%Z
               /\ reportProgress (ofZ l) p
                  = (ofZ z, [OnProgress (Recording (ofZ z))]).
Proof.
  intros [-> | [-> | (z & -> & Hz)]]; [now left | now left |].
  rewrite reportProgress_ofZ.
  destruct (Z.leb_spec (l + 5) z); [right; exists z; auto | now left].
Qed.

Lemma recordingPercents_app (l1 l2 : list Effect) :
  recordingPercents (l1 ++ l2) = recordingPercents l1 ++ recordingPercents l2.
Proof. unfold recordingPercents. apply flat_map_app. Qed.

Section Throttle.

Variable measureText : Font -> string -> Q.

Lemma animate_spaced (this : VideoComposer) (timings : list SceneTiming)
    (total : Q) (captions : list Caption) (settings : CaptionSettings)
    (startTime : Z) (clock : list Z) :
  forall tick l ctx,
    spaced 5 l
      (recordingPercents
         (l_effects (animate measureText this timings total captions settings
                       startTime clock tick (ofZ l) ctx))).
Proof.
  induction clock as [|now later IH]; intros tick l ctx; cbn [animate].
  - exact I.
  - set (pct := progressPercent (elapsedAt startTime now) total).
    destruct (reportProgress_step l pct (progressPercent_cases _ _))
      as [Hsame | (z & Hz & Hz100 & Hsent)].
    + rewrite Hsame.
      destruct (currentScene timings (elapsedAt startTime now)); [|exact I].
      destruct (drawFrame _ _ _ _ _ _ _) as [ctx' [e|]]; [exact I|].
      destruct (Qlt_bool (elapsedAt startTime now) total); cbn [l_effects].
      * apply IH.
      * exact I.
    + rewrite Hsent.
      assert (Hhead : forall rest, spaced 5 z (recordingPercents rest) ->
                spaced 5 l (recordingPercents
                              ([OnProgress (Recording (ofZ z))] ++ rest))).
      { intros rest Hrest. cbn. exists z. auto. }
      destruct (currentScene timings (elapsedAt startTime now));
        [|apply (Hhead []); exact I].
      destruct (drawFrame _ _ _ _ _ _ _) as [ctx' [e|]];
        [apply (Hhead []); exact I|].
      destruct (Qlt_bool (elapsedAt startTime now) total); cbn [l_effects].
      * apply Hhead. apply IH.
      * apply Hhead. exact I.
Qed.

Lemma loadImages_no_percent (env : Env) (this : VideoComposer) (n : Z)
    (scenes : list Scene) :
  forall i, recordingPercents (snd (loadImages env this n i scenes)) = [].
Proof.
  induction scenes as [|s rest IH]; intro i; cbn [loadImages]; [reflexivity|].
  specialize (IH (i + 1)%Z).
  destruct (loadImages env this n (i + 1) rest) as [imgs effs].
  destruct (imageUrl s) as [url|]; [destruct (nonEmpty url)|];
    cbn [snd] in *; rewrite ?recordingPercents_app, IH; reflexivity.
Qed.

Lemma setUp_effects (env : Env) :
  exists done, fst (setUp env recordingSetUp) = done
               /\ recordingPercents done = []
               /\ ~ In RecorderStop done /\ ~ In AudioPause done.
Proof.
  eexists. split; [reflexivity|].
  unfold recordingSetUp. cbn [setUp].
  repeat match goal with
         | |- context [throws env ?s] => destruct (throws env s)
         end;
    cbn; (split; [reflexivity|]);
    split; intro H; repeat (destruct H as [H | H]; [discriminate H|]);
    exact H.
Qed.

Lemma composeVideo_spaced (env : Env) (scenes : list Scene)
    (captions : list Caption) (settings : CaptionSettings) (a : AspectRatio) :
  spaced 5 0
    (recordingPercents
       (snd (composeVideo measureText env scenes captions settings a))).
Proof.
  unfold composeVideo.
  destruct (canvasContext env); cbn [negb]; [|exact I].
  pose proof (loadImages_no_percent env (load a) (lengthZ scenes) scenes 0)
    as Hload.
  destruct (setUp_effects env) as (done & Hdone & Hnone & _).
  destruct (setUp env recordingSetUp) as [setup thrown].
  cbn [fst] in Hdone. subst done.
  destruct thrown as [e|].
  - cbn [snd]. rewrite !recordingPercents_app, Hload, Hnone. exact I.
  - assert (Hrun : spaced 5 0
                     (recordingPercents
                        (l_effects
                           (recordingLoop measureText env scenes captions
                              settings a)))).
    { unfold recordingLoop. destruct (clock env) as [|startTime readings];
        [exact I|].
      apply (animate_spaced (load a) _ _ captions settings startTime readings
               0%nat 0%Z freshCtx). }
    destruct (l_end _) as [|[|n] e|]; cbn [snd];
      rewrite !recordingPercents_app, Hload, Hnone; cbn;
      rewrite ?app_nil_r; exact Hrun.
Qed.

End Throttle.

Section ThrottleClaim.

Variable measureText : Font -> string -> Q.


End ThrottleClaim.


(** ** Composition without a timeline *)

Lemma loadImages_length (env : Env) (this : VideoComposer) (n : Z)
    (scenes : list Scene) :
  forall i, List.length (fst (loadImages env this n i scenes))
            = List.length scenes.
Proof.
  induction scenes as [|s rest IH]; intro i; cbn [loadImages]; [reflexivity|].
  specialize (IH (i + 1)%Z).
  destruct (loadImages env this n (i + 1) rest) as [imgs effs].
  destruct (imageUrl s) as [url|]; [destruct (nonEmpty url)|];
    cbn [fst List.length] in *; now rewrite IH.
Qed.

Lemma sceneTimingsFrom_image (images : list Image) (scenes : list Scene) :
  forall i c k s,
    nth_error (sceneTimingsFrom images i c scenes) k = Some s ->
    image s = nth_error images (i + k) /\ (k < List.length scenes)%nat.
Proof.
  induction scenes as [|s0 rest IH]; intros i c k s Hk.
  - destruct k; discriminate.
  - destruct k as [|k]; simpl in Hk.
    + injection Hk as <-. simpl. rewrite Nat.add_0_r. split; [reflexivity|lia].
    + apply IH in Hk. destruct Hk as [Hi Hl]. simpl List.length.
      split; [|lia]. rewrite Hi. f_equal. lia.
Qed.

Lemma currentScene_In (timings : list SceneTiming) (elapsed : Q)
    (s : SceneTiming) :
  currentScene timings elapsed = Some s -> In s timings.
Proof.
  unfold currentScene.
  destruct (find (activeAt elapsed) timings) as [s'|] eqn:E.
  - intro H. injection H as <-. apply find_some in E. apply E.
  - rewrite item_last. apply nth_error_In.
Qed.

Lemma currentScene_nonempty (timings : list SceneTiming) (elapsed : Q) :
  timings <> [] -> exists s, currentScene timings elapsed = Some s.
Proof.
  intro Hne. unfold currentScene.
  destruct (find (activeAt elapsed) timings) as [s'|]; [eauto|].
  rewrite item_last.
  destruct (nth_error timings (List.length timings - 1)) eqn:E; [eauto|].
  apply nth_error_None in E. destruct timings; [congruence | simpl in E; lia].
Qed.

(** ** The statements at sample inputs *)

Lemma timeline_contiguous_sample :
  Forall (fun sc => 0 <= duration sc) threeScenes
  /\ forall i j a b, (i < j)%nat ->
       nth_error (sceneTimings [] threeScenes) i = Some a ->
       nth_error (sceneTimings [] threeScenes) j = Some b ->
       end_ a <= start b /\ forall t, ~ (within t a /\ within t b).
Proof.
  assert (H : Forall (fun sc => 0 <= duration sc) threeScenes)
    by (repeat constructor; discriminate).
  split; [exact H|].
  destruct (timeline_contiguous [] threeScenes)
    as (_ & _ & _ & _ & _ & _ & _ & Hapart).
  exact (Hapart H).
Defined.

Lemma currentScene_defined_sample :
  (threeScenes <> [] /\ Forall (fun sc => 0 < duration sc) threeScenes
   /\ 0 <= 29.9)
  /\ exists s, currentScene (sceneTimings [] threeScenes) 29.9 = Some s.
Proof.
  assert (H1 : threeScenes <> []) by discriminate.
  assert (H2 : Forall (fun sc => 0 < duration sc) threeScenes)
    by (repeat constructor; reflexivity).
  assert (H3 : 0 <= 29.9) by discriminate.
  split; [auto|].
  destruct (currentScene_defined [] threeScenes 29.9 H1 H2 H3) as (s & Hs & _).
  exists s. exact Hs.
Defined.

Lemma karaoke_window_bounded_sample :
  exists ws,
    words helloWorld = Some ws /\ ws <> []
    /\ karaokeWindow (lengthZ ws) (currentWordIdx ws 0.3) = (0, 2)%Z.
Proof.
  exists [ {| word := "Hello"; w_start := 0; w_end := 0.5 |};
           {| word := "world"; w_start := 0.5; w_end := 1.2 |} ].
  split; [reflexivity|]. split; [discriminate|].
  destruct (karaoke_window_bounded tenPerChar (load ar_9_16) helloWorld
              DEFAULT_CAPTION_SETTINGS 0.3 freshCtx _ eq_refl
              ltac:(discriminate)) as (_ & Hwin & _).
  exact Hwin.
Defined.

Lemma karaoke_current_word_sample :
  drawnTexts (ops (drawKaraokeCaption tenPerChar (load ar_9_16) helloWorld
                     DEFAULT_CAPTION_SETTINGS 0.3 freshCtx))
  = [("Hello"%string, "#FFD700"%string,
      getFontSize (load ar_9_16) large * 1.1);
     ("world"%string, "rgba(255, 255, 255, 0.5)"%string,
      getFontSize (load ar_9_16) large)].
Proof.
  destruct (karaoke_current_word tenPerChar (load ar_9_16) helloWorld
              DEFAULT_CAPTION_SETTINGS 0.3 freshCtx _ eq_refl
              ltac:(discriminate)) as (_ & _ & _ & _ & Hsample).
  destruct (Hsample eq_refl eq_refl eq_refl eq_refl) as [_ Hdrawn].
  exact Hdrawn.
Defined.


Lemma cover_scaling_sample :
  (0 < img_width squareImage /\ 0 < img_height squareImage)
  /\ exists x y w h : Q,
       ops (drawImageCover (load ar_9_16) squareImage freshCtx)
       = [DrawImage squareImage (Fin x) (Fin y) (Fin w) (Fin h)]
       /\ x <= 0 /\ y <= 0 /\ 1080 <= x + w /\ 1920 <= y + h.
Proof.
  assert (H1 : 0 < img_width squareImage) by reflexivity.
  assert (H2 : 0 < img_height squareImage) by reflexivity.
  split; [auto|].
  destruct (cover_scaling ar_9_16 squareImage freshCtx H1 H2)
    as (x & y & w & h & Hops & _ & _ & Hcover & _).
  exists x, y, w, h. split; [exact Hops | exact Hcover].
Defined.


Lemma selected_caption_progress_sample :
  find (shownAt 0.7) [helloPlain] = Some helloPlain
  /\ exists p, captionProgress helloPlain 0.7 = Fin p /\ 0 <= p /\ p < 1.
Proof.
  split; [reflexivity|].
  destruct (selected_caption_progress tenPerChar (load ar_9_16) [helloPlain]
              0.7 helloPlain eq_refl)
    as (_ & _ & _ & Hp & H0 & H1 & _).
  eexists. split; [exact Hp|]. split; [exact H0 | exact H1].
Defined.

(** * Further properties of the composer *)

(** ** Caption drawing only adds overlay calls *)

Lemma imagesDrawn_app (l1 l2 : list DrawOp) :
  imagesDrawn (l1 ++ l2) = imagesDrawn l1 ++ imagesDrawn l2.
Proof. unfold imagesDrawn. apply flat_map_app. Qed.

Lemma backdrops_app (l1 l2 : list DrawOp) :
  backdrops (l1 ++ l2) = backdrops l1 ++ backdrops l2.
Proof. unfold backdrops. apply flat_map_app. Qed.

Lemma drawnLines_app (l1 l2 : list DrawOp) :
  drawnLines (l1 ++ l2) = drawnLines l1 ++ drawnLines l2.
Proof. unfold drawnLines. apply flat_map_app. Qed.

Lemma overlay_no_image (l : list DrawOp) :
  Forall (fun op => isOverlay op = true) l -> imagesDrawn l = [].
Proof.
  induction 1 as [|op l Hop _ IH]; [reflexivity|].
  destruct op; try discriminate; exact IH.
Qed.

Lemma addsOverlay_refl (c c' : Ctx) : ops c' = ops c -> addsOverlay c c'.
Proof. intro H. exists []. rewrite app_nil_r. split; [exact H | constructor]. Qed.

Lemma addsOverlay_trans (a b c : Ctx) :
  addsOverlay a b -> addsOverlay b c -> addsOverlay a c.
Proof.
  intros (m1 & H1 & F1) (m2 & H2 & F2). exists (m1 ++ m2).
  split; [rewrite H2, H1, app_assoc; reflexivity | now apply Forall_app].
Qed.

Lemma addsOverlay_call (op : DrawOp) (c : Ctx) :
  isOverlay op = true -> addsOverlay c (call op c).
Proof. intro H. exists [op]. split; [reflexivity | now constructor]. Qed.

Section Overlay.

Variable measureText : Font -> string -> Q.
Variable this : VideoComposer.

Lemma drawWordsFrom_overlay (settings : CaptionSettings) (fs : Q)
    (idx ls : Z) (y : Q) (ws : list WordTiming) :
  forall i x ctx,
    addsOverlay ctx
      (drawWordsFrom measureText y idx ls settings fs i x ws ctx).
Proof.
  induction ws as [|w rest IH]; intros i x ctx; cbn [drawWordsFrom].
  - now apply addsOverlay_refl.
  - eapply addsOverlay_trans; [|apply IH].
    destruct (styleOf (ls + i) idx);
      (eexists; split; [cbn; reflexivity | now repeat constructor]).
Qed.

Lemma drawWordLine_overlay (ws : list WordTiming) (y : Q) (idx ls : Z)
    (settings : CaptionSettings) (fs : Q) (ctx : Ctx) :
  addsOverlay ctx (drawWordLine measureText this ws y idx ls settings fs ctx).
Proof. unfold drawWordLine. apply drawWordsFrom_overlay. Qed.

Lemma drawLines_overlay (n : Z) (y lh : Q) (lines : list string) :
  forall i ctx, addsOverlay ctx (drawLines this n y lh i lines ctx).
Proof.
  induction lines as [|line rest IH]; intros i ctx; cbn [drawLines].
  - now apply addsOverlay_refl.
  - eapply addsOverlay_trans; [|apply IH]. now apply addsOverlay_call.
Qed.

Lemma drawSentenceCaption_overlay (caption : Caption)
    (settings : CaptionSettings) (t : Q) (ctx : Ctx) :
  addsOverlay ctx (drawSentenceCaption measureText this caption settings t ctx).
Proof.
  unfold drawSentenceCaption.
  eapply addsOverlay_trans; [|apply drawLines_overlay].
  eexists. split; [cbn; rewrite <- !app_assoc; reflexivity|].
  cbn. now repeat constructor.
Qed.

Lemma drawKaraokeCaption_overlay (caption : Caption)
    (settings : CaptionSettings) (t : Q) (ctx : Ctx) :
  addsOverlay ctx (drawKaraokeCaption measureText this caption settings t ctx).
Proof.
  unfold drawKaraokeCaption.
  destruct (words caption) as [[|w0 ws']|];
    try (eapply addsOverlay_trans; [|apply drawSentenceCaption_overlay];
         now apply addsOverlay_refl).
  match goal with
  | |- context [karaokeWindow ?a ?b] => destruct (karaokeWindow a b) as [s e]
  end.
  match goal with
  | |- addsOverlay _ (if ?b then _ else _) => destruct b
  end.
  - eapply addsOverlay_trans; [|apply drawWordLine_overlay].
    eapply addsOverlay_trans; [|apply drawWordLine_overlay].
    eexists. split; [cbn; rewrite <- !app_assoc; reflexivity|].
    cbn. now repeat constructor.
  - eapply addsOverlay_trans; [|apply drawWordLine_overlay].
    eexists. split; [cbn; rewrite <- !app_assoc; reflexivity|].
    cbn. now repeat constructor.
Qed.

Lemma drawCaption_overlay (caption : Caption) (settings : CaptionSettings)
    (t : Q) (ctx : Ctx) :
  addsOverlay ctx (drawCaption measureText this caption settings t ctx).
Proof.
  unfold drawCaption. destruct (template settings).
  - apply drawKaraokeCaption_overlay.
  - unfold drawWordByWordCaption.
    destruct (nonEmpty (currentWordOf caption t)).
    + eexists. split; [cbn; reflexivity | now repeat constructor].
    + now apply addsOverlay_refl.
  - apply drawSentenceCaption_overlay.
  - unfold drawMinimalCaption.
    eexists. split; [cbn; reflexivity | now repeat constructor].
Qed.

End Overlay.

(** ** One frame *)

Section Frame.

Variable measureText : Font -> string -> Q.
Variable this : VideoComposer.

Lemma drawFrame_frame (img : Image) (captions : list Caption)
    (settings : CaptionSettings) (t : Q) (ctx : Ctx) :
  let r := coverRect this img in
  exists ctx' more,
    drawFrame measureText this (Some img) captions settings t ctx = (ctx', None)
    /\ ops ctx'
       = ops ctx
           ++ FillRect "#000000" 0 0 (width this) (height this)
           :: DrawImage img (drawX r) (drawY r) (drawWidth r) (drawHeight r)
           :: more
    /\ Forall (fun op => isOverlay op = true) more.
Proof.
  intro r. unfold drawFrame.
  set (painted :=
         drawImageCover this img
           (fillRect 0 0 (width this) (height this)
              (setFillStyle "#000000" ctx))).
  assert (Hp : ops painted
               = ops ctx ++ [FillRect "#000000" 0 0 (width this) (height this);
                             DrawImage img (drawX r) (drawY r) (drawWidth r)
                               (drawHeight r)]).
  { unfold painted, drawImageCover. cbn. now rewrite <- app_assoc. }
  destruct (find (shownAt t) captions) as [c|].
  - destruct (drawCaption_overlay measureText this c settings t painted)
      as (more & Hmore & Hov).
    eexists _, more. split; [reflexivity|]. split; [|exact Hov].
    rewrite Hmore, Hp, <- app_assoc. reflexivity.
  - exists painted, []. split; [reflexivity|]. split; [exact Hp | constructor].
Qed.

Lemma drawFrame_image (img : Image) (captions : list Caption)
    (settings : CaptionSettings) (t : Q) (ctx : Ctx) :
  exists ctx',
    drawFrame measureText this (Some img) captions settings t ctx = (ctx', None)
    /\ imagesDrawn (ops ctx') = imagesDrawn (ops ctx) ++ [img].
Proof.
  unfold drawFrame.
  set (painted :=
         drawImageCover this img
           (fillRect 0 0 (width this) (height this)
              (setFillStyle "#000000" ctx))).
  assert (Hp : imagesDrawn (ops painted) = imagesDrawn (ops ctx) ++ [img]).
  { unfold painted, drawImageCover. cbn. rewrite <- app_assoc.
    rewrite imagesDrawn_app. reflexivity. }
  destruct (find (shownAt t) captions) as [c|].
  - destruct (drawCaption_overlay measureText this c settings t painted)
      as (more & Hmore & Hov).
    eexists. split; [reflexivity|].
    rewrite Hmore, imagesDrawn_app, (overlay_no_image more Hov), Hp.
    now rewrite app_nil_r.
  - eexists. split; [reflexivity | exact Hp].
Qed.

(** A frame is the black background, then the image in its cover
    rectangle, then overlay calls only; with no caption on at [t] there is
    no overlay at all, and of several captions on at [t] the first of the
    list is the one drawn. Earlier calls are kept. *)
Theorem drawFrame_layers (img : Image) (captions : list Caption)
    (settings : CaptionSettings) (t : Q) (ctx : Ctx) :
  let r := coverRect this img in
  let painted :=
    drawImageCover this img
      (fillRect 0 0 (width this) (height this) (setFillStyle "#000000" ctx)) in
  exists ctx' more,
    drawFrame measureText this (Some img) captions settings t ctx = (ctx', None)
    /\ ops ctx'
       = ops ctx
           ++ FillRect "#000000" 0 0 (width this) (height this)
           :: DrawImage img (drawX r) (drawY r) (drawWidth r) (drawHeight r)
           :: more
    /\ Forall (fun op => isOverlay op = true) more
    /\ imagesDrawn (ops ctx') = imagesDrawn (ops ctx) ++ [img]
    /\ ((forall c, In c captions -> ~ (startTime c <= t < endTime c)) ->
        ctx' = painted /\ more = [])
    /\ (forall before c after,
          captions = before ++ c :: after ->
          startTime c <= t < endTime c ->
          (forall b, In b before -> ~ (startTime b <= t < endTime b)) ->
          ctx' = drawCaption measureText this c settings t painted).
Proof.
  intros r painted.
  assert (Hp : ops painted
               = ops ctx ++ [FillRect "#000000" 0 0 (width this) (height this);
                             DrawImage img (drawX r) (drawY r) (drawWidth r)
                               (drawHeight r)]).
  { unfold painted, drawImageCover. cbn. now rewrite <- app_assoc. }
  assert (Hfirst : forall before c after,
             captions = before ++ c :: after ->
             startTime c <= t < endTime c ->
             (forall b, In b before -> ~ (startTime b <= t < endTime b)) ->
             find (shownAt t) captions = Some c).
  { intros before c after -> Hc Hb.
    induction before as [|b before IH]; cbn [app find].
    - now rewrite (proj2 (shownAt_span t c) Hc).
    - destruct (shownAt t b) eqn:E.
      + apply shownAt_span in E. exfalso. apply (Hb b); [now left | exact E].
      + apply IH. intros b' Hb'. apply Hb. now right. }
  unfold drawFrame. fold painted.
  destruct (find (shownAt t) captions) as [c|] eqn:E.
  - destruct (drawCaption_overlay measureText this c settings t painted)
      as (more & Hmore & Hov).
    exists (drawCaption measureText this c settings t painted), more.
    split; [reflexivity|]. split.
    { rewrite Hmore, Hp, <- app_assoc. reflexivity. }
    split; [exact Hov|]. split.
    { rewrite Hmore, Hp, !imagesDrawn_app, (overlay_no_image more Hov).
      cbn. now rewrite app_nil_r. }
    split.
    { intro Hnone. apply find_some in E. destruct E as [Hin Hs].
      apply shownAt_span in Hs. exfalso. now apply (Hnone c). }
    intros before c' after Hcap Hc' Hb.
    pose proof (Hfirst before c' after Hcap Hc' Hb) as E'. congruence.
  - exists painted, []. split; [reflexivity|]. split; [exact Hp|].
    split; [constructor|]. split.
    { rewrite Hp, imagesDrawn_app. reflexivity. }
    split; [auto|]. intros before c' after Hcap Hc' Hb.
    pose proof (Hfirst before c' after Hcap Hc' Hb) as E'. congruence.
Qed.

End Frame.

(** ** A whole run *)

Lemma currentScene_ready (images : list Image) (scenes : list Scene)
    (elapsed : Q) :
  scenes <> [] -> List.length images = List.length scenes ->
  exists s img,
    currentScene (sceneTimings images scenes) elapsed = Some s
    /\ image s = Some img.
Proof.
  intros Hne Hlen.
  assert (Htne : sceneTimings images scenes <> [])
    by (destruct scenes; [congruence | discriminate]).
  destruct (currentScene_nonempty _ elapsed Htne) as [s Hs].
  exists s. pose proof Hs as Hin.
  apply currentScene_In in Hin. apply In_nth_error in Hin.
  destruct Hin as [k Hk]. apply sceneTimingsFrom_image in Hk.
  destruct Hk as [Hi Hl]. simpl in Hi.
  destruct (nth_error images k) as [img|] eqn:E.
  - exists img. split; [exact Hs | congruence].
  - apply nth_error_None in E. lia.
Qed.

Lemma spaced_length (ps : list number) :
  forall l, (l <= 100)%Z -> spaced 5 l ps ->
            (Z.of_nat (List.length ps) * 5 <= 100 - l)%Z.
Proof.
  induction ps as [|p rest IH]; intros l Hl Hsp;
    cbn [spaced List.length] in *; [lia|].
  destruct Hsp as (z & _ & Hz & Hz100 & Hrest).
  specialize (IH z Hz100 Hrest). lia.
Qed.

Section Run.

Variable measureText : Font -> string -> Q.
Variable this : VideoComposer.
Variable timings : list SceneTiming.
Variable total : Q.
Variable captions : list Caption.
Variable settings : CaptionSettings.
Variable startTime : Z.

Hypothesis ready :
  forall elapsed, exists s img,
    currentScene timings elapsed = Some s /\ image s = Some img.

Lemma animate_run (readings : list Z) :
  forall tick last ctx,
    let r := animate measureText this timings total captions settings
               startTime readings tick last ctx in
    match ticksUntilDone total startTime readings with
    | Some ticks =>
        l_end r = Stopped
        /\ map Some (imagesDrawn (ops (l_ctx r)))
           = map Some (imagesDrawn (ops ctx))
               ++ map (fun now => sceneImageAt timings (elapsedAt startTime now))
                    ticks
        /\ exists sent,
             l_effects r = sent ++ [AudioPause; RecorderStop]
             /\ Forall (fun e => isRecordingMessage e = true) sent
    | None =>
        l_end r = ClockEnded
        /\ Forall (fun e => isRecordingMessage e = true) (l_effects r)
    end.
Proof.
  induction readings as [|now later IH]; intros tick last ctx;
    cbn [animate ticksUntilDone].
  - split; [reflexivity | constructor].
  - assert (Hsent : Forall (fun e => isRecordingMessage e = true)
                      (snd (reportProgress last
                              (progressPercent (elapsedAt startTime now) total)))).
    { unfold reportProgress.
      destruct (gt _ _); cbn; repeat constructor. }
    destruct (reportProgress last
                (progressPercent (elapsedAt startTime now) total))
      as [last' sent].
    cbn [snd] in Hsent.
    destruct (ready (elapsedAt startTime now)) as (s & img & Hs & Himg).
    assert (Hat : sceneImageAt timings (elapsedAt startTime now) = Some img)
      by (unfold sceneImageAt; rewrite Hs; exact Himg).
    rewrite Hs, Himg.
    destruct (drawFrame_image measureText this img captions settings
                (elapsedAt startTime now) ctx)
      as (ctx' & Hframe & Himgs).
    rewrite Hframe.
    destruct (Qlt_bool (elapsedAt startTime now) total).
    + specialize (IH (S tick) last' ctx'). cbv zeta in IH.
      destruct (ticksUntilDone total startTime later) as [ticks|];
        cbn [option_map l_end l_ctx l_effects].
      * destruct IH as (Hend & Hdrawn & sent' & Heff & Hall).
        split; [exact Hend|]. split.
        { rewrite Hdrawn, Himgs, map_app. cbn [map].
          rewrite Hat, <- app_assoc. reflexivity. }
        exists (sent ++ sent'). split; [rewrite Heff, app_assoc; reflexivity|].
        now apply Forall_app.
      * destruct IH as [Hend Hall]. split; [exact Hend|].
        now apply Forall_app.
    + cbn [l_end l_ctx l_effects]. split; [reflexivity|]. split.
      { rewrite Himgs, map_app. cbn [map]. now rewrite Hat. }
      exists sent. split; [reflexivity | exact Hsent].
Qed.

End Run.

Lemma ticksUntilDone_nonempty (total : Q) (startTime : Z) (readings : list Z) :
  forall ticks, ticksUntilDone total startTime readings = Some ticks ->
    ticks <> []
    /\ (exists later, readings = ticks ++ later)
    /\ (exists before done, ticks = before ++ [done]
          /\ total <= elapsedAt startTime done
          /\ forall now, In now before -> elapsedAt startTime now < total).
Proof.
  induction readings as [|now later IH]; intros ticks H; simpl in H;
    [discriminate|].
  destruct (Qlt_bool (elapsedAt startTime now) total) eqn:E.
  - destruct (ticksUntilDone total startTime later) as [ticks'|];
      [|discriminate].
    injection H as <-. destruct (IH ticks' eq_refl)
      as (_ & [rest Hrest] & before & done & Hb & Hd & Hall).
    split; [discriminate|]. split; [exists rest; now rewrite Hrest|].
    exists (now :: before), done. split; [now rewrite Hb|].
    split; [exact Hd|]. intros n [<- | Hn]; [now apply Qlt_bool_iff | auto].
  - injection H as <-. split; [discriminate|].
    split; [exists later; reflexivity|].
    exists [], now. split; [reflexivity|].
    split; [now apply Qlt_bool_false | intros n []].
Qed.

Lemma setUp_cases (env : Env) :
  (snd (setUp env recordingSetUp) = None /\ forall s, throws env s = None)
  \/ exists s e, throws env s = Some e
                 /\ snd (setUp env recordingSetUp) = Some e.
Proof.
  unfold recordingSetUp. cbn [setUp].
  destruct (throws env captureStream) eqn:E1;
    [right; eexists _, _; split; [exact E1 | reflexivity]|].
  destruct (throws env newAudioContext) eqn:E2;
    [right; eexists _, _; split; [exact E2 | reflexivity]|].
  destruct (throws env createMediaElementSource) eqn:E3;
    [right; eexists _, _; split; [exact E3 | reflexivity]|].
  destruct (throws env newMediaRecorder) eqn:E4;
    [right; eexists _, _; split; [exact E4 | reflexivity]|].
  destruct (throws env recorderStart) eqn:E5;
    [right; eexists _, _; split; [exact E5 | reflexivity]|].
  destruct (throws env audioPlay) eqn:E6;
    [right; eexists _, _; split; [exact E6 | reflexivity]|].
  left. split; [reflexivity|]. intros []; assumption.
Qed.

Lemma setUp_through (env : Env) :
  (forall s, throws env s = None) ->
  setUp env recordingSetUp
  = ([OnProgress SettingUpRecording; OnProgress RecordingVideo;
      RecorderStart; AudioPlay], None).
Proof.
  intro H. unfold recordingSetUp. cbn [setUp]. rewrite !H. reflexivity.
Qed.

Section ComposeRun.

Variable measureText : Font -> string -> Q.

(** composeVideo on a host where the canvas is there and no call of the
    set-up throws. *)
Lemma composeVideo_through (env : Env) (scenes : list Scene)
    (captions : list Caption) (settings : CaptionSettings) (a : AspectRatio) :
  canvasContext env = true -> (forall s, throws env s = None) ->
  composeVideo measureText env scenes captions settings a
  = let r := recordingLoop measureText env scenes captions settings a in
    let before :=
      effectsBeforeRecording
        (snd (loadImages env (load a) (lengthZ scenes) 0 scenes)) in
    match l_end r with
    | Stopped =>
        (Returned (Some {| mime := "video/webm";
                           chunks := filter (Z.ltb 0) (dataAvailable env) |}),
         before ++ l_effects r ++ effectsAfterRecording)
    | Threw O e =>
        (Returned None,
         before ++ l_effects r ++ [ConsoleError e; OnProgress (ErrorMessage e)])
    | Threw (S _) e => (NeverSettles, before ++ l_effects r)
    | ClockEnded => (Pending, before ++ l_effects r)
    end.
Proof.
  intros Hcanvas Hthrough. unfold composeVideo.
  rewrite Hcanvas, (setUp_through env Hthrough). cbn [negb].
  unfold effectsBeforeRecording, effectsAfterRecording.
  destruct (l_end _) as [|[|n] e|]; reflexivity.
Qed.


(** A run sends at most twenty progress percentages, however many ticks it
    takes. *)
Theorem composeVideo_few_percentages (env : Env) (scenes : list Scene)
    (captions : list Caption) (settings : CaptionSettings) (a : AspectRatio) :
  (List.length
     (recordingPercents
        (snd (composeVideo measureText env scenes captions settings a)))
   <= 20)%nat.
Proof.
  pose proof (composeVideo_spaced measureText env scenes captions settings a)
    as Hsp.
  pose proof (spaced_length _ 0 ltac:(lia) Hsp). lia.
Qed.

End ComposeRun.

(** ** Composition without a timeline *)

Section EmptyTimeline.

Variable measureText : Font -> string -> Q.

(** C3, as the code has it. With zero scenes no video artifact is
    produced: null is returned, whatever the recording set-up does. When
    the set-up goes through, that happens in the first capture tick:
    looking up the current scene yields [undefined], nothing is drawn, the
    error is caught, logged and reported through onProgress; the error is
    not of a kind of its own. With scenes whose total duration is zero,
    composition is not refused: when the set-up goes through and the clock
    does not run backwards, the first tick draws one frame (the black
    background, the image of the current scene, then caption overlay
    only), stops the recorder, and an artifact is returned. *)
Theorem empty_timeline_outcome (env : Env) (captions : list Caption)
    (settings : CaptionSettings) (a : AspectRatio)
    (startTime now : Z) (later : list Z) :
  canvasContext env = true ->
  clock env = startTime :: now :: later ->
  fst (composeVideo measureText env [] captions settings a) = Returned None
  /\ ((forall s, throws env s = None) ->
      let e := TypeError "currentScene is undefined" in
      composeVideo measureText env [] captions settings a
      = (Returned None,
         effectsBeforeRecording []
           ++ snd (reportProgress (Fin 0)
                     (progressPercent (elapsedAt startTime now) 0))
           ++ [ConsoleError e; OnProgress (ErrorMessage e)])
      /\ ops (l_ctx (recordingLoop measureText env [] captions settings a))
         = [])
  /\ (forall scenes,
        scenes <> [] -> totalDuration scenes == 0 -> (startTime <= now)%Z ->
        (forall s, throws env s = None) ->
        let loaded := loadImages env (load a) (lengthZ scenes) 0 scenes in
        exists blob sent img more,
          composeVideo measureText env scenes captions settings a
          = (Returned (Some blob),
             effectsBeforeRecording (snd loaded) ++ sent
               ++ [AudioPause; RecorderStop] ++ effectsAfterRecording)
          /\ Forall (fun e => isRecordingMessage e = true) sent
          /\ sceneImageAt (sceneTimings (fst loaded) scenes)
               (elapsedAt startTime now) = Some img
          /\ ops (l_ctx (recordingLoop measureText env scenes captions
                           settings a))
             = FillRect "#000000" 0 0 (width (load a)) (height (load a))
               :: DrawImage img (drawX (coverRect (load a) img))
                    (drawY (coverRect (load a) img))
                    (drawWidth (coverRect (load a) img))
                    (drawHeight (coverRect (load a) img))
               :: more
          /\ Forall (fun op => isOverlay op = true) more).
Proof.
  intros Hcanvas Hclock.
  assert (Hloop0 : recordingLoop measureText env [] captions settings a
                   = {| l_ctx := freshCtx;
                        l_effects :=
                          snd (reportProgress (Fin 0)
                                 (progressPercent (elapsedAt startTime now) 0));
                        l_end :=
                          Threw 0 (TypeError "currentScene is undefined") |}).
  { unfold recordingLoop. rewrite Hclock. cbn [loadImages fst animate].
    unfold totalDuration, sceneTimings. cbn [fold_left sceneTimingsFrom].
    destruct (reportProgress (Fin 0)
                (progressPercent (elapsedAt startTime now) 0))
      as [last sent].
    reflexivity. }
  split; [|split].
  - unfold composeVideo. rewrite Hcanvas. cbn [negb].
    destruct (setUp env recordingSetUp) as [setup [e|]]; [reflexivity|].
    rewrite Hloop0. reflexivity.
  - intros Hthrough e.
    rewrite (composeVideo_through measureText env [] captions settings a
               Hcanvas Hthrough).
    cbv zeta. rewrite Hloop0. cbn [l_end l_effects l_ctx loadImages snd].
    split; reflexivity.
  - intros scenes Hne Hzero Hmono Hthrough loaded.
    rewrite (composeVideo_through measureText env scenes captions settings a
               Hcanvas Hthrough).
    cbv zeta. fold loaded.
    pose proof (loadImages_length env (load a) (lengthZ scenes) scenes 0)
      as Hlen.
    fold loaded in Hlen.
    unfold recordingLoop. rewrite Hclock. fold loaded. cbn [animate].
    assert (Hsent : Forall (fun e => isRecordingMessage e = true)
                      (snd (reportProgress (Fin 0)
                              (progressPercent (elapsedAt startTime now)
                                 (totalDuration scenes))))).
    { unfold reportProgress. destruct (gt _ _); cbn; repeat constructor. }
    destruct (reportProgress (Fin 0)
                (progressPercent (elapsedAt startTime now)
                   (totalDuration scenes))) as [last sent].
    cbn [snd] in Hsent.
    destruct (currentScene_ready (fst loaded) scenes (elapsedAt startTime now)
                Hne Hlen) as (s & img & Hs & Himg).
    rewrite Hs, Himg.
    destruct (drawFrame_frame measureText (load a) img captions settings
                (elapsedAt startTime now) freshCtx)
      as (ctx' & more & Hframe & Hops & Hov).
    rewrite Hframe.
    assert (Hstop : Qlt_bool (elapsedAt startTime now) (totalDuration scenes)
                    = false).
    { apply Qlt_bool_false. rewrite Hzero. unfold elapsedAt.
      apply round64_nonneg. apply Qle_shift_div_l; [reflexivity|].
      rewrite Qmult_0_l. apply round64_nonneg.
      change 0 with (inject_Z 0). rewrite <- Zle_Qle. lia. }
    rewrite Hstop. cbn [l_end l_effects l_ctx].
    eexists _, sent, img, more.
    split; [rewrite <- !app_assoc; reflexivity|].
    split; [exact Hsent|].
    split; [unfold sceneImageAt; rewrite Hs; exact Himg|].
    split; [exact Hops | exact Hov].
Qed.

End EmptyTimeline.

(** C3, as stated, fails: a scene of duration zero gives a total duration
    of zero, and composition returns an artifact; with zero scenes null is
    returned, yet the recorder and the audio were started and are not
    stopped. *)
Lemma zero_duration_yields_artifact :
  totalDuration [sceneOf 0] == 0
  /\ (exists blob effects,
        composeVideo tenPerChar (hostWith [0; 0]%Z) [sceneOf 0] []
          DEFAULT_CAPTION_SETTINGS ar_9_16
        = (Returned (Some blob), effects))
  /\ (exists effects,
        composeVideo tenPerChar (hostWith [0; 0]%Z) [] []
          DEFAULT_CAPTION_SETTINGS ar_9_16
        = (Returned None, effects)
        /\ In RecorderStart effects /\ In AudioPlay effects
        /\ ~ In RecorderStop effects /\ ~ In AudioPause effects).
Proof.
  split; [reflexivity|]. split.
  - eexists _, _. vm_compute. reflexivity.
  - eexists. split; [vm_compute; reflexivity|].
    repeat split; simpl; try tauto;
      intro H; repeat (destruct H as [H | H]; [discriminate H|]); exact H.
Qed.

Lemma empty_timeline_outcome_sample :
  (canvasContext (hostWith [0; 0]%Z) = true
   /\ clock (hostWith [0; 0]%Z) = [0; 0]%Z)
  /\ fst (composeVideo tenPerChar (hostWith [0; 0]%Z) [] []
            DEFAULT_CAPTION_SETTINGS ar_9_16)
     = Returned None
  /\ exists img,
       imagesDrawn
         (ops (l_ctx (recordingLoop tenPerChar (hostWith [0; 0]%Z) [sceneOf 0]
                        [] DEFAULT_CAPTION_SETTINGS ar_9_16)))
       = [img].
Proof.
  split; [split; reflexivity|].
  destruct (empty_timeline_outcome tenPerChar (hostWith [0; 0]%Z) []
              DEFAULT_CAPTION_SETTINGS ar_9_16 0 0 [] eq_refl eq_refl)
    as (Hnull & _ & Hzero).
  split; [exact Hnull|].
  destruct (Hzero [sceneOf 0] ltac:(discriminate) ltac:(reflexivity)
              ltac:(lia) ltac:(reflexivity))
    as (blob & sent & img & more & _ & _ & _ & Hops & Hov).
  exists img. rewrite Hops. cbn [imagesDrawn flat_map app].
  f_equal. apply (overlay_no_image more Hov).
Defined.


(** ** Loading the images *)

Lemma loadImages_nth (env : Env) (this : VideoComposer) (n : Z)
    (scenes : list Scene) :
  forall i k sc,
    nth_error scenes k = Some sc ->
    nth_error (fst (loadImages env this n i scenes)) k
    = Some (match imageUrl sc with
            | Some url =>
                if nonEmpty url then
                  match loadImage env url with
                  | Some img => img
                  | None => createPlaceholder this (i + Z.of_nat k + 1)
                  end
                else createPlaceholder this (i + Z.of_nat k + 1)
            | None => createPlaceholder this (i + Z.of_nat k + 1)
            end).
Proof.
  induction scenes as [|s rest IH]; intros i k sc Hk.
  - destruct k; discriminate.
  - cbn [loadImages]. specialize (IH (i + 1)%Z).
    destruct (loadImages env this n (i + 1) rest) as [imgs effs].
    cbn [fst] in IH.
    destruct k as [|k].
    + injection Hk as ->. rewrite Z.add_0_r.
      destruct (imageUrl sc) as [url|]; [destruct (nonEmpty url)|];
        reflexivity.
    + specialize (IH k sc Hk).
      replace (i + Z.of_nat (S k) + 1)%Z with (i + 1 + Z.of_nat k + 1)%Z by lia.
      destruct (imageUrl s) as [url|]; [destruct (nonEmpty url)|];
        cbn [fst nth_error]; exact IH.
Qed.

(** Loading never fails and yields one image per scene, which the timeline
    attaches to the interval of that scene: the loaded image when the scene
    has a URL that loads, and otherwise (no URL, an empty URL, a load that
    fails) a placeholder of the output size that carries the 1-based
    position of the scene. *)
Theorem loadImages_per_scene (env : Env) (a : AspectRatio)
    (scenes : list Scene) :
  let this := load a in
  let images := fst (loadImages env this (lengthZ scenes) 0 scenes) in
  List.length images = List.length scenes
  /\ forall i sc,
       nth_error scenes i = Some sc ->
       exists img s,
         nth_error images i = Some img
         /\ nth_error (sceneTimings images scenes) i = Some s
         /\ image s = Some img
         /\ (forall url loaded,
               imageUrl sc = Some url -> url <> EmptyString ->
               loadImage env url = Some loaded -> img = loaded)
         /\ ((imageUrl sc = None \/ imageUrl sc = Some EmptyString
              \/ exists url, imageUrl sc = Some url /\ loadImage env url = None)
             -> img = {| content := Placeholder (Z.of_nat i + 1);
                         img_width := width this;
                         img_height := height this |}).
Proof.
  intros this images.
  assert (Hlen : List.length images = List.length scenes)
    by apply loadImages_length.
  split; [exact Hlen|]. intros i sc Hsc.
  pose proof (loadImages_nth env this (lengthZ scenes) scenes 0 i sc Hsc) as Hi.
  fold images in Hi. rewrite Z.add_0_l in Hi.
  destruct (nth_error (sceneTimings images scenes) i) as [s|] eqn:Hs.
  2:{ apply nth_error_None in Hs.
      unfold sceneTimings in Hs. rewrite sceneTimingsFrom_length in Hs.
      assert (i < List.length scenes)%nat by (apply nth_error_Some; congruence).
      lia. }
  eexists _, s. split; [exact Hi|]. split; [reflexivity|]. split.
  { apply sceneTimingsFrom_image in Hs. destruct Hs as [Hs _].
    simpl in Hs. now rewrite Hs. }
  split.
  - intros url loaded Hurl Hne Hload. rewrite Hurl.
    destruct url; [congruence|]. cbn [nonEmpty]. now rewrite Hload.
  - intros [Hnone | [Hempty | (url & Hurl & Hfail)]].
    + rewrite Hnone. reflexivity.
    + rewrite Hempty. reflexivity.
    + rewrite Hurl, Hfail. now destruct (nonEmpty url).
Qed.

(** ** Karaoke: the highlighted word and the two lines *)

Lemma firstn_plus {A : Type} (a b : nat) (l : list A) :
  firstn (a + b) l = firstn a l ++ firstn b (skipn a l).
Proof.
  revert l. induction a as [|a IH]; intro l; [reflexivity|].
  destruct l as [|x l]; simpl; [now destruct b | now rewrite IH].
Qed.

Lemma skipn_cons_nth {A : Type} (l : list A) :
  forall i x, nth_error l i = Some x -> skipn i l = x :: skipn (S i) l.
Proof.
  induction l as [|y l IH]; intros [|i] x H; try discriminate.
  - now injection H as ->.
  - simpl in H. cbn [skipn]. now apply IH.
Qed.

Lemma sliceZ_split {A : Type} (l : list A) (s i e : Z) (x : A) :
  (0 <= s <= i)%Z -> (i < e <= lengthZ l)%Z -> item l i = Some x ->
  sliceZ l s e = sliceZ l s i ++ x :: sliceZ l (i + 1) e.
Proof.
  intros Hs He Hx. rewrite !sliceZ_spec by lia.
  unfold item in Hx. destruct (Z.ltb_spec i 0); [lia|].
  replace (Z.to_nat (e - s)) with (Z.to_nat (i - s) + Z.to_nat (e - i))%nat by lia.
  rewrite firstn_plus. f_equal. rewrite skipn_skipn.
  replace (Z.to_nat (i - s) + Z.to_nat s)%nat with (Z.to_nat i) by lia.
  rewrite (skipn_cons_nth l _ x Hx).
  replace (Z.to_nat (e - i)) with (S (Z.to_nat (e - (i + 1)))) by lia.
  cbn [firstn]. do 3 f_equal. lia.
Qed.

Lemma halfUp_spec (n : Z) : (n <= 2 * halfUp n <= n + 1)%Z.
Proof.
  unfold halfUp.
  pose proof (Qle_ceiling (inject_Z n / 2)) as Hup.
  pose proof (Qceiling_lt (inject_Z n / 2)) as Hlo.
  set (h := Qceiling (inject_Z n / 2)) in *.
  unfold Qle, Qlt, Qdiv, Qmult, Qinv, inject_Z in Hup, Hlo. simpl in Hup, Hlo.
  lia.
Qed.

Section KaraokeLook.

Variable settings : CaptionSettings.
Variable fs : Q.
Variable idx : Z.

Lemma karaokeLook_past (l : list WordTiming) :
  forall k, (k + lengthZ l <= idx)%Z ->
    map (karaokeLook settings fs idx) (indexed k l)
    = map (pastLook settings fs) l.
Proof.
  unfold lengthZ.
  induction l as [|w l IH]; intros k Hk; [reflexivity|].
  cbn [indexed map List.length] in *. rewrite IH by lia.
  unfold karaokeLook, pastLook.
  destruct (Z.eqb_spec k idx); [lia|]. destruct (Z.ltb_spec k idx); [|lia].
  reflexivity.
Qed.

Lemma karaokeLook_future (l : list WordTiming) :
  forall k, (idx < k)%Z ->
    map (karaokeLook settings fs idx) (indexed k l) = map (dimLook fs) l.
Proof.
  induction l as [|w l IH]; intros k Hk; [reflexivity|].
  cbn [indexed map]. rewrite IH by lia.
  unfold karaokeLook, dimLook.
  destruct (Z.eqb_spec k idx); [lia|]. destruct (Z.ltb_spec k idx); [lia|].
  reflexivity.
Qed.

End KaraokeLook.

Section KaraokeLines.

Variable measureText : Font -> string -> Q.
Variable this : VideoComposer.


Lemma drawWordsFrom_lines (settings : CaptionSettings) (fs : Q) (idx ls : Z)
    (y : Q) (ws : list WordTiming) :
  forall i x ctx,
    drawnLines (ops (drawWordsFrom measureText y idx ls settings fs i x ws ctx))
    = drawnLines (ops ctx) ++ map (fun w => (word w, y)) ws.
Proof.
  induction ws as [|w rest IH]; intros i x ctx; cbn [drawWordsFrom map].
  - now rewrite app_nil_r.
  - rewrite IH. destruct (styleOf (ls + i) idx); cbn;
      rewrite drawnLines_app, <- app_assoc; reflexivity.
Qed.

(** Karaoke draws the window on two lines, one line height apart around
    the anchor: the first half of the words (the larger half when their
    number is odd) above, the rest below, at most four words a line. *)
Theorem karaoke_two_lines (caption : Caption) (settings : CaptionSettings)
    (t : Q) (ctx : Ctx) (ws : list WordTiming) :
  words caption = Some ws -> ws <> [] ->
  let fs := getFontSize this (fontSize settings) in
  let y := getYPosition this (position settings) in
  let lineHeight := fs * 1.3 in
  let '(s, e) := karaokeWindow (lengthZ ws) (currentWordIdx ws t) in
  exists line1 line2,
    line1 ++ line2 = sliceZ ws s e
    /\ drawnLines
         (ops (drawKaraokeCaption measureText this caption settings t ctx))
       = drawnLines (ops ctx)
           ++ map (fun w => (word w, y - lineHeight / 2)) line1
           ++ map (fun w => (word w, y + lineHeight / 2)) line2
    /\ (List.length line2 <= List.length line1 <= List.length line2 + 1)%nat
    /\ (List.length line1 <= 4)%nat.
Proof.
  intros Hws Hne fs y lineHeight.
  assert (Hlen : (0 <= lengthZ ws)%Z) by (unfold lengthZ; lia).
  destruct (karaokeWindow_bounds (lengthZ ws) (currentWordIdx ws t) Hlen)
    as (Hwin & Hs & He & H8).
  destruct (karaokeWindow (lengthZ ws) (currentWordIdx ws t)) as [s e] eqn:Hk.
  injection Hwin as Hs' He'.
  rewrite <- Hs' in Hs, H8. rewrite <- He' in Hs, He, H8.
  set (visible := sliceZ ws s e).
  assert (Hvis : lengthZ visible = (e - s)%Z) by (apply sliceZ_length; lia).
  pose proof (halfUp_spec (lengthZ visible)) as Hh.
  set (h := halfUp (lengthZ visible)) in *.
  assert (H1 : sliceZ visible 0 h = firstn (Z.to_nat h) visible).
  { rewrite sliceZ_spec by lia. simpl. now rewrite Z.sub_0_r. }
  assert (H2 : slice visible (ofZ h) PInf = skipn (Z.to_nat h) visible)
    by (apply slice_to_end; lia).
  exists (firstn (Z.to_nat h) visible), (skipn (Z.to_nat h) visible).
  split; [apply firstn_skipn|].
  assert (Hl1 : List.length (firstn (Z.to_nat h) visible) = Z.to_nat h).
  { rewrite length_firstn. unfold lengthZ in *. lia. }
  assert (Hl2 : (List.length (skipn (Z.to_nat h) visible)
                 = Z.to_nat (e - s) - Z.to_nat h)%nat).
  { rewrite length_skipn. unfold lengthZ in *. lia. }
  split.
  - unfold drawKaraokeCaption. rewrite Hws.
    destruct ws as [|w0 ws']; [congruence|]. rewrite Hk.
    fold visible. fold h. rewrite H1, H2.
    destruct (0 <? lengthZ (skipn (Z.to_nat h) visible))%Z eqn:E2.
    + unfold drawWordLine. rewrite !drawWordsFrom_lines. cbn.
      rewrite !drawnLines_app. cbn. rewrite !app_nil_r, <- app_assoc.
      reflexivity.
    + assert (Hnil : skipn (Z.to_nat h) visible = []).
      { apply Z.ltb_ge in E2. unfold lengthZ in E2.
        destruct (skipn (Z.to_nat h) visible); [reflexivity | simpl in E2; lia]. }
      rewrite Hnil. unfold drawWordLine. rewrite drawWordsFrom_lines. cbn.
      rewrite !drawnLines_app. cbn. rewrite !app_nil_r. reflexivity.
  - rewrite Hl1, Hl2. lia.
Qed.

End KaraokeLines.

(** ** The backdrop stays on the canvas *)

Section Backdrop.

Variable measureText : Font -> string -> Q.

Lemma drawWordsFrom_backdrops (settings : CaptionSettings) (fs : Q)
    (idx ls : Z) (y : Q) (ws : list WordTiming) :
  forall i x ctx,
    backdrops (ops (drawWordsFrom measureText y idx ls settings fs i x ws ctx))
    = backdrops (ops ctx).
Proof.
  induction ws as [|w rest IH]; intros i x ctx; cbn [drawWordsFrom];
    [reflexivity|].
  rewrite IH. destruct (styleOf (ls + i) idx); cbn -[backdrops];
    rewrite backdrops_app; cbn; now rewrite app_nil_r.
Qed.

Lemma drawLines_backdrops (this : VideoComposer) (n : Z) (y lh : Q)
    (lines : list string) :
  forall i ctx,
    backdrops (ops (drawLines this n y lh i lines ctx)) = backdrops (ops ctx).
Proof.
  induction lines as [|line rest IH]; intros i ctx; cbn [drawLines];
    [reflexivity|].
  rewrite IH. cbn -[backdrops]. rewrite backdrops_app. cbn.
  now rewrite app_nil_r.
Qed.

Lemma sentence_backdrop (a : AspectRatio) (caption : Caption)
    (settings : CaptionSettings) (t : Q) (ctx : Ctx) :
  exists r,
    backdrops (ops (drawSentenceCaption measureText (load a) caption settings
                      t ctx))
    = backdrops (ops ctx) ++ [r]
    /\ insideCanvas (width (load a)) (height (load a)) r.
Proof.
  unfold drawSentenceCaption. rewrite drawLines_backdrops. cbn [ops fill call
    setFillStyle roundRect beginPath setTextBaseline setTextAlign setFont].
  rewrite !backdrops_app. cbn [backdrops flat_map app].
  rewrite !app_nil_r. eexists. split; [reflexivity|].
  match goal with
  | |- context [wrapLines ?m ?f ?w ?txt] =>
      pose proof (wrapLines_greedy m f w txt) as Hg;
      assert (Hlen : (List.length (wrapLines m f w txt) <= 2)%nat)
        by (rewrite Hg; apply firstn_le_length);
      clear Hg; generalize dependent (wrapLines m f w txt)
  end.
  intros lines Hlen.
  assert (Hcases : lengthZ lines = 0%Z \/ lengthZ lines = 1%Z
                   \/ lengthZ lines = 2%Z) by (unfold lengthZ; lia).
  destruct settings as [tpl pos size fam col bg].
  cbn [fontSize position].
  destruct Hcases as [-> | [-> | ->]]; destruct a, pos, size;
    repeat split; vm_compute; discriminate.
Qed.

Lemma karaoke_backdrop (a : AspectRatio) (caption : Caption)
    (settings : CaptionSettings) (t : Q) (ctx : Ctx) :
  exists r,
    backdrops (ops (drawKaraokeCaption measureText (load a) caption settings
                      t ctx))
    = backdrops (ops ctx) ++ [r]
    /\ insideCanvas (width (load a)) (height (load a)) r.
Proof.
  unfold drawKaraokeCaption.
  destruct (words caption) as [[|w0 ws']|];
    try (destruct (sentence_backdrop a caption settings t
                     (setTextBaseline "middle"
                        (setTextAlign "center"
                           (setFont (boldFont (getFontSize (load a)
                                                 (fontSize settings)) settings)
                              ctx)))) as (r & Hr & Hin);
         exists r; split; [exact Hr | exact Hin]).
  match goal with
  | |- context [karaokeWindow ?x ?y] => destruct (karaokeWindow x y) as [s e]
  end.
  assert (Hin : insideCanvas (width (load a)) (height (load a))
                  (width (load a) / 2 - width (load a) * 0.85 / 2 - 20,
                   getYPosition (load a) (position settings)
                   - (getFontSize (load a) (fontSize settings) * 1.3 * 2
                      + 20 * 2) / 2,
                   width (load a) * 0.85 + 20 * 2,
                   getFontSize (load a) (fontSize settings) * 1.3 * 2 + 20 * 2)).
  { destruct settings as [tpl pos size fam col bg]. cbn [fontSize position].
    destruct a, pos, size; repeat split; vm_compute; discriminate. }
  eexists. split; [|exact Hin].
  match goal with
  | |- context [if ?b then _ else _] => destruct b
  end; unfold drawWordLine; rewrite !drawWordsFrom_backdrops;
    cbn -[backdrops]; rewrite !backdrops_app; cbn; rewrite !app_nil_r;
    reflexivity.
Qed.

(** Whatever the aspect ratio, the anchor and the size class, a caption
    draws at most one rounded backdrop, and it lies within the canvas:
    one for the karaoke and sentence templates, none for the word-by-word
    and minimal ones. *)
Theorem caption_backdrop_inside (a : AspectRatio) (caption : Caption)
    (settings : CaptionSettings) (t : Q) (ctx : Ctx) :
  let this := load a in
  exists new,
    backdrops (ops (drawCaption measureText this caption settings t ctx))
    = backdrops (ops ctx) ++ new
    /\ Forall (insideCanvas (width this) (height this)) new
    /\ List.length new
       = match template settings with
         | karaoke | sentence => 1%nat
         | word_by_word | minimal => 0%nat
         end.
Proof.
  intro this. unfold drawCaption.
  destruct (template settings).
  - destruct (karaoke_backdrop a caption settings t ctx) as (r & Hr & Hin).
    exists [r]. split; [exact Hr|]. split; [now constructor | reflexivity].
  - exists []. split; [|split; [constructor | reflexivity]].
    unfold drawWordByWordCaption.
    destruct (nonEmpty (currentWordOf caption t)); cbn -[backdrops];
      rewrite ?backdrops_app; cbn; now rewrite ?app_nil_r.
  - destruct (sentence_backdrop a caption settings t ctx) as (r & Hr & Hin).
    exists [r]. split; [exact Hr|]. split; [now constructor | reflexivity].
  - exists []. split; [|split; [constructor | reflexivity]].
    unfold drawMinimalCaption. cbn -[backdrops]. rewrite backdrops_app. cbn.
    now rewrite !app_nil_r.
Qed.

End Backdrop.

(** ** The windows of the sentence and minimal templates *)

Lemma captionProgress_mono (c : Caption) (t t' : Q) :
  startTime c <= t -> t <= t' -> t' < endTime c ->
  (t - startTime c) / (endTime c - startTime c)
  <= (t' - startTime c) / (endTime c - startTime c).
Proof.
  intros H1 H2 H3. unfold Qdiv. apply Qmult_le_compat_r; [lra|].
  apply Qinv_le_0_compat. lra.
Qed.

Lemma window_mono (n c c' back : Z) :
  (c <= c')%Z ->
  (Z.min n c <= Z.min n c')%Z
  /\ (Z.max 0 (Z.min n c - back) <= Z.max 0 (Z.min n c' - back))%Z.
Proof. lia. Qed.

(** While a caption is on, the sentence template shows a window of at most
    8 of its words and the minimal template one of at most 6; the window
    only moves forward with time. It starts as the first 4 words (3 for
    minimal), or the whole text when that is shorter, and it always holds
    at least that many words. *)
Theorem reveal_windows_advance (caption : Caption) (t t' : Q) :
  startTime caption <= t -> t <= t' -> t' < endTime caption ->
  let n := lengthZ (split " " (text caption)) in
  (exists s e s' e',
      sentenceWindow n (captionProgress caption t) = (ofZ s, ofZ e)
      /\ sentenceWindow n (captionProgress caption t') = (ofZ s', ofZ e')
      /\ (s <= s')%Z /\ (e <= e')%Z
      /\ (0 <= s <= e)%Z /\ (e <= n)%Z /\ (e - s <= 8)%Z
      /\ (Z.min n 4 <= e - s)%Z
      /\ (t == startTime caption -> s = 0%Z /\ e = Z.min n 4))
  /\ (exists s e s' e',
        minimalWindow n (captionProgress caption t) = (ofZ s, ofZ e)
        /\ minimalWindow n (captionProgress caption t') = (ofZ s', ofZ e')
        /\ (s <= s')%Z /\ (e <= e')%Z
        /\ (0 <= s <= e)%Z /\ (e <= n)%Z /\ (e - s <= 6)%Z
        /\ (Z.min n 3 <= e - s)%Z
        /\ (t == startTime caption -> s = 0%Z /\ e = Z.min n 3)).
Proof.
  intros H1 H2 H3 n.
  assert (Hn : (0 < n)%Z) by apply split_length.
  destruct (captionProgress_span caption t ltac:(split; lra)) as (Hp & Hp0 & Hp1).
  destruct (captionProgress_span caption t' ltac:(split; lra))
    as (Hp' & Hp0' & Hp1').
  pose proof (captionProgress_mono caption t t' H1 H2 H3) as Hmono.
  set (p := (t - startTime caption) / (endTime caption - startTime caption)) in *.
  set (p' := (t' - startTime caption) / (endTime caption - startTime caption))
    in *.
  assert (Hq : 0 <= inject_Z n)
    by (change 0 with (inject_Z 0); rewrite <- Zle_Qle; lia).
  assert (Hc : (Qceiling (p * inject_Z n) <= Qceiling (p' * inject_Z n))%Z).
  { apply Qceiling_resp_le. clearbody p p'. nra. }
  assert (Hc0 : (0 <= Qceiling (p * inject_Z n))%Z).
  { change 0%Z with (Qceiling 0). apply Qceiling_resp_le. clearbody p. nra. }
  assert (Hstart : t == startTime caption -> Qceiling (p * inject_Z n) = 0%Z).
  { intro Ht. change 0%Z with (Qceiling 0). apply Qceiling_comp.
    unfold p. rewrite Ht. unfold Qminus. rewrite Qplus_opp_r.
    unfold Qdiv. rewrite !Qmult_0_l. reflexivity. }
  rewrite Hp, Hp'. split.
  - rewrite !sentenceWindow_finite.
    eexists _, _, _, _. split; [reflexivity|]. split; [reflexivity|].
    destruct (window_mono n (Qceiling (p * inject_Z n) + 4)
                (Qceiling (p' * inject_Z n) + 4) 8 ltac:(lia)) as [He Hs].
    split; [exact Hs|]. split; [exact He|].
    split; [lia|]. split; [lia|]. split; [lia|]. split; [lia|].
    intro Ht. rewrite (Hstart Ht). lia.
  - rewrite !minimalWindow_finite.
    eexists _, _, _, _. split; [reflexivity|]. split; [reflexivity|].
    destruct (window_mono n (Qceiling (p * inject_Z n) + 3)
                (Qceiling (p' * inject_Z n) + 3) 6 ltac:(lia)) as [He Hs].
    split; [exact Hs|]. split; [exact He|].
    split; [lia|]. split; [lia|]. split; [lia|]. split; [lia|].
    intro Ht. rewrite (Hstart Ht). lia.
Qed.

(** * The captions that the editor builds *)

(** ** From a transcription *)

Lemma collectWords_spec (sceneEndTime : Q) (ws : list WordTiming) :
  forall acc txt,
    exists taken txt' rest,
      collectWords sceneEndTime ws acc txt = (acc ++ taken, txt', rest)
      /\ ws = taken ++ rest
      /\ Forall (fun w => w_start w < sceneEndTime) taken
      /\ (forall w, hd_error rest = Some w -> sceneEndTime <= w_start w).
Proof.
  induction ws as [|w ws IH]; intros acc txt; cbn [collectWords].
  - exists [], txt, []. rewrite app_nil_r. repeat split; auto. discriminate.
  - destruct (Qlt_bool (w_start w) sceneEndTime) eqn:E.
    + destruct (IH (acc ++ [w])
                  (txt ++ (if nonEmpty txt then space else EmptyString)
                     ++ word w)%string)
        as (taken & txt' & rest & Hc & Hws & Hall & Hhd).
      exists (w :: taken), txt', rest. rewrite Hc, <- app_assoc.
      split; [reflexivity|]. split; [now rewrite Hws|].
      split; [|exact Hhd]. constructor; [now apply Qlt_bool_iff | exact Hall].
    + exists [], txt, (w :: ws). rewrite app_nil_r.
      split; [reflexivity|]. split; [reflexivity|]. split; [constructor|].
      intros w' Hw'. injection Hw' as <-. now apply Qlt_bool_false.
Qed.

Section FromTranscription.

Variable images : list Image.

Lemma captionOfScene_shift (i : Z) (j : nat) (c : Q) (sc : Scene)
    (rest : list Scene) (ic : Z * Caption) :
  captionOfScene images (i + 1) (S j) (c + duration sc) rest ic ->
  captionOfScene images i j c (sc :: rest) ic.
Proof.
  intros (k & s & l & Hid & Hs & H). exists (S k), s, l.
  split; [rewrite Hid; lia|]. split; [exact Hs | exact H].
Qed.

Lemma captionsFrom_spec (scenes : list Scene) :
  forall i j c ws,
    let caps := captionsFrom i c ws scenes in
    Forall (captionOfScene images i j c scenes) caps
    /\ Forall (fun ic => (i <= fst ic)%Z) caps
    /\ StronglySorted Z.lt (map fst caps)
    /\ exists dropped,
         List.concat (map (fun ic => captionWords (snd ic)) caps) ++ dropped = ws
         /\ (scenes <> [] -> forall w, hd_error dropped = Some w ->
               fold_left (fun acc s => acc + duration s) scenes c
               <= w_start w).
Proof.
  induction scenes as [|sc rest IH]; intros i j c ws caps.
  - subst caps. cbn. repeat split; try constructor.
    exists ws. split; [reflexivity | congruence].
  - subst caps. cbn [captionsFrom].
    destruct (collectWords_spec (c + duration sc) ws [] EmptyString)
      as (taken & txt & left & Hc & Hws & Hall & Hhd).
    rewrite Hc. cbn [app].
    specialize (IH (i + 1)%Z (S j) (c + duration sc) left). cbv zeta in IH.
    destruct IH as (Hcaps & Hge & Hsorted & dropped & Hcat & Hdrop).
    assert (Hshift : Forall (captionOfScene images i j c (sc :: rest))
                       (captionsFrom (i + 1) (c + duration sc) left rest)).
    { eapply Forall_impl; [|exact Hcaps].
      intros ic. apply captionOfScene_shift. }
    assert (Hge' : Forall (fun ic => (i <= fst ic)%Z)
                     (captionsFrom (i + 1) (c + duration sc) left rest)).
    { eapply Forall_impl; [|exact Hge]. intros ic H. simpl in H. lia. }
    assert (Hlast : forall w, hd_error dropped = Some w ->
               fold_left (fun acc s => acc + duration s) rest (c + duration sc)
               <= w_start w).
    { destruct rest as [|sc' rest']; [|apply Hdrop; discriminate].
      cbn in Hcat. subst dropped. exact Hhd. }
    destruct taken as [|w0 taken'].
    + split; [exact Hshift|]. split; [exact Hge'|]. split; [exact Hsorted|].
      exists dropped. split; [now rewrite Hcat, Hws|].
      intros _. exact Hlast.
    + split.
      { constructor; [|exact Hshift].
        exists 0%nat, {| start := c; end_ := c + duration sc;
                         image := nth_error images j |}, (w0 :: taken').
        cbn. repeat split; try lia; try discriminate. exact Hall. }
      split; [constructor; [cbn; lia | exact Hge']|].
      split.
      { cbn [map fst]. constructor; [exact Hsorted|].
        rewrite Forall_map. eapply Forall_impl; [|exact Hge].
        intros ic H. simpl in H. lia. }
      exists dropped. split.
      { cbn [map List.concat captionWords snd words]. rewrite <- app_assoc.
        now rewrite Hcat, Hws. }
      intros _. exact Hlast.
Qed.

End FromTranscription.

Lemma StronglySorted_app_r {A : Type} (R : A -> A -> Prop) (l1 l2 : list A) :
  StronglySorted R (l1 ++ l2) -> StronglySorted R l2.
Proof.
  induction l1 as [|x l1 IH]; intro H; [exact H|].
  apply IH. now apply StronglySorted_inv in H.
Qed.

Lemma startsAscend_from (E : Q) (ws : list WordTiming) :
  startsAscend ws ->
  (forall w, hd_error ws = Some w -> E <= w_start w) ->
  Forall (fun w => E <= w_start w) ws.
Proof.
  intros Hs Hhd. destruct ws as [|w ws]; [constructor|].
  specialize (Hhd w eq_refl). apply StronglySorted_inv in Hs.
  destruct Hs as [_ Hall]. constructor; [exact Hhd|].
  eapply Forall_impl; [|exact Hall]. intros w' Hw'. simpl in Hw'. lra.
Qed.

Lemma captionsFrom_in_span (scenes : list Scene) :
  forall i c ws,
    startsAscend ws -> Forall (fun w => c <= w_start w) ws ->
    forall ic w,
      In ic (captionsFrom i c ws scenes) -> In w (captionWords (snd ic)) ->
      startTime (snd ic) <= w_start w < endTime (snd ic).
Proof.
  induction scenes as [|sc rest IH]; intros i c ws Hsorted Hfrom ic w Hic Hw;
    [contradiction|].
  cbn [captionsFrom] in Hic.
  destruct (collectWords_spec (c + duration sc) ws [] EmptyString)
    as (taken & txt & left & Hc & Hws & Hall & Hhd).
  rewrite Hc in Hic. cbn [app] in Hic.
  assert (Hleft : startsAscend left)
    by (unfold startsAscend in *; rewrite Hws in Hsorted;
        now apply StronglySorted_app_r in Hsorted).
  assert (Hnext : Forall (fun w => c + duration sc <= w_start w) left)
    by now apply startsAscend_from.
  assert (Htaken : Forall (fun w => c <= w_start w) taken).
  { rewrite Hws in Hfrom. apply Forall_app in Hfrom. apply Hfrom. }
  destruct taken as [|w0 taken'].
  - now apply (IH (i + 1)%Z (c + duration sc) left Hleft Hnext ic w).
  - destruct Hic as [<- | Hic].
    + cbn in Hw |- *. rewrite Forall_forall in Hall, Htaken.
      split; [now apply Htaken | now apply Hall].
    + now apply (IH (i + 1)%Z (c + duration sc) left Hleft Hnext ic w).
Qed.

Section TranscriptionClaims.

Variable images : list Image.

(** The captions made from a transcription follow the scenes: each spans
    the timeline interval of the scene whose number it carries, scenes are
    taken in order and a scene without words gets no caption, a caption
    holds at least one word and all its words start before its span ends.
    The words of the captions, in order, are the transcribed words from
    the first on, none twice; what is left out is a tail whose first word
    starts at or after the total duration, and so do all its words when
    the starts of the transcribed words do not decrease. *)
Theorem transcription_captions_follow_scenes (ws : list WordTiming)
    (scenes : list Scene) :
  let caps := createCaptionsFromTranscription ws scenes in
  Forall (captionOfScene images 0 0 0 scenes) caps
  /\ StronglySorted Z.lt (map fst caps)
  /\ (List.length caps <= List.length scenes)%nat
  /\ exists dropped,
       List.concat (map (fun ic => captionWords (snd ic)) caps) ++ dropped = ws
       /\ (scenes <> [] -> forall w, hd_error dropped = Some w ->
             totalDuration scenes <= w_start w)
       /\ (scenes <> [] -> startsAscend ws ->
           Forall (fun w => totalDuration scenes <= w_start w) dropped).
Proof.
  intro caps.
  destruct (captionsFrom_spec images scenes 0 0 0 ws)
    as (Hcaps & Hge & Hsorted & Hdropped).
  change (captionsFrom 0 0 ws scenes) with caps in Hcaps, Hge, Hsorted,
    Hdropped.
  clearbody caps.
  split; [exact Hcaps|]. split; [exact Hsorted|]. split.
  2:{ destruct Hdropped as (dropped & Hcat & Hhd).
      exists dropped. split; [exact Hcat|]. split; [exact Hhd|].
      intros Hne Hasc. apply startsAscend_from; [|exact (Hhd Hne)].
      unfold startsAscend in *. rewrite <- Hcat in Hasc.
      now apply StronglySorted_app_r in Hasc. }
  assert (Hbound : Forall (fun z => (0 <= z < Z.of_nat (List.length scenes))%Z)
                     (map fst caps)).
  { rewrite Forall_map. eapply Forall_impl; [|exact Hcaps].
    intros ic (k & s & l & Hid & Hs & _).
    assert (Hk : (k < List.length (sceneTimingsFrom images 0 0 scenes))%nat)
      by (apply nth_error_Some; congruence).
    rewrite sceneTimingsFrom_length in Hk. lia. }
  rewrite <- (length_map fst caps).
  clear - Hsorted Hbound.
  assert (Hgen : forall (l : list Z) lo n,
             StronglySorted Z.lt l ->
             Forall (fun z => (lo <= z < lo + Z.of_nat n)%Z) l ->
             (List.length l <= n)%nat).
  { induction l as [|z l IH]; intros lo n Hs Hb; [simpl; lia|].
    apply StronglySorted_inv in Hs. destruct Hs as [Hs Hall].
    inversion Hb as [|? ? Hz Hb']; subst.
    destruct n as [|n]; [lia|]. simpl. apply le_n_S.
    apply (IH (z + 1)%Z n Hs).
    rewrite Forall_forall in *. intros y Hy.
    specialize (Hall y Hy). specialize (Hb' y Hy). lia. }
  apply (Hgen _ 0%Z); [exact Hsorted|].
  eapply Forall_impl; [|exact Hbound]. intros z Hz. simpl in Hz. lia.
Qed.

End TranscriptionClaims.

(** When the transcribed words start at non-negative times that do not
    decrease, every word of a caption starts within the span of that
    caption. *)
Theorem transcription_words_in_span (ws : list WordTiming)
    (scenes : list Scene) :
  startsAscend ws -> Forall (fun w => 0 <= w_start w) ws ->
  forall ic w,
    In ic (createCaptionsFromTranscription ws scenes) ->
    In w (captionWords (snd ic)) ->
    startTime (snd ic) <= w_start w < endTime (snd ic).
Proof.
  intros Hs H0. apply captionsFrom_in_span; assumption.
Qed.

(** Words a at 0, d at 25 and e at 3 over two scenes of ten seconds: d
    ends the collection, and e is left out although it starts at 3. *)
Example left_out_word_may_start_early :
  let ws := [ {| word := "a"; w_start := 0; w_end := 1 |};
              {| word := "d"; w_start := 25; w_end := 26 |};
              {| word := "e"; w_start := 3; w_end := 4 |} ] in
  map (fun ic => map word (captionWords (snd ic)))
    (createCaptionsFromTranscription ws [sceneOf 10; sceneOf 10])
  = [["a"%string]].
Proof. reflexivity. Qed.

(** ** From the scene texts *)

Lemma wordTimingsFrom_length (c wd : Q) (ws : list string) :
  forall wi, List.length (wordTimingsFrom c wd wi ws) = List.length ws.
Proof.
  induction ws as [|w ws IH]; intro wi; simpl; [reflexivity | now rewrite IH].
Qed.

Lemma wordTimingsFrom_words (c wd : Q) (ws : list string) :
  forall wi, map word (wordTimingsFrom c wd wi ws) = ws.
Proof.
  induction ws as [|w ws IH]; intro wi; simpl; [reflexivity | now rewrite IH].
Qed.

Lemma wordTimingsFrom_nth (c wd : Q) (ws : list string) :
  forall wi j w,
    nth_error ws j = Some w ->
    nth_error (wordTimingsFrom c wd wi ws) j
    = Some {| word := w;
              w_start :=
                round64 (c + round64 (inject_Z (wi + Z.of_nat j) * wd));
              w_end :=
                round64 (c + round64 (inject_Z (wi + Z.of_nat j + 1) * wd)) |}.
Proof.
  induction ws as [|w0 ws IH]; intros wi j w Hj.
  - destruct j; discriminate.
  - destruct j as [|j]; cbn [wordTimingsFrom nth_error] in *.
    + injection Hj as ->. rewrite Z.add_0_r. reflexivity.
    + rewrite (IH (wi + 1)%Z j w Hj).
      replace (wi + 1 + Z.of_nat j)%Z with (wi + Z.of_nat (S j))%Z by lia.
      reflexivity.
Qed.

Lemma wordTimingsFrom_chained (c wd : Q) (ws : list string) :
  forall wi, chained (wordTimingsFrom c wd wi ws).
Proof.
  induction ws as [|w0 ws IH]; intros wi j a b Ha Hb.
  - destruct j; discriminate.
  - destruct j as [|j]; cbn [wordTimingsFrom nth_error] in Ha, Hb.
    + injection Ha as <-. destruct ws as [|w1 ws]; [discriminate|].
      cbn [wordTimingsFrom nth_error] in Hb. injection Hb as <-. reflexivity.
    + exact (IH (wi + 1)%Z j a b Ha Hb).
Qed.

(** The start of the word of index [k], for a word length [wd]. *)
Lemma word_start_mono (c wd : Q) (k k' : Z) :
  0 <= wd -> (k <= k')%Z ->
  round64 (c + round64 (inject_Z k * wd))
  <= round64 (c + round64 (inject_Z k' * wd)).
Proof.
  intros Hwd Hk. apply round64_mono.
  assert (round64 (inject_Z k * wd) <= round64 (inject_Z k' * wd)).
  { apply round64_mono. apply Qmult_le_compat_r; [|exact Hwd].
    now rewrite <- Zle_Qle. }
  lra.
Qed.

Lemma wordTimingsFrom_from (c wd : Q) (ws : list string) :
  0 <= wd ->
  forall wi k, (k <= wi)%Z ->
    Forall (fun b => round64 (c + round64 (inject_Z k * wd)) <= w_start b)
      (wordTimingsFrom c wd wi ws).
Proof.
  intro Hwd. induction ws as [|w0 ws IH]; intros wi k Hk;
    cbn [wordTimingsFrom]; constructor.
  - cbn [w_start]. now apply word_start_mono.
  - apply IH. lia.
Qed.

Lemma wordTimingsFrom_ascend (c wd : Q) (ws : list string) :
  0 <= wd ->
  forall wi, startsAscend (wordTimingsFrom c wd wi ws)
             /\ Forall (fun a => w_start a <= w_end a)
                  (wordTimingsFrom c wd wi ws).
Proof.
  intro Hwd. unfold startsAscend.
  induction ws as [|w0 ws IH]; intro wi; cbn [wordTimingsFrom].
  - split; constructor.
  - destruct (IH (wi + 1)%Z) as [Hs Hall]. split.
    + constructor; [exact Hs|]. cbn [w_start].
      apply wordTimingsFrom_from; [exact Hwd | lia].
    + constructor; [|exact Hall]. cbn [w_start w_end].
      apply word_start_mono; [exact Hwd | lia].
Qed.

Lemma chained_tail (a : WordTiming) (l : list WordTiming) :
  chained (a :: l) -> chained l.
Proof. intros H j x y Hx Hy. exact (H (S j) x y Hx Hy). Qed.

(** Words that follow one another without a gap: an instant from the
    start of the first up to the end of the last lies in one of them. *)
Lemma chained_cover (t : Q) (l : list WordTiming) :
  chained l ->
  forall first,
    hd_error l = Some first ->
    w_start first <= t -> t < w_end (last l first) ->
    exists j w,
      nth_error l j = Some w /\ w_start w <= t < w_end w
      /\ forall i y, (i < j)%nat -> nth_error l i = Some y ->
                     ~ (w_start y <= t < w_end y).
Proof.
  induction l as [|a rest IH]; intros Hch first Hhd Hlo Hhi; [discriminate|].
  injection Hhd as <-.
  destruct (Qlt_le_dec t (w_end a)) as [Hin | Hout].
  - exists 0%nat, a. split; [reflexivity|]. split; [now split|].
    intros i y Hi. lia.
  - destruct rest as [|b rest'].
    + cbn in Hhi. lra.
    + assert (Hb : w_start b = w_end a) by exact (Hch 0%nat a b eq_refl eq_refl).
      destruct (IH (chained_tail _ _ Hch) b eq_refl)
        as (j & w & Hw & Hspan & Hfirst).
      * rewrite Hb. exact Hout.
      * change (last (a :: b :: rest') a) with (last (b :: rest') a) in Hhi.
        now rewrite (last_cons_default b rest' b a).
      * exists (S j), w. split; [exact Hw|]. split; [exact Hspan|].
        intros [|i] y Hi Hy.
        -- injection Hy as <-. lra.
        -- apply (Hfirst i y); [lia | exact Hy].
Qed.

Lemma startsAscend_nth (l : list WordTiming) :
  startsAscend l ->
  forall i j x y, (i < j)%nat ->
    nth_error l i = Some x -> nth_error l j = Some y ->
    w_start x <= w_start y.
Proof.
  unfold startsAscend. induction 1 as [|a l Hs IH Hall];
    intros i j x y Hij Hx Hy.
  - destruct i; discriminate.
  - destruct j as [|j]; [lia|]. cbn [nth_error] in Hy.
    destruct i as [|i]; cbn [nth_error] in Hx.
    + injection Hx as <-. rewrite Forall_forall in Hall.
      apply Hall. eapply nth_error_In. exact Hy.
    + apply (IH i j); [lia | exact Hx | exact Hy].
Qed.

(** With starts that do not decrease, no later word holds an instant
    that a word holds. *)
Lemma chained_later (t : Q) (l : list WordTiming) (j : nat) (w : WordTiming) :
  chained l -> startsAscend l ->
  nth_error l j = Some w -> t < w_end w ->
  forall j' w', (j < j')%nat -> nth_error l j' = Some w' -> ~ (w_start w' <= t).
Proof.
  intros Hch Hasc Hw Ht j' w' Hj Hw' Hc.
  destruct (nth_error l (S j)) as [b|] eqn:Hb.
  - pose proof (Hch j w b Hw Hb) as Hsb.
    assert (w_start b <= w_start w').
    { destruct (Nat.eq_dec (S j) j') as [<- | Hne].
      - rewrite Hb in Hw'. injection Hw' as <-. apply Qle_refl.
      - apply (startsAscend_nth l Hasc (S j) j'); [lia | exact Hb | exact Hw']. }
    rewrite Hsb in *. lra.
  - apply nth_error_None in Hb.
    assert (j' < List.length l)%nat by (apply nth_error_Some; congruence).
    lia.
Qed.

Lemma fallbackCaptionsFrom_nth (images : list Image) (scenes : list Scene) :
  forall i j c k sc,
    nth_error scenes k = Some sc ->
    exists s,
      nth_error (sceneTimingsFrom images j c scenes) k = Some s
      /\ nth_error (fallbackCaptionsFrom i c scenes) k
         = Some ((i + Z.of_nat k)%Z,
                 {| startTime := start s; endTime := end_ s;
                    text := scene_text sc;
                    words :=
                      Some (wordTimingsFrom (start s)
                              (round64
                                 (duration sc
                                  / inject_Z
                                      (lengthZ (spokenWords (scene_text sc)))))
                              0 (spokenWords (scene_text sc))) |})
      /\ end_ s = start s + duration sc.
Proof.
  induction scenes as [|sc0 rest IH]; intros i j c k sc Hk.
  - destruct k; discriminate.
  - destruct k as [|k]; cbn [fallbackCaptionsFrom sceneTimingsFrom nth_error]
      in *.
    + injection Hk as ->. eexists. split; [reflexivity|].
      cbn. rewrite Z.add_0_r. split; reflexivity.
    + destruct (IH (i + 1)%Z (S j) (c + duration sc0) k sc Hk)
        as (s & Hs & Hc & He).
      exists s. split; [exact Hs|]. split; [|exact He].
      rewrite Hc. f_equal. f_equal. lia.
Qed.

Lemma fallbackCaptionsFrom_length (scenes : list Scene) :
  forall i c, List.length (fallbackCaptionsFrom i c scenes) = List.length scenes.
Proof.
  induction scenes as [|sc rest IH]; intros i c; simpl;
    [reflexivity | now rewrite IH].
Qed.

Lemma spokenWords_nonEmpty (s : string) :
  Forall (fun w => nonEmpty w = true) (spokenWords s).
Proof.
  unfold spokenWords. apply Forall_forall. intros w Hw.
  apply filter_In in Hw. apply Hw.
Qed.

(** The fallback makes one caption per scene, numbered like it, spanning
    its timeline interval and carrying its text; the caption's words are
    the non-empty pieces of the text between white space, in order. *)
Theorem fallback_captions_follow_scenes (images : list Image)
    (scenes : list Scene) :
  let caps := fallbackCaptions scenes in
  List.length caps = List.length scenes
  /\ forall k sc,
       nth_error scenes k = Some sc ->
       exists s c,
         nth_error (sceneTimings images scenes) k = Some s
         /\ nth_error caps k = Some (Z.of_nat k, c)
         /\ startTime c = start s /\ endTime c = end_ s
         /\ text c = scene_text sc
         /\ map word (captionWords c) = spokenWords (scene_text sc)
         /\ Forall (fun w => nonEmpty (word w) = true) (captionWords c).
Proof.
  intro caps. split; [apply fallbackCaptionsFrom_length|].
  intros k sc Hk.
  destruct (fallbackCaptionsFrom_nth images scenes 0 0 0 k sc Hk)
    as (s & Hs & Hc & _).
  eexists s, _. split; [exact Hs|]. split; [exact Hc|].
  cbn [startTime endTime text captionWords words].
  repeat split; try reflexivity.
  - apply wordTimingsFrom_words.
  - apply (proj1 (Forall_map word (fun w => nonEmpty w = true) _)).
    rewrite wordTimingsFrom_words. apply spokenWords_nonEmpty.
Qed.

Section FallbackWords.

Variable this : VideoComposer.


End FallbackWords.

(** Seventy-seven words over a scene of ten seconds: the last word ends
    a rounding error before the caption does. *)
Example fallback_last_word_ends_early :
  let w := round64 (10 / 77) in
  round64 (0 + round64 (77 * w)) < 10.
Proof. vm_compute. reflexivity. Qed.

(** * Images of the output's aspect ratio *)

Lemma same_aspect_rect (a : AspectRatio) (img : Image) :
  0 < img_width img -> 0 < img_height img ->
  img_width img / img_height img == width (load a) / height (load a) ->
  exists y h : Q,
    coverRect (load a) img
    = {| drawX := Fin 0; drawY := Fin y;
         drawWidth := Fin (width (load a)); drawHeight := Fin h |}
    /\ y == 0 /\ h == height (load a).
Proof.
  intros Hw Hh Hsame.
  destruct (load_dims_pos a) as [HW HH].
  rewrite (coverRect_tall (load a) HH img Hw Hh)
    by (rewrite Hsame; apply Qle_refl).
  eexists _, _. split; [reflexivity|].
  assert (Hq : width (load a) / (img_width img / img_height img)
               == height (load a)).
  { rewrite Hsame. field. split; lra. }
  split; [rewrite Hq; field | exact Hq].
Qed.

(** An image of the size that getImageDimensions gives for the aspect
    ratio of the output, and likewise a placeholder, is drawn over exactly
    the whole canvas: nothing of it is cropped and no margin is left. *)
Theorem generated_image_fills_canvas (a : AspectRatio) (img : Image)
    (ctx : Ctx) :
  (img_width img = d_width (getImageDimensions (ratioName a))
   /\ img_height img = d_height (getImageDimensions (ratioName a)))
  \/ (exists n, img = createPlaceholder (load a) n) ->
  exists y h : Q,
    ops (drawImageCover (load a) img ctx)
    = ops ctx ++ [DrawImage img (Fin 0) (Fin y) (Fin (width (load a))) (Fin h)]
    /\ y == 0 /\ h == height (load a).
Proof.
  intro Hsrc.
  assert (H : 0 < img_width img /\ 0 < img_height img
              /\ img_width img / img_height img
                 == width (load a) / height (load a)).
  { destruct Hsrc as [[Hw Hh] | [n ->]].
    - rewrite Hw, Hh. destruct a; repeat split.
    - destruct a; repeat split. }
  destruct H as (Hw & Hh & Hsame).
  destruct (same_aspect_rect a img Hw Hh Hsame) as (y & h & Hrect & Hy & Hh').
  exists y, h. split; [|split; assumption].
  unfold drawImageCover. rewrite Hrect. reflexivity.
Qed.

(** * Transcription results without word timings *)

Lemma spreadWords_words (avg : Q) (ws : list string) :
  forall time, map word (spreadWords avg time ws) = ws.
Proof.
  induction ws as [|w ws IH]; intro time; simpl; [reflexivity | now rewrite IH].
Qed.

Lemma spreadWords_head (avg time : Q) (ws : list string) (a : WordTiming) :
  nth_error (spreadWords avg time ws) 0 = Some a -> w_start a = time.
Proof. destruct ws; simpl; [discriminate|]. intro H. now injection H as <-. Qed.

Lemma spreadWords_chain (avg : Q) (ws : list string) :
  forall time j a b,
    nth_error (spreadWords avg time ws) j = Some a ->
    nth_error (spreadWords avg time ws) (S j) = Some b ->
    w_start b = w_end a.
Proof.
  induction ws as [|w ws IH]; intros time j a b Ha Hb.
  - destruct j; discriminate.
  - destruct j as [|j]; cbn [spreadWords nth_error] in Ha, Hb.
    + injection Ha as <-. cbn. eapply spreadWords_head. exact Hb.
    + eapply IH; eauto.
Qed.

Lemma spreadWords_each (avg : Q) (ws : list string) :
  forall time, Forall (fun a => w_end a = round64 (w_start a + avg))
                 (spreadWords avg time ws).
Proof.
  induction ws as [|w ws IH]; intro time; cbn [spreadWords]; constructor;
    [reflexivity | apply IH].
Qed.

Lemma spreadWords_ascend (avg : Q) (ws : list string) :
  0 <= avg ->
  forall time,
    isDouble time ->
    startsAscend (spreadWords avg time ws)
    /\ Forall (fun a => time <= w_start a) (spreadWords avg time ws)
    /\ Forall (fun a => w_start a <= w_end a) (spreadWords avg time ws).
Proof.
  intro Havg. unfold startsAscend, isDouble.
  induction ws as [|w ws IH]; intros time Htime; cbn [spreadWords].
  - repeat split; constructor.
  - assert (Hnext : time <= round64 (time + avg)).
    { rewrite <- Htime at 1. apply round64_mono. lra. }
    destruct (IH (round64 (time + avg)) (round64_idem _)) as (Hs & Hall & Hlen).
    assert (Hfrom : Forall (fun a => time <= w_start a)
                      (spreadWords avg (round64 (time + avg)) ws)).
    { eapply Forall_impl; [|exact Hall]. intros a Ha. simpl in Ha. lra. }
    split; [|split].
    + constructor; [exact Hs | exact Hfrom].
    + constructor; [cbn; lra | exact Hfrom].
    + constructor; [exact Hnext | exact Hlen].
Qed.

Lemma orNumber_nonzero (a : option Q) (b : Q) :
  ~ b == 0 -> ~ orNumber a b == 0.
Proof.
  intro Hb. unfold orNumber. destruct a as [q|]; [|exact Hb].
  destruct (Qeq_bool q 0) eqn:E; [exact Hb|].
  intro Hq. apply Qeq_bool_iff in Hq. congruence.
Qed.

Lemma last_item {A : Type} (l : list A) (d : A) :
  l <> [] -> item l (lengthZ l - 1) = Some (last l d).
Proof.
  intro Hne. rewrite item_last.
  induction l as [|x l IH]; [congruence|].
  destruct l as [|y l]; [reflexivity|].
  specialize (IH ltac:(discriminate)).
  replace (List.length (x :: y :: l) - 1)%nat with (S (List.length l))
    by (simpl; lia).
  replace (List.length (y :: l) - 1)%nat with (List.length l) in IH
    by (simpl; lia).
  exact IH.
Qed.

(** When Whisper answers no word list and an ASCII text, the words are
    the non-empty pieces of the text between white space, laid out from 0
    in double arithmetic with the length [avg], the rounded quotient of
    the duration [D] it reports (10 seconds when it reports none or 0) by
    their number: the first word starts at 0, each ends at the rounded sum
    of its start and [avg], and the next starts there. The duration returned is the one
    reported; when none or 0 is reported it is the end of the last word,
    and 0 without words. With [D] positive the starts are non-negative
    and do not decrease, and no word ends before it starts. *)
Theorem parseWhisperResult_spreads_words (result : WhisperResult) :
  r_words result = None ->
  isAscii (orString (r_text result) EmptyString) = true ->
  let tr := parseWhisperResult result in
  let ws := spokenWords (t_text tr) in
  let D := orNumber (r_duration result) 10 in
  let avg := round64 (D / inject_Z (Z.max (lengthZ ws) 1)) in
  t_text tr = orString (r_text result) EmptyString
  /\ map word (t_words tr) = ws
  /\ (forall a, nth_error (t_words tr) 0 = Some a -> w_start a = 0)
  /\ chained (t_words tr)
  /\ Forall (fun a => w_end a = round64 (w_start a + avg)) (t_words tr)
  /\ ~ D == 0
  /\ (forall d, r_duration result = Some d -> ~ d == 0 -> t_duration tr = d)
  /\ (r_duration result = None
      \/ (exists d, r_duration result = Some d /\ d == 0) ->
      t_duration tr = last (map w_end (t_words tr)) 0)
  /\ (0 < D ->
      startsAscend (t_words tr)
      /\ Forall (fun a => 0 <= w_start a) (t_words tr)
      /\ Forall (fun a => w_start a <= w_end a) (t_words tr)).
Proof.
  intros Hnone _ tr ws D avg.
  assert (Hwords : t_words tr = spreadWords avg 0 ws).
  { unfold tr, parseWhisperResult. rewrite Hnone. reflexivity. }
  assert (HD : ~ D == 0) by (apply orNumber_nonzero; discriminate).
  split; [reflexivity|]. split; [rewrite Hwords; apply spreadWords_words|].
  split; [rewrite Hwords; intro a; apply spreadWords_head|].
  split; [rewrite Hwords; intros j a b; apply spreadWords_chain|].
  split; [rewrite Hwords; apply spreadWords_each|].
  split; [exact HD|].
  assert (Hdur : t_duration tr
                 = orNumber (r_duration result)
                     (last (map w_end (t_words tr)) 0)).
  { unfold tr at 1, parseWhisperResult. cbn [t_duration]. rewrite Hnone.
    change (spreadWords _ 0 (spokenWords (orString (r_text result) EmptyString)))
      with (spreadWords avg 0 ws).
    rewrite <- Hwords. f_equal.
    destruct (t_words tr) as [|x l] eqn:E; [reflexivity|].
    assert (Htne : x :: l <> []) by discriminate.
    destruct (Z.ltb_spec 0 (lengthZ (x :: l)));
      [|unfold lengthZ in *; simpl List.length in *; lia].
    rewrite (last_item (x :: l)
               {| word := EmptyString; w_start := 0; w_end := 0 |} Htne).
    clear - Htne. induction (x :: l) as [|y l' IH]; [congruence|].
    destruct l' as [|z l']; [reflexivity|].
    specialize (IH ltac:(discriminate)). cbn [map last] in *. exact IH. }
  split.
  { intros d Hd Hnz. rewrite Hdur, Hd. unfold orNumber.
    destruct (Qeq_bool d 0) eqn:E; [|reflexivity].
    apply Qeq_bool_iff in E. contradiction. }
  split.
  { intros [Hd | (d & Hd & Hz)]; rewrite Hdur, Hd; unfold orNumber;
      [reflexivity|].
    destruct (Qeq_bool d 0) eqn:E; [reflexivity|].
    apply Qeq_bool_iff in Hz. congruence. }
  intro Hpos. rewrite Hwords. apply spreadWords_ascend.
  - unfold avg. apply round64_nonneg. apply Qle_shift_div_l; [|lra].
    change 0 with (inject_Z 0). rewrite <- Zlt_Qlt. lia.
  - unfold isDouble. now rewrite round64_zero.
Qed.

(** Nine words over the ten seconds taken when no duration is reported:
    the last word ends, and the duration returned is, a rounding error
    short of ten. *)
Example nine_words_end_early :
  t_duration
    (parseWhisperResult
       {| r_text := Some "a b c d e f g h i"%string; r_words := None;
          r_duration := None |})
  == 10 - (1 # 562949953421312).
Proof. vm_compute. reflexivity. Qed.

(** * Scene durations *)

Lemma estimateDuration_least (narration : string) :
  (10 <= estimateDuration narration)%Z.
Proof. unfold estimateDuration. apply Z.le_max_l. Qed.

(** The two roundings move the estimate by less than a second: it is the
    exact number of seconds rounded up, or one more. *)
Lemma estimateDuration_bounds (narration : string) :
  let n := lengthZ (splitWhitespace narration) in
  let d := estimateDuration narration in
  (n < 2 ^ 32)%Z ->
  (60 * n <= 150 * d)%Z /\ (d = 10%Z \/ (150 * d <= 60 * n + 150)%Z).
Proof.
  intros n d Hsmall.
  assert (Hn : (0 < n)%Z) by apply splitRuns_length.
  unfold d, estimateDuration. fold n.
  set (N := inject_Z n).
  assert (HN1 : 1 <= N) by (unfold N; change 1 with (inject_Z 1);
                            rewrite <- Zle_Qle; lia).
  assert (HN2 : N <= 4294967296).
  { unfold N. change 4294967296 with (inject_Z (2 ^ 32)).
    rewrite <- Zle_Qle. lia. }
  set (x := N / 150).
  assert (Hx : x == N * (1 # 150)) by (unfold x; field).
  assert (He : pow2 (-53) == 1 # 9007199254740992) by reflexivity.
  assert (Htiny : pow2 (-1022) <= 1 # 1000) by (vm_compute; discriminate).
  destruct (round64_error x ltac:(lra)) as [A1 A2].
  rewrite He in A1, A2.
  set (r := round64 x) in *.
  destruct (round64_error (r * 60) ltac:(lra)) as [B1 B2].
  rewrite He in B1, B2.
  set (b := round64 (r * 60)) in *.
  pose proof (Qle_ceiling b) as Hup. pose proof (Qceiling_lt b) as Hlo.
  set (z := Qceiling b) in *.
  set (Zq := inject_Z z) in *.
  assert (Hlo' : Zq - 1 < b).
  { unfold Zq. unfold Z.sub in Hlo. rewrite inject_Z_plus in Hlo. exact Hlo. }
  assert (L : 60 * N - 1 < 150 * Zq) by lra.
  assert (U : 150 * Zq < 60 * N + 151) by lra.
  assert (LZ : (60 * n + -1 < 150 * z)%Z).
  { rewrite Zlt_Qlt, inject_Z_plus, !inject_Z_mult. fold N Zq.
    change (inject_Z 60) with 60. change (inject_Z 150) with 150.
    change (inject_Z (-1)) with (-1). lra. }
  assert (UZ : (150 * z < 60 * n + 151)%Z).
  { rewrite Zlt_Qlt, inject_Z_plus, !inject_Z_mult. fold N Zq.
    change (inject_Z 60) with 60. change (inject_Z 150) with 150.
    change (inject_Z 151) with 151. lra. }
  lia.
Qed.

Lemma totalDuration_at_least (scenes : list Scene) (m : Q) :
  Forall (fun sc => m <= duration sc) scenes ->
  inject_Z (lengthZ scenes) * m <= totalDuration scenes.
Proof.
  intro Hall. unfold totalDuration. rewrite fold_left_durations.
  unfold lengthZ. induction Hall as [|sc rest Hsc _ IH].
  - change (0 * m <= 0 + 0). lra.
  - replace (Z.of_nat (List.length (sc :: rest)))
      with (Z.of_nat (List.length rest) + 1)%Z by (simpl List.length; lia).
    rewrite inject_Z_plus. cbn [map Qsum fold_right].
    change (fold_right Qplus 0 (map duration rest))
      with (Qsum (map duration rest)).
    change (inject_Z 1) with 1. lra.
Qed.

(** A scene lasts a whole number of seconds, never less than 10, so that
    the scenes that analyzeScript returns, one per analyzed scene and in
    the same order, give a timeline of at least 10 seconds a scene. For a
    narration in ASCII of fewer than 2^32 pieces that number is what the
    narration takes at 150 words a minute, rounded up, or one second
    more: the estimate is made in double arithmetic. *)
Theorem analyzed_scenes_durations (raw : list AnalyzedScene) :
  let scenes := analyzedScenes raw in
  List.length scenes = List.length raw
  /\ (forall k r, nth_error raw k = Some r ->
        exists sc d,
          nth_error scenes k = Some sc
          /\ scene_text sc = narration r
          /\ imagePrompt sc = visualDescription r
          /\ duration sc = inject_Z d
          /\ (10 <= d)%Z
          /\ (isAscii (narration r) = true ->
              (lengthZ (splitWhitespace (narration r)) < 2 ^ 32)%Z ->
              (60 * lengthZ (splitWhitespace (narration r)) <= 150 * d)%Z
              /\ (d = 10%Z
                  \/ (150 * d
                      <= 60 * lengthZ (splitWhitespace (narration r)) + 150)%Z)))
  /\ Forall (fun sc => 10 <= duration sc) scenes
  /\ inject_Z (lengthZ scenes) * 10 <= totalDuration scenes.
Proof.
  intro scenes.
  assert (Hall : Forall (fun sc => 10 <= duration sc) scenes).
  { unfold scenes, analyzedScenes. apply Forall_map, Forall_forall.
    intros r _. cbn [duration].
    pose proof (estimateDuration_least (narration r)) as H10.
    change 10 with (inject_Z 10). now rewrite <- Zle_Qle. }
  split; [apply length_map|]. split.
  - intros k r Hr. unfold scenes, analyzedScenes.
    rewrite nth_error_map, Hr. cbn [option_map].
    eexists _, _. split; [reflexivity|]. cbn.
    split; [reflexivity|]. split; [reflexivity|]. split; [reflexivity|].
    split; [apply estimateDuration_least|].
    intros _. apply estimateDuration_bounds.
  - split; [exact Hall | now apply totalDuration_at_least].
Qed.

(** A narration of 155 words: 62 seconds at 150 words a minute, and the
    estimate is 63. *)
Example estimate_of_155_words :
  Z.max 10 (Qceiling (round64 (round64 (155 / 150) * 60))) = 63%Z
  /\ Qceiling (155 / 150 * 60) = 62%Z.
Proof. split; vm_compute; reflexivity. Qed.

(** * Chunks of text to speak *)

Example matchSentences_samples :
  matchSentences "Hello. World" = ["Hello."]%string
  /\ matchSentences "a.b!?c." = ["a."; "b!?"; "c."]%string
  /\ matchSentences "..a. b" = ["a."]%string
  /\ matchSentences "no mark" = []
  /\ trim "  a b  " = "a b"%string.
Proof. repeat split. Qed.

Lemma append_empty_r (s : string) : (s ++ EmptyString)%string = s.
Proof. induction s as [|c s IH]; simpl; [reflexivity | now rewrite IH]. Qed.

Lemma append_assoc (a b c : string) :
  ((a ++ b) ++ c)%string = (a ++ (b ++ c))%string.
Proof. induction a as [|x a IH]; simpl; [reflexivity | now rewrite IH]. Qed.

Lemma hasInk_append (a b : string) :
  hasInk (a ++ b) = hasInk a || hasInk b.
Proof.
  induction a as [|c a IH]; simpl; [reflexivity|].
  now rewrite IH, orb_assoc.
Qed.

Lemma hasInk_nonEmpty (s : string) : hasInk s = true -> nonEmpty s = true.
Proof. destruct s; [discriminate | reflexivity]. Qed.

Lemma hasInk_trimStart (s : string) : hasInk (trimStart s) = hasInk s.
Proof.
  induction s as [|c s IH]; simpl; [reflexivity|].
  destruct (isSpace c) eqn:E; simpl; rewrite ?E; auto.
Qed.

Lemma hasInk_trimEnd (s : string) : hasInk (trimEnd s) = hasInk s.
Proof.
  induction s as [|c s IH]; simpl; [reflexivity|].
  destruct (trimEnd s) as [|k kept] eqn:E.
  - simpl in IH. rewrite <- IH.
    destruct (isSpace c) eqn:Ec; simpl; rewrite ?Ec; reflexivity.
  - cbn [hasInk]. cbn [hasInk] in IH. now rewrite IH.
Qed.

Lemma trim_ink (s : string) : hasInk s = true -> nonEmpty (trim s) = true.
Proof.
  intro H. apply hasInk_nonEmpty. unfold trim.
  now rewrite hasInk_trimEnd, hasInk_trimStart.
Qed.

Lemma trimStart_length (s : string) :
  (String.length (trimStart s) <= String.length s)%nat.
Proof.
  induction s as [|c s IH]; simpl; [lia|].
  destruct (isSpace c); simpl; lia.
Qed.

Lemma trimEnd_length (s : string) :
  (String.length (trimEnd s) <= String.length s)%nat.
Proof.
  induction s as [|c s IH]; simpl; [lia|].
  destruct (trimEnd s); [destruct (isSpace c)|]; simpl in *; lia.
Qed.

Lemma trim_length (s : string) :
  (String.length (trim s) <= String.length s)%nat.
Proof.
  unfold trim. pose proof (trimEnd_length (trimStart s)).
  pose proof (trimStart_length s). lia.
Qed.

Lemma isTerminator_ink (c : ascii) :
  isTerminator c = true -> isSpace c = false.
Proof.
  unfold isTerminator. rewrite !orb_true_iff.
  intros [[H | H] | H]; apply Ascii.eqb_eq in H; subst; reflexivity.
Qed.

Lemma sentencesFrom_ink (s : string) :
  forall body marks,
    (nonEmpty marks = true -> hasInk marks = true) ->
    Forall (fun x => hasInk x = true) (sentencesFrom body marks s).
Proof.
  induction s as [|c rest IH]; intros body marks Hm; cbn [sentencesFrom].
  - destruct (nonEmpty marks) eqn:E; constructor; [|constructor].
    rewrite hasInk_append, (Hm eq_refl). apply orb_true_r.
  - destruct (isTerminator c) eqn:Ec.
    + destruct (nonEmpty body); [|now apply IH].
      apply IH. intros _. rewrite hasInk_append. cbn.
      rewrite (isTerminator_ink c Ec). cbn. apply orb_true_r.
    + destruct (nonEmpty marks) eqn:E.
      * constructor; [|apply IH; discriminate].
        rewrite hasInk_append, (Hm eq_refl). apply orb_true_r.
      * apply IH. discriminate.
Qed.

Lemma glue_snoc (g : list string) (s : string) :
  glue (g ++ [s]) = (glue g ++ s)%string.
Proof.
  induction g as [|x g IH]; cbn; [apply append_empty_r|].
  unfold glue in IH. now rewrite IH, append_assoc.
Qed.

Lemma glue_ink (g : list string) :
  g <> [] -> Forall (fun x => hasInk x = true) g -> hasInk (glue g) = true.
Proof.
  intros Hne Hall. destruct Hall as [|x g Hx _]; [congruence|].
  cbn. now rewrite hasInk_append, Hx.
Qed.

Ltac conjuncts := repeat match goal with |- _ /\ _ => split end.

Lemma chunkLoop_groups (sentences : list string) :
  Forall (fun x => hasInk x = true) sentences ->
  forall chunks g,
    Forall (fun x => hasInk x = true) g ->
    (g <> [] -> fitsChunk g) ->
    exists groups g',
      chunkLoop sentences chunks (glue g)
      = (chunks ++ map (fun gr => trim (glue gr)) groups, glue g')
      /\ List.concat groups ++ g' = g ++ sentences
      /\ Forall fitsChunk groups
      /\ Forall (fun x => hasInk x = true) g'
      /\ (g' <> [] -> fitsChunk g')
      /\ (g ++ sentences <> [] -> g' <> []).
Proof.
  induction 1 as [|s rest Hs Hrest IH]; intros chunks g Hg Hfit;
    cbn [chunkLoop].
  - exists [], g. cbn. rewrite !app_nil_r.
    conjuncts; auto.
  - destruct (maxChunkLength <? String.length (glue g ++ s))%nat eqn:E.
    + assert (Hone : Forall (fun x => hasInk x = true) [s])
        by (constructor; [exact Hs | constructor]).
      assert (Hfit1 : [s] <> [] -> fitsChunk [s])
        by (intros _; split; [discriminate | right; now exists s]).
      destruct g as [|x g0].
      * cbn [glue fold_right nonEmpty].
        destruct (IH chunks [s] Hone Hfit1)
          as (groups & g' & Hc & Hcat & Hall & Hg' & Hfit' & Hne').
        replace (glue [s]) with s in Hc by (cbn; now rewrite append_empty_r).
        exists groups, g'. rewrite Hc. cbn [app] in *.
        conjuncts; auto; intros _; apply Hne'; discriminate.
      * assert (Hgne : x :: g0 <> []) by discriminate.
        rewrite (hasInk_nonEmpty _ (glue_ink _ Hgne Hg)).
        destruct (IH (chunks ++ [trim (glue (x :: g0))]) [s] Hone Hfit1)
          as (groups & g' & Hc & Hcat & Hall & Hg' & Hfit' & Hne').
        replace (glue [s]) with s in Hc by (cbn; now rewrite append_empty_r).
        exists ((x :: g0) :: groups), g'. rewrite Hc.
        split; [cbn [map]; rewrite <- app_assoc; reflexivity|].
        split; [cbn [List.concat]; rewrite <- app_assoc, Hcat; reflexivity|].
        split; [constructor; [now apply Hfit | exact Hall]|].
        split; [exact Hg'|]. split; [exact Hfit'|].
        intros _. apply Hne'. discriminate.
    + apply Nat.ltb_ge in E.
      assert (Hg2 : Forall (fun x => hasInk x = true) (g ++ [s]))
        by (apply Forall_app; split; [exact Hg | now constructor]).
      assert (Hfit2 : g ++ [s] <> [] -> fitsChunk (g ++ [s])).
      { intros _. split; [destruct g; discriminate|]. left.
        now rewrite glue_snoc. }
      destruct (IH chunks (g ++ [s]) Hg2 Hfit2)
        as (groups & g' & Hc & Hcat & Hall & Hg' & Hfit' & Hne').
      rewrite glue_snoc in Hc.
      exists groups, g'. rewrite Hc. split; [reflexivity|].
      split; [rewrite Hcat, <- app_assoc; reflexivity|].
      conjuncts; auto; intros _; apply Hne'; destruct g; discriminate.
Qed.

(** When the text holds at least one sentence (some characters other
    than [.], [!], [?] followed by such marks), the chunks are the sentences
    in order, none lost, grouped into runs of consecutive sentences: each
    chunk is one run with the white space at its ends removed, and a run is
    at most 4000 characters long unless it is one sentence alone. What
    follows the last mark is not spoken. When the text holds no sentence
    it is one chunk, whatever its length. *)
Theorem splitText_groups_sentences (text : string) :
  (matchSentences text <> [] ->
   exists groups,
     List.concat groups = matchSentences text
     /\ Forall fitsChunk groups
     /\ splitText text = map (fun g => trim (glue g)) groups
     /\ Forall (fun c => (String.length c <= maxChunkLength)%nat
                         \/ exists s, In s (matchSentences text) /\ c = trim s)
          (splitText text))
  /\ (matchSentences text = [] ->
      splitText text = [if nonEmpty (trim text) then trim text else text])
  /\ splitText text <> [].
Proof.
  assert (Hink : Forall (fun x => hasInk x = true) (matchSentences text))
    by (apply sentencesFrom_ink; discriminate).
  assert (Hsome : matchSentences text <> [] ->
            exists groups,
              List.concat groups = matchSentences text
              /\ Forall fitsChunk groups
              /\ groups <> []
              /\ splitText text = map (fun g => trim (glue g)) groups).
  { intro Hne. unfold splitText.
    destruct (matchSentences text) as [|s0 found] eqn:Em; [congruence|].
    destruct (chunkLoop_groups (s0 :: found) Hink [] []
                (Forall_nil _) ltac:(congruence))
      as (groups & g' & Hc & Hcat & Hall & Hg' & Hfit' & Hne').
    cbn [glue fold_right app] in Hc. rewrite Hc. cbn [app] in Hcat.
    specialize (Hne' ltac:(discriminate)).
    rewrite (trim_ink _ (glue_ink _ Hne' Hg')).
    exists (groups ++ [g']).
    split; [rewrite concat_app; cbn; now rewrite app_nil_r|].
    split; [apply Forall_app; split; [exact Hall | constructor; auto]|].
    split; [destruct groups; discriminate|].
    rewrite map_app. cbn [map].
    destruct (map (fun g => trim (glue g)) groups ++ [trim (glue g')]) eqn:E;
      [destruct (map (fun g => trim (glue g)) groups); discriminate|].
    reflexivity. }
  split; [|split].
  - intro Hne. destruct (Hsome Hne) as (groups & Hcat & Hall & _ & Hsplit).
    exists groups. split; [exact Hcat|]. split; [exact Hall|].
    split; [exact Hsplit|].
    rewrite Hsplit. apply Forall_forall. intros c Hc.
    apply in_map_iff in Hc. destruct Hc as (g & <- & Hg).
    rewrite Forall_forall in Hall. destruct (Hall g Hg) as [_ [Hlen | [s ->]]].
    + left. pose proof (trim_length (glue g)). lia.
    + right. exists s. split.
      * rewrite <- Hcat. apply in_concat. exists [s]. split; [exact Hg | now left].
      * cbn. now rewrite append_empty_r.
  - intro Hnone. unfold splitText. rewrite Hnone. cbn [chunkLoop].
    destruct (maxChunkLength <? String.length (EmptyString ++ text))%nat;
      cbn [nonEmpty app append]; destruct (nonEmpty (trim text)); reflexivity.
  - destruct (matchSentences text) as [|s0 found] eqn:Em.
    + unfold splitText. rewrite Em. cbn [chunkLoop].
      destruct (maxChunkLength <? String.length (EmptyString ++ text))%nat;
        cbn [nonEmpty app append]; destruct (nonEmpty (trim text));
        discriminate.
    + destruct (Hsome ltac:(discriminate)) as (groups & _ & _ & Hgne & Hsplit).
      rewrite Hsplit. destruct groups; [congruence | discriminate].
Qed.

(** * The further properties at sample inputs *)

Lemma drawFrame_layers_sample :
  (forall c, In c [helloWorld] -> ~ (startTime c <= 5 < endTime c))
  /\ imagesDrawn
       (ops (fst (drawFrame tenPerChar (load ar_9_16) (Some squareImage)
                    [helloWorld] DEFAULT_CAPTION_SETTINGS 5 freshCtx)))
     = [squareImage]
  /\ textsOf
       (ops (fst (drawFrame tenPerChar (load ar_9_16) (Some squareImage)
                    [helloWorld] DEFAULT_CAPTION_SETTINGS 5 freshCtx)))
     = [].
Proof.
  assert (Hnone : forall c, In c [helloWorld] ->
                    ~ (startTime c <= 5 < endTime c)).
  { intros c [<- | []] [_ H]. apply Qlt_bool_iff in H. discriminate H. }
  split; [exact Hnone|].
  destruct (drawFrame_layers tenPerChar (load ar_9_16) squareImage [helloWorld]
              DEFAULT_CAPTION_SETTINGS 5 freshCtx)
    as (ctx' & more & Hframe & Hops & _ & Himgs & Hoff & _).
  destruct (Hoff Hnone) as [_ Hmore].
  rewrite Hframe. cbn [fst]. split; [exact Himgs|].
  rewrite Hops, Hmore. reflexivity.
Defined.


Lemma loadImages_per_scene_sample :
  nth_error narratedScenes 1 = nth_error narratedScenes 1
  /\ nth_error (fst (loadImages (hostWith []) (load ar_9_16)
                       (lengthZ narratedScenes) 0 narratedScenes)) 1
     = Some {| content := Placeholder 2; img_width := 1080;
               img_height := 1920 |}.
Proof.
  split; [reflexivity|].
  destruct (loadImages_per_scene (hostWith []) ar_9_16 narratedScenes)
    as [_ Hper].
  destruct (Hper 1%nat _ eq_refl) as (img & s & Himg & _ & _ & _ & Hplace).
  rewrite Himg, (Hplace (or_introl eq_refl)). reflexivity.
Defined.


Lemma karaoke_two_lines_sample :
  (words helloWorld = Some helloWords /\ helloWords <> [])
  /\ exists line1 line2,
       line1 ++ line2 = helloWords
       /\ (List.length line1 <= 4)%nat.
Proof.
  split; [split; [reflexivity | discriminate]|].
  pose proof (karaoke_two_lines tenPerChar (load ar_9_16) helloWorld
                DEFAULT_CAPTION_SETTINGS 0.3 freshCtx helloWords eq_refl
                ltac:(discriminate)) as H.
  cbv zeta in H.
  change (karaokeWindow (lengthZ helloWords) (currentWordIdx helloWords 0.3))
    with (0, 2)%Z in H.
  destruct H as (line1 & line2 & Hcat & _ & _ & Hfour).
  exists line1, line2. split; [exact Hcat | exact Hfour].
Defined.

Lemma reveal_windows_advance_sample :
  (startTime helloPlain <= 0.5 /\ 0.5 <= 1.5 /\ 1.5 < endTime helloPlain)
  /\ exists s e,
       sentenceWindow 2 (captionProgress helloPlain 0.5) = (ofZ s, ofZ e)
       /\ (e - s <= 8)%Z.
Proof.
  assert (H1 : startTime helloPlain <= 0.5) by discriminate.
  assert (H2 : 0.5 <= 1.5) by discriminate.
  assert (H3 : 1.5 < endTime helloPlain) by reflexivity.
  split; [auto|].
  destruct (reveal_windows_advance helloPlain 0.5 1.5 H1 H2 H3)
    as [(s & e & s' & e' & Hw & _ & _ & _ & _ & _ & H8 & _) _].
  exists s, e. split; [exact Hw | exact H8].
Defined.

Lemma transcription_captions_follow_scenes_sample :
  (narratedScenes <> [] /\ startsAscend helloWords)
  /\ map fst (createCaptionsFromTranscription helloWords narratedScenes)
     = [0%Z]
  /\ exists dropped,
       List.concat
         (map (fun ic => captionWords (snd ic))
            (createCaptionsFromTranscription helloWords narratedScenes))
         ++ dropped = helloWords
       /\ Forall (fun w => totalDuration narratedScenes <= w_start w) dropped.
Proof.
  assert (H1 : narratedScenes <> []) by discriminate.
  assert (H2 : startsAscend helloWords).
  { unfold startsAscend, helloWords.
    repeat constructor; cbn; discriminate. }
  split; [split; [exact H1 | exact H2]|]. split; [reflexivity|].
  destruct (transcription_captions_follow_scenes [] helloWords narratedScenes)
    as (_ & _ & _ & dropped & Hcat & _ & Hall).
  exists dropped. split; [exact Hcat | exact (Hall H1 H2)].
Defined.

Lemma transcription_words_in_span_sample :
  (startsAscend helloWords /\ Forall (fun w => 0 <= w_start w) helloWords)
  /\ forall ic w,
       In ic (createCaptionsFromTranscription helloWords narratedScenes) ->
       In w (captionWords (snd ic)) ->
       startTime (snd ic) <= w_start w < endTime (snd ic).
Proof.
  assert (H1 : startsAscend helloWords).
  { unfold startsAscend, helloWords.
    repeat constructor; cbn; discriminate. }
  assert (H2 : Forall (fun w => 0 <= w_start w) helloWords)
    by (repeat constructor; cbn; discriminate).
  split; [auto|].
  exact (transcription_words_in_span helloWords narratedScenes H1 H2).
Defined.

Lemma fallback_captions_follow_scenes_sample :
  nth_error narratedScenes 1 = nth_error narratedScenes 1
  /\ exists c,
       nth_error (fallbackCaptions narratedScenes) 1 = Some (1%Z, c)
       /\ map word (captionWords c) = ["Good"; "bye"; "now"]%string.
Proof.
  split; [reflexivity|].
  destruct (fallback_captions_follow_scenes [] narratedScenes) as [_ Hper].
  destruct (Hper 1%nat _ eq_refl) as (s & c & _ & Hc & _ & _ & _ & Hw & _).
  exists c. split; [exact Hc | exact Hw].
Defined.


Lemma generated_image_fills_canvas_sample :
  exists y h : Q,
    ops (drawImageCover (load ar_16_9)
           {| content := Loaded "blob:generated"; img_width := 1024;
              img_height := 576 |} freshCtx)
    = [DrawImage {| content := Loaded "blob:generated"; img_width := 1024;
                    img_height := 576 |} (Fin 0) (Fin y) (Fin 1920) (Fin h)]
    /\ y == 0 /\ h == 1080.
Proof.
  exact (generated_image_fills_canvas ar_16_9
           {| content := Loaded "blob:generated"; img_width := 1024;
              img_height := 576 |} freshCtx
           (or_introl (conj eq_refl eq_refl))).
Defined.

Lemma parseWhisperResult_spreads_words_sample :
  (r_words plainAnswer = None
   /\ isAscii (orString (r_text plainAnswer) EmptyString) = true
   /\ r_duration plainAnswer = Some 2
   /\ ~ 2 == 0 /\ 0 < orNumber (r_duration plainAnswer) 10)
  /\ map word (t_words (parseWhisperResult plainAnswer))
     = ["Hello"; "world"]%string
  /\ t_duration (parseWhisperResult plainAnswer) = 2
  /\ startsAscend (t_words (parseWhisperResult plainAnswer)).
Proof.
  assert (H1 : ~ 2 == 0) by discriminate.
  assert (H2 : 0 < orNumber (r_duration plainAnswer) 10) by reflexivity.
  split; [repeat split; assumption|].
  destruct (parseWhisperResult_spreads_words plainAnswer eq_refl eq_refl)
    as (_ & Hw & _ & _ & _ & _ & Hdur & _ & Hasc).
  split; [exact Hw|]. split; [exact (Hdur 2 eq_refl H1)|].
  apply (Hasc H2).
Defined.

Lemma analyzed_scenes_durations_sample :
  (nth_error [analyzedHello] 0 = Some analyzedHello
   /\ isAscii (narration analyzedHello) = true
   /\ (lengthZ (splitWhitespace (narration analyzedHello)) < 2 ^ 32)%Z)
  /\ exists sc d,
       nth_error (analyzedScenes [analyzedHello]) 0 = Some sc
       /\ duration sc = inject_Z d
       /\ (60 * lengthZ (splitWhitespace (narration analyzedHello))
           <= 150 * d)%Z.
Proof.
  assert (H1 : (lengthZ (splitWhitespace (narration analyzedHello))
                < 2 ^ 32)%Z) by reflexivity.
  split; [split; [reflexivity|]; split; [reflexivity | exact H1]|].
  destruct (analyzed_scenes_durations [analyzedHello]) as (_ & Hper & _).
  destruct (Hper 0%nat analyzedHello eq_refl)
    as (sc & d & Hsc & _ & _ & Hd & _ & Hrate).
  exists sc, d. split; [exact Hsc|]. split; [exact Hd|].
  apply (Hrate eq_refl H1).
Defined.

Lemma splitText_groups_sentences_sample :
  matchSentences "Hi there. Bye now!" <> []
  /\ exists groups,
       List.concat groups = matchSentences "Hi there. Bye now!"
       /\ Forall fitsChunk groups
       /\ splitText "Hi there. Bye now!"
          = map (fun g => trim (glue g)) groups
       /\ Forall (fun c => (String.length c <= maxChunkLength)%nat
                           \/ exists s,
                                In s (matchSentences "Hi there. Bye now!")
                                /\ c = trim s)
            (splitText "Hi there. Bye now!").
Proof.
  assert (H : matchSentences "Hi there. Bye now!" <> [])
    by (vm_compute; discriminate).
  split; [exact H|].
  exact (proj1 (splitText_groups_sentences "Hi there. Bye now!") H).
Defined.
